(** * sapphirejs/filesystem: the facade, the local driver and the package entry point

    A shallow embedding of [lib/filesystem.js] (the facade), of
    [lib/drivers/local.js] (the local driver) and of [index.js] (the package
    entry point), together with a model of the two Node modules the driver
    is written against: [path] (POSIX flavour) and [fs]. *)

From Stdlib Require Import String Ascii List Bool NArith ZArith Lia ZifyBool ZifyN.
Import ListNotations.
Open Scope string_scope.
Set Warnings "-register-all".

(** ** Node's [path] module, POSIX flavour

    The driver requires it as [fsPath].  Paths are JavaScript strings; the
    functions below follow Node's [lib/path.js]: a path is cut at every
    ['/'], empty and ["."] segments are dropped, and [".."] removes the
    segment before it. *)
Module Path.

Definition sep : string := "/".
Definition slash : ascii := "/"%char.

(** [s.split('/')]: always at least one piece. *)
Fixpoint split (s : string) : list string :=
  match s with
  | EmptyString => [EmptyString]
  | String c r =>
      if Ascii.eqb c slash then EmptyString :: split r
      else match split r with
           | h :: t => String c h :: t
           | [] => [String c EmptyString]
           end
  end.

(** [l.join('/')]. *)
Fixpoint join_sep (l : list string) : string :=
  match l with
  | [] => EmptyString
  | x :: r => match r with [] => x | _ :: _ => x ++ "/" ++ join_sep r end
  end.

Definition isAbsolute (p : string) : bool :=
  match p with
  | String c _ => Ascii.eqb c slash
  | EmptyString => false
  end.

Fixpoint ends_with_slash (p : string) : bool :=
  match p with
  | EmptyString => false
  | String c EmptyString => Ascii.eqb c slash
  | String _ r => ends_with_slash r
  end.

(** One separator-delimited segment of [normalizeString]; [res] is the
    result so far, last segment first. *)
Definition norm_step (allowAboveRoot : bool) (res : list string) (seg : string)
  : list string :=
  if (seg =? EmptyString) || (seg =? ".") then res
  else if seg =? ".." then
    match res with
    | top :: rest =>
        if top =? ".." then (if allowAboveRoot then ".." :: res else res)
        else rest
    | [] => if allowAboveRoot then [".."] else []
    end
  else seg :: res.

Definition norm_segs (allowAboveRoot : bool) (segs : list string) : list string :=
  rev (fold_left (norm_step allowAboveRoot) segs []).

Definition normalizeString (path : string) (allowAboveRoot : bool) : string :=
  join_sep (norm_segs allowAboveRoot (split path)).

Definition normalize (path : string) : string :=
  if path =? EmptyString then "."
  else
    let isAbs := isAbsolute path in
    let trailing := ends_with_slash path in
    let p := normalizeString path (negb isAbs) in
    if p =? EmptyString then
      if isAbs then "/" else if trailing then "./" else "."
    else
      let p := if trailing then p ++ "/" else p in
      if isAbs then "/" ++ p else p.

(** [path.join(...args)]: the non-empty arguments joined by ['/'] and
    normalized; ["."] when there is none. *)
Definition join (args : list string) : string :=
  match filter (fun a => negb (a =? EmptyString)) args with
  | [] => "."
  | l => normalize (join_sep l)
  end.

Fixpoint drop_slashes (l : list ascii) : list ascii :=
  match l with
  | c :: r => if Ascii.eqb c slash then drop_slashes r else l
  | [] => []
  end.

Fixpoint take_name (l : list ascii) : list ascii :=
  match l with
  | c :: r => if Ascii.eqb c slash then [] else c :: take_name r
  | [] => []
  end.

Fixpoint drop_name (l : list ascii) : option (list ascii) :=
  match l with
  | c :: r => if Ascii.eqb c slash then Some r else drop_name r
  | [] => None
  end.

(** [path.dirname]: the scan runs from the end of the string down to
    index 1, skipping trailing separators. *)
Definition dirname (path : string) : string :=
  match list_ascii_of_string path with
  | [] => "."
  | c0 :: tail =>
      let hasRoot := Ascii.eqb c0 slash in
      match drop_name (drop_slashes (rev tail)) with
      | None => if hasRoot then "/" else "."
      | Some r =>
          match r with
          | [] => if hasRoot then "//" else String c0 EmptyString
          | _ :: _ => string_of_list_ascii (c0 :: rev r)
          end
      end
  end.

(** [path.basename] without the extension argument. *)
Definition basename (path : string) : string :=
  string_of_list_ascii
    (rev (take_name (drop_slashes (rev (list_ascii_of_string path))))).

(** The segments of [path] taken from the directory [cwd] (an absolute
    path): what [path.resolve(path)] computes before it prints them. *)
Definition resolve_segs (cwd path : string) : list string :=
  if isAbsolute path then norm_segs false (split path)
  else norm_segs false (split cwd ++ split path).

(** [path.resolve(path)] in a process whose working directory is [cwd]. *)
Definition resolve (cwd path : string) : string :=
  "/" ++ join_sep (resolve_segs cwd path).

Fixpoint no_slash (s : string) : bool :=
  match s with
  | EmptyString => true
  | String c r => negb (Ascii.eqb c slash) && no_slash r
  end.

(** The name of a directory entry: not empty, no separator, neither
    ["."] nor [".."]. *)
Definition plain (s : string) : bool :=
  no_slash s && negb (s =? EmptyString) && negb (s =? ".") && negb (s =? "..").

(** A segment [normalizeString] leaves in its result. *)
Definition clean (allowAboveRoot : bool) (s : string) : bool :=
  plain s || (allowAboveRoot && (s =? "..")).

End Path.

(** ** Text and its UTF-8 bytes

    The driver passes ['utf8'] to every call that reads or writes text.
    A file holds bytes; text is a JavaScript string, a sequence of UTF-16
    code units.  Encoding turns a lone surrogate into U+FFFD; decoding
    turns every byte sequence that is not UTF-8 into U+FFFD, one for each
    maximal ill-formed part.  Paths and names stay [string]s: nothing
    here looks into a name but for ['/'] and ['.']. *)
Module Text.

(** A JavaScript string: its UTF-16 code units, each below [2^16]. *)
Definition jsstring := list N.

Definition is_jsstring (s : jsstring) : bool := forallb (fun u => (u <? 65536)%N) s.

(** The string of the characters of [s], one code unit each. *)
Definition js (s : string) : jsstring := map N_of_ascii (list_ascii_of_string s).

Definition is_high (u : N) : bool := ((55296 <=? u) && (u <=? 56319))%N.
Definition is_low (u : N) : bool := ((56320 <=? u) && (u <=? 57343))%N.

(** U+FFFD, which stands in for what cannot be encoded or decoded. *)
Definition REPLACEMENT : N := 65533.

Definition pair_point (hi lo : N) : N := (65536 + (hi - 55296) * 1024 + (lo - 56320))%N.

Definition bytes (l : list N) : string := string_of_list_ascii (map ascii_of_N l).

(** The UTF-8 bytes of one code point. *)
Definition encode_point (c : N) : list N :=
  (if c <? 128 then [c]
   else if c <? 2048 then [192 + c / 64; 128 + c mod 64]
   else if c <? 65536 then [224 + c / 4096; 128 + (c / 64) mod 64; 128 + c mod 64]
   else [240 + c / 262144; 128 + (c / 4096) mod 64; 128 + (c / 64) mod 64; 128 + c mod 64])%N.

Fixpoint utf8_encode (s : jsstring) : string :=
  match s with
  | [] => EmptyString
  | u :: r =>
      if is_high u then
        match r with
        | l :: r' =>
            if is_low l then bytes (encode_point (pair_point u l)) ++ utf8_encode r'
            else bytes (encode_point REPLACEMENT) ++ utf8_encode r
        | [] => bytes (encode_point REPLACEMENT)
        end
      else if is_low u then bytes (encode_point REPLACEMENT) ++ utf8_encode r
      else bytes (encode_point u) ++ utf8_encode r
  end.

Definition continuation (b : N) : bool := ((128 <=? b) && (b <=? 191))%N.

(** The code units of one decoded code point. *)
Definition units (c : N) : list N :=
  (if c <? 65536 then [c]
   else [55296 + (c - 65536) / 1024; 56320 + (c - 65536) mod 1024])%N.

Fixpoint utf8_decode (bs : string) : jsstring :=
  match bs with
  | EmptyString => []
  | String a0 r0 =>
      let b0 := N_of_ascii a0 in
      if (b0 <? 128)%N then b0 :: utf8_decode r0
      else if ((194 <=? b0) && (b0 <=? 223))%N then
        match r0 with
        | String a1 r1 =>
            let b1 := N_of_ascii a1 in
            if continuation b1
            then ((b0 - 192) * 64 + (b1 - 128))%N :: utf8_decode r1
            else REPLACEMENT :: utf8_decode r0
        | EmptyString => [REPLACEMENT]
        end
      else if ((224 <=? b0) && (b0 <=? 239))%N then
        match r0 with
        | String a1 r1 =>
            let b1 := N_of_ascii a1 in
            if (((if b0 =? 224 then 160 else 128) <=? b1)
                && (b1 <=? (if b0 =? 237 then 159 else 191)))%N
            then
              match r1 with
              | String a2 r2 =>
                  let b2 := N_of_ascii a2 in
                  if continuation b2
                  then ((b0 - 224) * 4096 + (b1 - 128) * 64 + (b2 - 128))%N
                       :: utf8_decode r2
                  else REPLACEMENT :: utf8_decode r1
              | EmptyString => [REPLACEMENT]
              end
            else REPLACEMENT :: utf8_decode r0
        | EmptyString => [REPLACEMENT]
        end
      else if ((240 <=? b0) && (b0 <=? 244))%N then
        match r0 with
        | String a1 r1 =>
            let b1 := N_of_ascii a1 in
            if (((if b0 =? 240 then 144 else 128) <=? b1)
                && (b1 <=? (if b0 =? 244 then 143 else 191)))%N
            then
              match r1 with
              | String a2 r2 =>
                  let b2 := N_of_ascii a2 in
                  if continuation b2
                  then
                    match r2 with
                    | String a3 r3 =>
                        let b3 := N_of_ascii a3 in
                        if continuation b3
                        then (units ((b0 - 240) * 262144 + (b1 - 128) * 4096
                                     + (b2 - 128) * 64 + (b3 - 128))%N
                              ++ utf8_decode r3)%list
                        else REPLACEMENT :: utf8_decode r2
                    | EmptyString => [REPLACEMENT]
                    end
                  else REPLACEMENT :: utf8_decode r1
              | EmptyString => [REPLACEMENT]
              end
            else REPLACEMENT :: utf8_decode r0
        | EmptyString => [REPLACEMENT]
        end
      else REPLACEMENT :: utf8_decode r0
  end.

(** [String.prototype.toWellFormed]: every lone surrogate becomes U+FFFD. *)
Fixpoint toWellFormed (s : jsstring) : jsstring :=
  match s with
  | [] => []
  | u :: r =>
      if is_high u then
        match r with
        | l :: r' =>
            if is_low l then u :: l :: toWellFormed r'
            else REPLACEMENT :: toWellFormed r
        | [] => [REPLACEMENT]
        end
      else if is_low u then REPLACEMENT :: toWellFormed r
      else u :: toWellFormed r
  end.

(** [String.prototype.isWellFormed]: no lone surrogate. *)
Fixpoint isWellFormed (s : jsstring) : bool :=
  match s with
  | [] => true
  | u :: r =>
      if is_high u then
        match r with
        | l :: r' => is_low l && isWellFormed r'
        | [] => false
        end
      else negb (is_low u) && isWellFormed r
  end.

End Text.

(** ** Node's [fs] module over a model of a POSIX file tree

    The module is the one of the current releases of Node (10 and later)
    on Linux.  The tree holds regular files, directories, symbolic links
    and special entries (FIFOs, sockets, devices).  The process owns every
    entry, belongs to its group and is not privileged.  Of the permission
    bits the model reads the owner's read bit, which [fs.access] tests
    with [R_OK], and the owner's write bit of a regular file whose content
    is replaced; that the process may search every directory and change
    its entries is taken for granted.  A path is looked up by its segments
    from the root; a symbolic link is followed only as the last component
    of a path, so a path that runs through a linked directory is outside
    what is stated here.  A file holds bytes, the characters of a
    [string]. *)
Module Fs.

(** The [code] of the error a native call fails with: the system's, or
    Node's own [ERR_OUT_OF_RANGE] for an argument it refuses. *)
Inductive errno :=
| ENOENT | EACCES | EEXIST | ENOTDIR | EISDIR | ENOTEMPTY | ELOOP | EBUSY
| EINVAL | ENXIO | ERR_OUT_OF_RANGE.

Inductive node :=
| File (mode : N) (data : string)
| Dir (mode : N) (entries : list (string * node))
| Link (target : string)
| Special (mode : N).

Definition entries := list (string * node).

(** What a native call hands to its callback. *)
Inductive nres (A : Type) :=
| NOk (a : A)
| NErr (e : errno).
Arguments NOk {A} a.
Arguments NErr {A} e.

(** A recorded native call: the function and its path arguments. *)
Record call := Call { fn : string; paths : list string }.

(** The process as the driver sees it: the file tree, the working
    directory, the file mode creation mask, the choices by which the
    thread pool will order calls that are in flight together, and the
    native calls made so far, in the order the driver made them. *)
Record world := World {
  root : node;
  cwd : string;
  umask : N;
  pool : list nat;
  calls : list call
}.

Definition log (c : call) (w : world) : world :=
  World (root w) (cwd w) (umask w) (pool w) (calls w ++ [c]).

Definition set_root (r : node) (w : world) : world :=
  World r (cwd w) (umask w) (pool w) (calls w).

(** The pool has made [n] of its choices. *)
Definition drain (n : nat) (w : world) : world :=
  World (root w) (cwd w) (umask w) (skipn n (pool w)) (calls w).

Fixpoint remove_at {A} (i : nat) (xs : list A) : list A :=
  match xs with
  | [] => []
  | x :: r => match i with O => r | S j => x :: remove_at j r end
  end.

Fixpoint arrange_from {A} (n : nat) (choices : list nat) (xs : list A) : list A :=
  match n with
  | O => []
  | S n' =>
      match xs with
      | [] => []
      | x0 :: _ =>
          let i := Nat.modulo (hd O choices) (length xs) in
          nth i xs x0 :: arrange_from n' (tl choices) (remove_at i xs)
      end
  end.

(** The order in which calls started together are served: each choice
    picks one of those still waiting, so that any order may come out.
    With no choice left they are served in the order they were started. *)
Definition arrange {A} (choices : list nat) (xs : list A) : list A :=
  arrange_from (length xs) choices xs.

(** The owner's read bit, [0o400]. *)
Definition mode_readable (m : N) : bool := N.testbit m 8.

(** The owner's write bit, [0o200]. *)
Definition mode_writable (m : N) : bool := N.testbit m 7.

(** Node accepts as a mode an unsigned 32-bit integer and throws a
    [RangeError] with the code [ERR_OUT_OF_RANGE] on any other number. *)
Definition valid_mode (mode : N) : bool := (mode <? 4294967296)%N.

(** The permission bits the mask lets through. *)
Definition unmasked (w : world) (mode : N) : N :=
  N.ldiff mode (N.land (umask w) 511).

Definition readable (n : node) : bool :=
  match n with
  | File m _ | Dir m _ | Special m => mode_readable m
  | Link _ => true
  end.

Fixpoint assoc (s : string) (es : entries) : option node :=
  match es with
  | [] => None
  | (k, n) :: r => if k =? s then Some n else assoc s r
  end.

Definition alter_entry (s : string) (g : node -> node) (es : entries) : entries :=
  map (fun e => if fst e =? s then (fst e, g (snd e)) else e) es.

Definition remove_entry (s : string) (es : entries) : entries :=
  filter (fun e => negb (fst e =? s)) es.

Definition add_entry (s : string) (n : node) (es : entries) : entries :=
  (es ++ [(s, n)])%list.

(** Lookup by segments, following no link. *)
Fixpoint walk (n : node) (at_ : list string) : option node :=
  match at_ with
  | [] => Some n
  | s :: rest =>
      match n with
      | Dir _ es =>
          match assoc s es with
          | Some c => walk c rest
          | None => None
          end
      | _ => None
      end
  end.

(** Rewrite the entries of the directory at [at_]. *)
Fixpoint upd_dir (at_ : list string) (f : entries -> entries) (n : node) : node :=
  match n with
  | Dir m es =>
      match at_ with
      | [] => Dir m (f es)
      | s :: rest => Dir m (alter_entry s (upd_dir rest f) es)
      end
  | _ => n
  end.

Definition tree_remove (at_ : list string) (r : node) : node :=
  match at_ with
  | [] => r
  | _ :: _ => upd_dir (removelast at_) (remove_entry (last at_ EmptyString)) r
  end.

Definition tree_replace (at_ : list string) (n : node) (r : node) : node :=
  match at_ with
  | [] => n
  | _ :: _ => upd_dir (removelast at_) (alter_entry (last at_ EmptyString) (fun _ => n)) r
  end.

Definition tree_add (at_ : list string) (n : node) (r : node) : node :=
  match at_ with
  | [] => r
  | _ :: _ => upd_dir (removelast at_) (add_entry (last at_ EmptyString) n) r
  end.

(** The segments a path string denotes in the process. *)
Definition segs (w : world) (p : string) : list string :=
  Path.resolve_segs (cwd w) p.

(** The segments a link's target denotes, from the link's directory. *)
Definition link_segs (dir : list string) (target : string) : list string :=
  if Path.isAbsolute target then Path.norm_segs false (Path.split target)
  else Path.norm_segs false (dir ++ Path.split target).

Inductive followed :=
| Found (at_ : list string) (n : node)
| Missing (at_ : list string)
| Loop.

(** Lookup that follows a link in the last component, [fuel] links deep. *)
Fixpoint follow (fuel : nat) (r : node) (at_ : list string) : followed :=
  match walk r at_ with
  | None => Missing at_
  | Some (Link t) =>
      match fuel with
      | O => Loop
      | S k => follow k r (link_segs (removelast at_) t)
      end
  | Some n => Found at_ n
  end.

(** The kernel gives up after 40 links. *)
Definition MAXSYMLINKS : nat := 40.

Definition lookup (w : world) (p : string) : followed :=
  follow MAXSYMLINKS (root w) (segs w p).

(** What [fs.Stats] answers to [isFile()], [isDirectory()] and
    [isSymbolicLink()]. *)
Record Stats := mkStats { stat_node : node }.

Definition stats_isFile (s : Stats) : bool :=
  match stat_node s with File _ _ => true | _ => false end.
Definition stats_isDirectory (s : Stats) : bool :=
  match stat_node s with Dir _ _ => true | _ => false end.
Definition stats_isSymbolicLink (s : Stats) : bool :=
  match stat_node s with Link _ => true | _ => false end.

(** [fs.access(path, fs.constants.R_OK, cb)]: the error handed to [cb]. *)
Definition access_R_OK (p : string) (w : world) : option errno * world :=
  let w' := log (Call "access" [p]) w in
  match lookup w p with
  | Found _ n => (if readable n then None else Some EACCES, w')
  | Missing _ => (Some ENOENT, w')
  | Loop => (Some ELOOP, w')
  end.

(** [fs.lstat(path, cb)]: the link itself is examined. *)
Definition lstat (p : string) (w : world) : nres Stats * world :=
  let w' := log (Call "lstat" [p]) w in
  match walk (root w) (segs w p) with
  | Some n => (NOk (mkStats n), w')
  | None => (NErr ENOENT, w')
  end.

(** [fs.readFile(path, 'utf8', cb)]: the bytes, decoded. *)
Definition readFile (p : string) (w : world) : nres Text.jsstring * world :=
  let w' := log (Call "readFile" [p]) w in
  match lookup w p with
  | Found _ (File m d) =>
      (if mode_readable m then NOk (Text.utf8_decode d) else NErr EACCES, w')
  | Found _ (Dir _ _) => (NErr EISDIR, w')
  | Found _ _ => (NErr ENXIO, w')
  | Missing _ => (NErr ENOENT, w')
  | Loop => (NErr ELOOP, w')
  end.

(** Create a regular file at [at_] with the mode [m] and the bytes [d]. *)
Definition create_file (at_ : list string) (m : N) (d : string) (w : world)
  : nres unit * world :=
  match at_ with
  | [] => (NErr EISDIR, w)
  | _ :: _ =>
      match walk (root w) (removelast at_) with
      | Some (Dir _ _) => (NOk tt, set_root (tree_add at_ (File m d) (root w)) w)
      | Some _ => (NErr ENOTDIR, w)
      | None => (NErr ENOENT, w)
      end
  end.

(** What is left of the mode [0o666] a new file is opened with. *)
Definition new_file_mode (w : world) : N := unmasked w 438.

(** Store [g old] in the file [p] denotes, creating it when absent. *)
Definition store (name : string) (g : string -> string) (p : string) (w : world)
  : nres unit * world :=
  let w' := log (Call name [p]) w in
  match lookup w p with
  | Found at_ (File m old) =>
      if mode_writable m then
        (NOk tt, set_root (tree_replace at_ (File m (g old)) (root w)) w')
      else (NErr EACCES, w')
  | Found _ (Dir _ _) => (NErr EISDIR, w')
  | Found _ _ => (NErr ENXIO, w')
  | Missing at_ => create_file at_ (new_file_mode w) (g EmptyString) w'
  | Loop => (NErr ELOOP, w')
  end.

(** [fs.writeFile(path, data, 'utf8', cb)]: truncate and write the
    encoded text. *)
Definition writeFile (p : string) (data : Text.jsstring)
  : world -> nres unit * world :=
  store "writeFile" (fun _ => Text.utf8_encode data) p.

(** [fs.appendFile(path, data, 'utf8', cb)]. *)
Definition appendFile (p : string) (data : Text.jsstring)
  : world -> nres unit * world :=
  store "appendFile" (fun old => old ++ Text.utf8_encode data) p.

Definition unlink (p : string) (w : world) : nres unit * world :=
  let w' := log (Call "unlink" [p]) w in
  match walk (root w) (segs w p) with
  | None => (NErr ENOENT, w')
  | Some (Dir _ _) => (NErr EISDIR, w')
  | Some _ => (NOk tt, set_root (tree_remove (segs w p) (root w)) w')
  end.

Definition rmdir (p : string) (w : world) : nres unit * world :=
  let w' := log (Call "rmdir" [p]) w in
  match walk (root w) (segs w p) with
  | None => (NErr ENOENT, w')
  | Some (Dir _ []) =>
      match segs w p with
      | [] => (NErr EBUSY, w')
      | _ :: _ => (NOk tt, set_root (tree_remove (segs w p) (root w)) w')
      end
  | Some (Dir _ (_ :: _)) => (NErr ENOTEMPTY, w')
  | Some _ => (NErr ENOTDIR, w')
  end.

(** The mode of a directory made with [mode] in a directory of the mode
    [pm]: the permission bits the mask lets through and the sticky bit,
    and the set-group-ID bit of the parent. *)
Definition new_dir_mode (w : world) (pm mode : N) : N :=
  N.lor (N.land (unmasked w mode) 1023) (N.land pm 1024).

(** [fs.mkdir(path, mode, cb)] up to its return: the mode is checked and
    the call is made, to be served by the pool. *)
Definition mkdir_begin (p : string) (mode : N) (w : world) : nres unit * world :=
  let w' := log (Call "mkdir" [p]) w in
  if valid_mode mode then (NOk tt, w') else (NErr ERR_OUT_OF_RANGE, w').

(** The call as the pool serves it. *)
Definition mkdir_serve (p : string) (mode : N) (w : world) : nres unit * world :=
  match walk (root w) (segs w p) with
  | Some _ => (NErr EEXIST, w)
  | None =>
      match walk (root w) (removelast (segs w p)) with
      | Some (Dir pm _) =>
          (NOk tt,
           set_root (tree_add (segs w p) (Dir (new_dir_mode w pm mode) []) (root w)) w)
      | Some _ => (NErr ENOTDIR, w)
      | None => (NErr ENOENT, w)
      end
  end.

(** [fs.mkdir(path, mode, cb)] with nothing else in flight. *)
Definition mkdir (p : string) (mode : N) (w : world) : nres unit * world :=
  match mkdir_begin p mode w with
  | (NOk _, w') => mkdir_serve p mode w'
  | failed => failed
  end.

(** [fs.readdir(path, cb)]: the names, in directory order. *)
Definition readdir (p : string) (w : world) : nres (list string) * world :=
  let w' := log (Call "readdir" [p]) w in
  match lookup w p with
  | Found _ (Dir m es) =>
      (if mode_readable m then NOk (map fst es) else NErr EACCES, w')
  | Found _ _ => (NErr ENOTDIR, w')
  | Missing _ => (NErr ENOENT, w')
  | Loop => (NErr ELOOP, w')
  end.

Definition set_mode (mode : N) (n : node) : node :=
  match n with
  | File _ d => File mode d
  | Dir _ es => Dir mode es
  | Special _ => Special mode
  | Link t => Link t
  end.

(** [fs.chmod(path, mode, cb)]: the system keeps the twelve mode bits. *)
Definition chmod (p : string) (mode : N) (w : world) : nres unit * world :=
  let w' := log (Call "chmod" [p]) w in
  if valid_mode mode then
    match lookup w p with
    | Found at_ n =>
        (NOk tt,
         set_root (tree_replace at_ (set_mode (N.land mode 4095) n) (root w)) w')
    | Missing _ => (NErr ENOENT, w')
    | Loop => (NErr ELOOP, w')
    end
  else (NErr ERR_OUT_OF_RANGE, w').

(** [fs.copyFile(src, dest, cb)]: the source is read and stored at the
    destination, which is created or overwritten and is given the mode
    of the source. *)
Definition copyFile (src dest : string) (w : world) : nres unit * world :=
  let w' := log (Call "copyFile" [src; dest]) w in
  match lookup w src with
  | Found _ (File m d) =>
      if mode_readable m then
        match lookup w dest with
        | Found at_ (File m' _) =>
            if mode_writable m' then
              (NOk tt,
               set_root (tree_replace at_ (File m d) (root w)) w')
            else (NErr EACCES, w')
        | Found _ (Dir _ _) => (NErr EISDIR, w')
        | Found _ _ => (NErr ENXIO, w')
        | Missing at_ => create_file at_ m d w'
        | Loop => (NErr ELOOP, w')
        end
      else (NErr EACCES, w')
  | Found _ (Dir _ _) => (NErr EISDIR, w')
  | Found _ _ => (NErr ENXIO, w')
  | Missing _ => (NErr ENOENT, w')
  | Loop => (NErr ELOOP, w')
  end.

Fixpoint is_prefix (a b : list string) : bool :=
  match a, b with
  | [], _ => true
  | x :: a', y :: b' => (x =? y) && is_prefix a' b'
  | _ :: _, [] => false
  end.

(** [fs.rename(oldPath, newPath, cb)]. *)
Definition rename (oldp newp : string) (w : world) : nres unit * world :=
  let w' := log (Call "rename" [oldp; newp]) w in
  let o := segs w oldp in
  let n := segs w newp in
  let move (x : node) :=
    (NOk tt, set_root (tree_add n x (tree_remove n (tree_remove o (root w)))) w') in
  match walk (root w) o with
  | None => (NErr ENOENT, w')
  | Some x =>
      if is_prefix o n then
        (if is_prefix n o then NOk tt else NErr EINVAL, w')
      else
        match walk (root w) n with
        | Some y =>
            match x, y with
            | Dir _ _, Dir _ [] => move x
            | Dir _ _, Dir _ (_ :: _) => (NErr ENOTEMPTY, w')
            | Dir _ _, _ => (NErr ENOTDIR, w')
            | _, Dir _ _ => (NErr EISDIR, w')
            | _, _ => move x
            end
        | None =>
            match walk (root w) (removelast n) with
            | Some (Dir _ _) => move x
            | Some _ => (NErr ENOTDIR, w')
            | None => (NErr ENOENT, w')
            end
        end
  end.

End Fs.

(** ** Modules, error classes and promises *)
Module Js.

(** Where the package is installed. *)
Definition package_dir : string := "/node_modules/@sapphirejs/filesystem".

Definition ends_with (suffix s : string) : bool :=
  let n := String.length s in
  let k := String.length suffix in
  Nat.leb k n && (substring (n - k) k s =? suffix).

(** [require(request)] from a file in [dir]: the file the request names,
    with [.js] supplied when the request leaves it out.  A module is
    identified by its file: requiring one file twice gives one module. *)
Definition require (dir request : string) : string :=
  let f := Path.resolve dir request in
  if ends_with ".js" f then f else f ++ ".js".

(** Modelled from the spec: [lib/errors/file-doesnt-exist.js],
    [lib/errors/file-exists.js] and [lib/errors/invalid-path.js] are not
    among the sources.  Each is taken to define and export one error class
    of its own, the failure kinds NotFound, AlreadyExists and InvalidPath
    in that order; a class is identified by the file that defines it. *)
Record class := Class { defined_in : string }.

Definition class_eqb (a b : class) : bool := defined_in a =? defined_in b.

(** What a rejected promise carries: an instance of one of the package's
    error classes (built for a path), the error of a native call as the
    call hands it to its callback or throws it, or a [TypeError] of the
    language. *)
Inductive error :=
| Raised (c : class) (path : string)
| Native (e : Fs.errno)
| TypeError.

(** [e instanceof c]. *)
Definition instanceof (e : error) (c : class) : bool :=
  match e with
  | Raised c' _ => class_eqb c' c
  | _ => false
  end.

Inductive value :=
| VUndefined
| VBool (b : bool)
| VString (s : Text.jsstring)
| VArray (l : list string).

(** The state of a promise.  [Pending] also stands for a call whose
    recursion budget in the model is spent. *)
Inductive outcome (A : Type) :=
| Fulfilled (a : A)
| Rejected (e : error)
| Pending.
Arguments Fulfilled {A} a.
Arguments Rejected {A} e.
Arguments Pending {A}.

(** A promise settles once: [resolve] and [reject] on a settled promise
    do nothing. *)
Definition settle {A} (o : outcome A) (p : outcome A) : outcome A :=
  match p with
  | Pending => o
  | _ => p
  end.
Definition resolve {A} (a : A) : outcome A -> outcome A := settle (Fulfilled a).
Definition reject {A} (e : error) : outcome A -> outcome A := settle (Rejected e).

(** An asynchronous computation of the driver: run to its settlement, it
    gives the promise's state and the process afterwards. *)
Definition Async (A : Type) : Type := Fs.world -> outcome A * Fs.world.

Definition ret {A} (a : A) : Async A := fun w => (Fulfilled a, w).
Definition throw {A} (e : error) : Async A := fun w => (Rejected e, w).

(** [await]: a rejection leaves the function at once. *)
Definition bind {A B} (m : Async A) (k : A -> Async B) : Async B :=
  fun w =>
    match m w with
    | (Fulfilled a, w') => k a w'
    | (Rejected e, w') => (Rejected e, w')
    | (Pending, w') => (Pending, w')
    end.

Definition fmap {A B} (f : A -> B) (m : Async A) : Async B :=
  bind m (fun a => ret (f a)).

(** [util.promisify(native)(args)]. *)
Definition promisify {A} (native : Fs.world -> Fs.nres A * Fs.world) : Async A :=
  fun w =>
    match native w with
    | (Fs.NOk a, w') => (Fulfilled a, w')
    | (Fs.NErr e, w') => (Rejected (Native e), w')
    end.

(** [!await a && !await b] and [await a || await b], left to right. *)
Definition neither (a b : Async bool) : Async bool :=
  bind a (fun x => if negb x then fmap negb b else ret false).
Definition either (a b : Async bool) : Async bool :=
  bind a (fun x => if x then ret true else b).

(** [for (const x of xs) await body(x)]. *)
Fixpoint for_of {A} (xs : list A) (body : A -> Async unit) : Async unit :=
  match xs with
  | [] => ret tt
  | x :: r => bind (body x) (fun _ => for_of r body)
  end.

End Js.

Declare Scope async_scope.
Delimit Scope async_scope with async.
Notation "x <- m ;; k" := (Js.bind m (fun x => k))
  (at level 61, m at next level, right associativity) : async_scope.
Notation "m ;;; k" := (Js.bind m (fun _ => k))
  (at level 61, right associativity) : async_scope.

(** ** [lib/drivers/local.js] *)
Module Local.
Import Js.
Open Scope async_scope.

Definition __dirname : string := package_dir ++ "/lib/drivers".

Definition FileDoesntExist : class := Class (require __dirname "../errors/file-doesnt-exist").
Definition FileExists : class := Class (require __dirname "../errors/file-exists").
Definition InvalidPath : class := Class (require __dirname "../errors/invalid-path").

(** [_resolve(path)]: [fsPath.resolve(path)], against the working
    directory of the process and nothing else. *)
Definition _resolve (path : string) : Async string :=
  fun w => (Fulfilled (Path.resolve (Fs.cwd w) path), w).

Definition exists_ (path : string) : Async bool :=
  p <- _resolve path ;;
  fun w =>
    let '(err, w') := Fs.access_R_OK p w in
    let pr := Pending in
    let pr := match err with Some _ => resolve false pr | None => pr end in
    let pr := resolve true pr in
    (pr, w').

(** The body shared by the three kind checks: [fs.lstat] and one
    question to the [Stats].  On an error the callback rejects, and the
    question then put to the missing [Stats] throws inside the callback,
    after the promise is settled. *)
Definition lstat_check (question : Fs.Stats -> bool) (path : string) : Async bool :=
  p <- _resolve path ;;
  fun w =>
    let '(r, w') := Fs.lstat p w in
    match r with
    | Fs.NErr err => (reject (Native err) Pending, w')
    | Fs.NOk stats =>
        let pr := Pending in
        let pr := if question stats then resolve true pr else pr in
        let pr := resolve false pr in
        (pr, w')
    end.

Definition isDirectory (path : string) : Async bool :=
  e <- exists_ path ;;
  if negb e then throw (Raised FileDoesntExist path)
  else lstat_check Fs.stats_isDirectory path.

Definition isFile (path : string) : Async bool :=
  e <- exists_ path ;;
  if negb e then throw (Raised FileDoesntExist path)
  else lstat_check Fs.stats_isFile path.

Definition isSymbolicLink (path : string) : Async bool :=
  e <- exists_ path ;;
  if negb e then throw (Raised FileDoesntExist path)
  else lstat_check Fs.stats_isSymbolicLink path.

Definition read (path : string) : Async Text.jsstring :=
  e <- exists_ path ;;
  if negb e then throw (Raised FileDoesntExist path)
  else
    bad <- neither (isFile path) (isSymbolicLink path) ;;
    if bad then throw (Raised InvalidPath path)
    else p <- _resolve path ;; promisify (Fs.readFile p).

Definition write (path : string) (data : Text.jsstring) : Async unit :=
  f <- isFile path ;;
  if negb f then throw (Raised InvalidPath path)
  else p <- _resolve path ;; promisify (Fs.writeFile p data).

Definition delete (path : string) : Async unit :=
  e <- exists_ path ;;
  if negb e then throw (Raised FileDoesntExist path)
  else
    leaf <- either (isFile path) (isSymbolicLink path) ;;
    if leaf then p <- _resolve path ;; promisify (Fs.unlink p)
    else
      d <- isDirectory path ;;
      if d then p <- _resolve path ;; promisify (Fs.rmdir p)
      else throw (Raised InvalidPath path).

Definition readDir (path : string) : Async (list string) :=
  e <- exists_ path ;;
  if negb e then throw (Raised FileDoesntExist path)
  else p <- _resolve path ;; promisify (Fs.readdir p).

(** [deleteAll] calls itself on every entry that is not a regular file;
    [fuel] bounds the depth of these calls. *)
Fixpoint deleteAll (fuel : nat) (path : string) : Async unit :=
  match fuel with
  | O => fun w => (Pending, w)
  | S k =>
      files <- readDir path ;;
      for_of files (fun file =>
        let curr := Path.join [path; file] in
        f <- isFile curr ;;
        if f then delete curr else deleteAll k curr) ;;;
      delete path
  end.

Definition append (path : string) (data : Text.jsstring) : Async unit :=
  p <- _resolve path ;; promisify (Fs.appendFile p data).

Definition chmod (path : string) (mode : N) : Async unit :=
  e <- exists_ path ;;
  if negb e then throw (Raised FileDoesntExist path)
  else p <- _resolve path ;; promisify (Fs.chmod p mode).

Definition default {A} (d : A) (arg : option A) : A :=
  match arg with Some a => a | None => d end.

Definition copy (source destination : string) (overwrite : option bool) : Async unit :=
  let overwrite := default true overwrite in
  e <- exists_ source ;;
  if negb e then throw (Raised FileDoesntExist source)
  else
    clash <- (if negb overwrite then exists_ destination else ret false) ;;
    if clash then throw (Raised FileExists destination)
    else
      s <- _resolve source ;;
      d <- _resolve destination ;;
      promisify (Fs.copyFile s d).

(** The [reduce] of the recursive branch: from [''], every segment is
    joined to the directory before it, and [fs.mkdir] is called on each
    result. *)
Definition mkdir_targets (segments : list string) : list string :=
  snd (fold_left
         (fun (acc : string * list string) current =>
            let dir := Path.join [fst acc; current] in
            (dir, (snd acc ++ [dir])%list))
         segments (EmptyString, [])).

(** The [fs.mkdir] calls of the [reduce], each up to its return: the
    first that throws ends the executor.  All get the same mode, so
    that it is the first call that throws, or none. *)
Fixpoint mkdir_all (mode : N) (dirs : list string) (w : Fs.world)
  : Fs.nres unit * Fs.world :=
  match dirs with
  | [] => (Fs.NOk tt, w)
  | dir :: rest =>
      match Fs.mkdir_begin dir mode w with
      | (Fs.NOk _, w') => mkdir_all mode rest w'
      | thrown => thrown
      end
  end.

(** The callback of one [fs.mkdir] of the recursive branch, run when the
    pool has served the call. *)
Definition mkdir_quietly (mode : N) (st : outcome value * Fs.world) (dir : string)
  : outcome value * Fs.world :=
  let '(r, w') := Fs.mkdir_serve dir mode (snd st) in
  match r with
  | Fs.NErr Fs.EEXIST => (fst st, w')
  | Fs.NErr err => (reject (Native err) (fst st), w')
  | Fs.NOk _ => (fst st, w')
  end.

(** In the recursive branch the executor makes every [fs.mkdir] call and
    then calls [resolve(true)], unless a call throws, which rejects the
    promise.  The calls are in flight together: the pool serves them in
    an order of its choice, and each callback runs after the promise is
    settled.  The process returned is the one in which all of them have
    been served. *)
Definition createDir (path : string) (mode : option N) (recursively : option bool)
  : Async value :=
  let mode := default 511%N mode in
  let recursively := default false recursively in
  if recursively then
    fun w =>
      let dirs :=
        mkdir_targets
          (Path.split (Path.join [Path.dirname path; Path.basename path])) in
      match mkdir_all mode dirs w with
      | (Fs.NErr err, w') => (reject (Native err) Pending, w')
      | (Fs.NOk _, w') =>
          let pr := resolve (VBool true) Pending in
          fold_left (mkdir_quietly mode) (Fs.arrange (Fs.pool w') dirs)
            (pr, Fs.drain (length dirs) w')
      end
  else
    e <- exists_ path ;;
    if e then throw (Raised FileExists path)
    else fmap (fun _ => VUndefined) (p <- _resolve path ;; promisify (Fs.mkdir p mode)).

Definition rename (oldPath newPath : string) : Async unit :=
  e <- exists_ oldPath ;;
  if negb e then throw (Raised FileDoesntExist oldPath)
  else
    clash <- exists_ newPath ;;
    if clash then throw (Raised FileExists newPath)
    else
      o <- _resolve oldPath ;;
      n <- _resolve newPath ;;
      promisify (Fs.rename o n).

End Local.

(** ** [lib/filesystem.js]: the facade *)
Module Filesystem.

Section Facade.

(** What a driver's method returns: a promise, for a well-behaved
    driver.  The facade hands it back untouched. *)
Variable R : Type.

(** A driver: an object with the thirteen methods the facade calls. *)
Record Driver := {
  d_read : string -> R;
  d_write : string -> Text.jsstring -> R;
  d_exists : string -> R;
  d_isDirectory : string -> R;
  d_isFile : string -> R;
  d_isSymbolicLink : string -> R;
  d_delete : string -> R;
  d_append : string -> Text.jsstring -> R;
  d_chmod : string -> N -> R;
  d_copy : string -> string -> bool -> R;
  d_createDir : string -> N -> bool -> R;
  d_readDir : string -> R;
  d_rename : string -> string -> R
}.

(** What the fields of the facade hold: [null] or a driver. *)
Inductive ref :=
| Null
| Obj (d : Driver).

Definition truthy (r : ref) : bool :=
  match r with
  | Obj _ => true
  | Null => false
  end.

Record t := Make { _driver : ref; _tempDriver : ref }.

Definition constructor (driver : ref) : t :=
  {| _driver := driver; _tempDriver := Null |}.

(** A method call either returns or throws a [TypeError] (a method
    called on [null]). *)
Inductive completion :=
| Return (r : R)
| ThrowTypeError.

Definition call_method (driver : ref) (method : Driver -> R) : completion :=
  match driver with
  | Obj d => Return (method d)
  | Null => ThrowTypeError
  end.

(** [in(driver)]: returns [this], here the facade after the call. *)
Definition in_ (driver : ref) (this : t) : t :=
  {| _driver := _driver this; _tempDriver := driver |}.

(** [_resolveDriver()]: [this._tempDriver || this._driver], and the
    temporary driver is forgotten. *)
Definition _resolveDriver (this : t) : ref * t :=
  let driver := if truthy (_tempDriver this) then _tempDriver this else _driver this in
  (driver, {| _driver := _driver this; _tempDriver := Null |}).

Definition delegate (method : Driver -> R) (this : t) : completion * t :=
  let '(driver, this) := _resolveDriver this in
  (call_method driver method, this).

Definition default {A} (d : A) (arg : option A) : A :=
  match arg with Some a => a | None => d end.

Definition read (path : string) : t -> completion * t :=
  delegate (fun driver => d_read driver path).
Definition write (path : string) (data : Text.jsstring) : t -> completion * t :=
  delegate (fun driver => d_write driver path data).
Definition exists_ (path : string) : t -> completion * t :=
  delegate (fun driver => d_exists driver path).
Definition isDirectory (path : string) : t -> completion * t :=
  delegate (fun driver => d_isDirectory driver path).
Definition isFile (path : string) : t -> completion * t :=
  delegate (fun driver => d_isFile driver path).
Definition isSymbolicLink (path : string) : t -> completion * t :=
  delegate (fun driver => d_isSymbolicLink driver path).
Definition delete (path : string) : t -> completion * t :=
  delegate (fun driver => d_delete driver path).
Definition append (path : string) (data : Text.jsstring) : t -> completion * t :=
  delegate (fun driver => d_append driver path data).
Definition chmod (path : string) (mode : N) : t -> completion * t :=
  delegate (fun driver => d_chmod driver path mode).
Definition copy (source destination : string) (overwrite : option bool)
  : t -> completion * t :=
  let overwrite := default true overwrite in
  delegate (fun driver => d_copy driver source destination overwrite).
Definition createDir (path : string) (mode : option N) (recursively : option bool)
  : t -> completion * t :=
  let mode := default 511%N mode in
  let recursively := default false recursively in
  delegate (fun driver => d_createDir driver path mode recursively).
Definition readDir (path : string) : t -> completion * t :=
  delegate (fun driver => d_readDir driver path).
Definition rename (oldPath newPath : string) : t -> completion * t :=
  delegate (fun driver => d_rename driver oldPath newPath).

(** One call on the facade, by the method's name and arguments. *)
Inductive operation :=
| Read (path : string)
| Write (path : string) (data : Text.jsstring)
| Exists (path : string)
| IsDirectory (path : string)
| IsFile (path : string)
| IsSymbolicLink (path : string)
| Delete (path : string)
| Append (path : string) (data : Text.jsstring)
| Chmod (path : string) (mode : N)
| Copy (source destination : string) (overwrite : option bool)
| CreateDir (path : string) (mode : option N) (recursively : option bool)
| ReadDir (path : string)
| Rename (oldPath newPath : string).

Definition perform (op : operation) : t -> completion * t :=
  match op with
  | Read p => read p
  | Write p d => write p d
  | Exists p => exists_ p
  | IsDirectory p => isDirectory p
  | IsFile p => isFile p
  | IsSymbolicLink p => isSymbolicLink p
  | Delete p => delete p
  | Append p d => append p d
  | Chmod p m => chmod p m
  | Copy s d o => copy s d o
  | CreateDir p m r => createDir p m r
  | ReadDir p => readDir p
  | Rename o n => rename o n
  end.

(** The same operation executed against the driver [d]: the call the
    facade is to make on it. *)
Definition against (d : Driver) (op : operation) : R :=
  match op with
  | Read p => d_read d p
  | Write p x => d_write d p x
  | Exists p => d_exists d p
  | IsDirectory p => d_isDirectory d p
  | IsFile p => d_isFile d p
  | IsSymbolicLink p => d_isSymbolicLink d p
  | Delete p => d_delete d p
  | Append p x => d_append d p x
  | Chmod p m => d_chmod d p m
  | Copy s x o => d_copy d s x (default true o)
  | CreateDir p m r => d_createDir d p (default 511%N m) (default false r)
  | ReadDir p => d_readDir d p
  | Rename o n => d_rename d o n
  end.

(** Operations one after the other, each on the facade the one before
    left. *)
Fixpoint perform_all (ops : list operation) (this : t) : list completion * t :=
  match ops with
  | [] => ([], this)
  | op :: rest =>
      let '(c, this) := perform op this in
      let '(cs, this) := perform_all rest this in
      (c :: cs, this)
  end.

End Facade.

Arguments Null {R}.
Arguments Obj {R} d.
Arguments Return {R} r.
Arguments ThrowTypeError {R}.
Arguments constructor {R} driver.
Arguments in_ {R} driver this.
Arguments _resolveDriver {R} this.
Arguments perform {R} op this.
Arguments perform_all {R} ops this.
Arguments against {R} d op.
Arguments _driver {R} t.
Arguments _tempDriver {R} t.

End Filesystem.

(** ** [index.js]: the package entry point *)
Module Index.
Import Js.

Definition __dirname : string := package_dir.

Definition Filesystem : string := require __dirname "./lib/filesystem".
Definition Local : string := require __dirname "./lib/drivers/local".
Definition FileDoesntExist : class :=
  Class (require __dirname "./lib/errors/file-doesnt-exist.js").
Definition FileExists : class :=
  Class (require __dirname "./lib/errors/invalid-path.js").
Definition InvalidPath : class :=
  Class (require __dirname "./lib/errors/invalid-path.js").

(** [module.exports], the error classes of it. *)
Record exports := {
  x_FileDoesntExist : class;
  x_FileExists : class;
  x_InvalidPath : class
}.

Definition module_exports : exports :=
  {| x_FileDoesntExist := FileDoesntExist;
     x_FileExists := FileExists;
     x_InvalidPath := InvalidPath |}.

End Index.

(** The local driver as the facade takes it. *)
Definition local_driver : Filesystem.Driver (Js.Async Js.value) :=
  {| Filesystem.d_read := fun p => Js.fmap Js.VString (Local.read p);
     Filesystem.d_write := fun p d => Js.fmap (fun _ => Js.VUndefined) (Local.write p d);
     Filesystem.d_exists := fun p => Js.fmap Js.VBool (Local.exists_ p);
     Filesystem.d_isDirectory := fun p => Js.fmap Js.VBool (Local.isDirectory p);
     Filesystem.d_isFile := fun p => Js.fmap Js.VBool (Local.isFile p);
     Filesystem.d_isSymbolicLink := fun p => Js.fmap Js.VBool (Local.isSymbolicLink p);
     Filesystem.d_delete := fun p => Js.fmap (fun _ => Js.VUndefined) (Local.delete p);
     Filesystem.d_append := fun p d => Js.fmap (fun _ => Js.VUndefined) (Local.append p d);
     Filesystem.d_chmod := fun p m => Js.fmap (fun _ => Js.VUndefined) (Local.chmod p m);
     Filesystem.d_copy := fun s d o => Js.fmap (fun _ => Js.VUndefined) (Local.copy s d (Some o));
     Filesystem.d_createDir := fun p m r => Local.createDir p (Some m) (Some r);
     Filesystem.d_readDir := fun p => Js.fmap Js.VArray (Local.readDir p);
     Filesystem.d_rename := fun o n => Js.fmap (fun _ => Js.VUndefined) (Local.rename o n) |}.

(** ** What a process holds at a path *)
Module Obs.
Import Fs Js Local.

(** The entry a path names, the link itself when it names a link. *)
Definition entry (w : world) (p : string) : option node :=
  walk (root w) (segs w p).

(** The path leads to an entry the process may read: what [fs.access]
    with [R_OK] accepts. *)
Definition accessible (w : world) (p : string) : bool :=
  match lookup w p with
  | Found _ n => readable n
  | Missing _ | Loop => false
  end.

(** The same tree, working directory and mask; the record of calls may
    differ. *)
Definition same_fs (w w' : world) : Prop :=
  root w' = root w /\ cwd w' = cwd w /\ umask w' = umask w.

(** The shape the three kind checks share. *)
Definition kind_check (question : Stats -> bool) (path : string) : Async bool :=
  bind (exists_ path) (fun e =>
    if negb e then throw (Raised FileDoesntExist path)
    else lstat_check question path).

(** A native call on the resolved path, as every operation ends. *)
Definition native_tail {A} (native : string -> world -> nres A * world) (p : string)
  : Async A :=
  bind (_resolve p) (fun q => promisify (native q)).

(** A readable regular file or a readable empty directory. *)
Definition simple_entry (n : node) : bool :=
  match n with
  | File m _ => mode_readable m
  | Dir m [] => mode_readable m
  | _ => false
  end.

(** What [deleteAll] does for one name of the listing. *)
Definition delete_entry (k : nat) (path file : string) : Async unit :=
  let curr := Path.join [path; file] in
  bind (isFile curr) (fun f => if f then delete curr else deleteAll k curr).

(** The call was handed paths that [path.resolve] produced in the working
    directory [c]. *)
Definition resolved_call (c : string) (k : call) : Prop :=
  Forall (fun p => exists q, p = Path.resolve c q) (paths k).

(** Whatever the process, the computation adds only such calls to the
    record and leaves the working directory alone. *)
Definition passes_resolved {A} (m : Async A) : Prop :=
  forall w,
    exists cs,
      calls (snd (m w)) = (calls w ++ cs)%list
      /\ cwd (snd (m w)) = cwd w
      /\ Forall (resolved_call (cwd w)) cs.

(** A native function of one path records one call, with the path it was
    given, and never changes the working directory. *)
Definition records_path {A} (native : string -> world -> nres A * world) : Prop :=
  exists name,
    forall q w,
      calls (snd (native q w)) = (calls w ++ [Call name [q]])%list
      /\ cwd (snd (native q w)) = cwd w.

Inductive presence := Absent | Unreadable | Readable.

Definition presence_of (w : world) (p : string) : presence :=
  match lookup w p with
  | Found _ n => if readable n then Readable else Unreadable
  | Missing _ | Loop => Absent
  end.

(** [p] exists for the driver and is a regular file. *)
Definition regular_file (w : world) (p : string) : bool :=
  accessible w p &&
  match entry w p with
  | Some (File _ _) => true
  | _ => false
  end.

Definition home : world :=
  World
    (Dir 493
       [("home",
         Dir 493
           [("u",
             Dir 493
               [("d", Dir 493 [("f.txt", File 420 "hi"); ("sub", Dir 493 [])]);
                ("l", Link "d/f.txt");
                ("ld", Link "d");
                ("secret", File 0 "x")])])])
    "/home/u" 18 [] [].
End Obs.

(** ** Further notions for the operations the driver offers *)
Module Shapes.
Import Fs Js Local Obs.

(** [p] exists for the driver and is a regular file or a symbolic link:
    what [read] accepts. *)
Definition file_or_link (w : world) (p : string) : bool :=
  accessible w p &&
  match entry w p with
  | Some (File _ _) | Some (Link _) => true
  | _ => false
  end.

(** Two segment lists part ways at some position: neither leads to the
    other. *)
Fixpoint diverge (a b : list string) : bool :=
  match a, b with
  | x :: a', y :: b' => if x =? y then diverge a' b' else true
  | _, _ => false
  end.

(** The computation leaves the file tree, the working directory and the
    mask as they are, whatever the process. *)
Definition keeps_tree {A} (m : Async A) : Prop :=
  forall w, same_fs w (snd (m w)).


(** The two-path call that ends [rename]. *)
Definition rename_tail (oldPath newPath : string) : Async unit :=
  bind (_resolve oldPath) (fun o =>
    bind (_resolve newPath) (fun n => promisify (Fs.rename o n))).

(** What is done to a facade: [in(driver)] or an operation. *)
Inductive action (R : Type) :=
| In (driver : Filesystem.ref R)
| Do (op : Filesystem.operation).
Arguments In {R} driver.
Arguments Do {R} op.

(** Actions one after the other on a facade: what the operations among
    them returned, and the facade at the end. *)
Fixpoint run {R} (acts : list (action R)) (this : Filesystem.t R)
  : list (Filesystem.completion R) * Filesystem.t R :=
  match acts with
  | [] => ([], this)
  | In driver :: rest => run rest (Filesystem.in_ driver this)
  | Do op :: rest =>
      let '(c, this) := Filesystem.perform op this in
      let '(cs, this) := run rest this in
      (c :: cs, this)
  end.

(** The two-state machine: with an override pending the next operation
    is served by it and none is pending afterwards; with none pending it
    is served by the default.  An override that is [null] counts as
    none. *)
Fixpoint served {R} (default pending : Filesystem.ref R) (acts : list (action R))
  : list (Filesystem.completion R) :=
  match acts with
  | [] => []
  | In driver :: rest => served default driver rest
  | Do op :: rest =>
      Filesystem.call_method R
        (match pending with Filesystem.Obj _ => pending | Filesystem.Null => default end)
        (fun d => Filesystem.against d op)
      :: served default Filesystem.Null rest
  end.

End Shapes.

(** * Proofs *)

(** ** UTF-8 *)
Module TextFacts.
Import Text.
Open Scope N_scope.
#[local] Ltac Zify.zify_post_hook ::= Z.div_mod_to_equations.

Ltac settle_tests :=
  repeat match goal with
         | |- context [if ?b then _ else _] =>
             first [ replace b with true by lia | replace b with false by lia ]
         end.

Lemma decode_point c rest :
  c < 1114112 -> is_high c = false -> is_low c = false ->
  utf8_decode (bytes (encode_point c) ++ rest) = (units c ++ utf8_decode rest)%list.
Proof.
  unfold is_high, is_low, encode_point, units. intros Hc Hh Hl.
  destruct (c <? 128) eqn:E1; [|destruct (c <? 2048) eqn:E2; [|destruct (c <? 65536) eqn:E3]];
    cbn [bytes map string_of_list_ascii append utf8_decode].
  - rewrite !N_ascii_embedding by lia. settle_tests. reflexivity.
  - rewrite !N_ascii_embedding by lia. unfold continuation. settle_tests.
    cbn [app]. repeat f_equal; lia.
  - rewrite !N_ascii_embedding by lia. unfold continuation.
    destruct (224 + c / 4096 =? 224) eqn:Ea; destruct (224 + c / 4096 =? 237) eqn:Eb;
      try (exfalso; lia); settle_tests; cbn [app]; repeat f_equal; lia.
  - rewrite !N_ascii_embedding by lia. unfold continuation.
    replace ((240 + c / 262144 - 240) * 262144 + (128 + (c / 4096) mod 64 - 128) * 4096
             + (128 + (c / 64) mod 64 - 128) * 64 + (128 + c mod 64 - 128))
      with c by lia.
    destruct (240 + c / 262144 =? 240) eqn:Ea; destruct (240 + c / 262144 =? 244) eqn:Eb;
      try (exfalso; lia); settle_tests; unfold units; rewrite E3; reflexivity.
Qed.

Lemma decode_replacement rest :
  utf8_decode (bytes (encode_point REPLACEMENT) ++ rest) = REPLACEMENT :: utf8_decode rest.
Proof. apply (decode_point REPLACEMENT rest); reflexivity. Qed.

Lemma decode_pair u l rest :
  is_high u = true -> is_low l = true ->
  utf8_decode (bytes (encode_point (pair_point u l)) ++ rest) = u :: l :: utf8_decode rest.
Proof.
  unfold is_high, is_low. intros Hu Hl.
  rewrite decode_point; unfold pair_point, is_high, is_low, units; try lia.
  settle_tests. cbn [app]. repeat f_equal; lia.
Qed.

Lemma decode_encode_bounded n :
  forall s, (length s <= n)%nat -> is_jsstring s = true ->
    utf8_decode (utf8_encode s) = toWellFormed s.
Proof.
  induction n as [|n IH]; intros s Hn Hs.
  - destruct s; [reflexivity|simpl in Hn; lia].
  - destruct s as [|u r]; [reflexivity|].
    simpl in Hn, Hs. apply andb_prop in Hs as [Hu Hr].
    cbn [utf8_encode toWellFormed].
    destruct (is_high u) eqn:Eh.
    + destruct r as [|l r']; [apply (decode_replacement EmptyString)|].
      simpl in Hr. apply andb_prop in Hr as [Hl Hr'].
      destruct (is_low l) eqn:El.
      * rewrite decode_pair by assumption.
        rewrite IH; [reflexivity|simpl in Hn; lia|exact Hr'].
      * rewrite decode_replacement.
        rewrite IH; [reflexivity|simpl in Hn |- *; lia|].
        simpl. rewrite Hl, Hr'. reflexivity.
    + destruct (is_low u) eqn:El.
      * rewrite decode_replacement. rewrite IH; [reflexivity|lia|exact Hr].
      * rewrite decode_point by (try assumption; lia).
        unfold units. rewrite Hu. cbn [app].
        rewrite IH; [reflexivity|lia|exact Hr].
Qed.

(** Text written as UTF-8 and read back as UTF-8 comes back well formed:
    every lone surrogate has become U+FFFD, and nothing else has changed. *)
Lemma decode_encode s :
  is_jsstring s = true -> utf8_decode (utf8_encode s) = toWellFormed s.
Proof. apply (decode_encode_bounded (length s)). lia. Qed.

Lemma toWellFormed_bounded n :
  forall s, (length s <= n)%nat -> isWellFormed s = true -> toWellFormed s = s.
Proof.
  induction n as [|n IH]; intros s Hn Hs.
  - destruct s; [reflexivity|simpl in Hn; lia].
  - destruct s as [|u r]; [reflexivity|].
    cbn [toWellFormed isWellFormed] in *. simpl in Hn.
    destruct (is_high u).
    + destruct r as [|l r']; [discriminate|].
      apply andb_prop in Hs as [Hl Hr]. rewrite Hl.
      rewrite IH; [reflexivity|simpl in Hn; lia|exact Hr].
    + apply andb_prop in Hs as [Hl Hr]. apply negb_true_iff in Hl. rewrite Hl.
      rewrite IH; [reflexivity|lia|exact Hr].
Qed.

Lemma toWellFormed_id s : isWellFormed s = true -> toWellFormed s = s.
Proof. apply (toWellFormed_bounded (length s)). lia. Qed.

End TextFacts.

(** ** Facts about paths *)
Module PathFacts.
Import Path.

Lemma split_not_nil s : split s <> [].
Proof.
  destruct s as [|c r]; simpl; [discriminate|].
  destruct (Ascii.eqb c slash); [discriminate|].
  destruct (split r); discriminate.
Qed.

Lemma split_no_slash s : Forall (fun x => no_slash x = true) (split s).
Proof.
  induction s as [|c r IH]; simpl.
  - constructor; [reflexivity|constructor].
  - destruct (Ascii.eqb c slash) eqn:E.
    + constructor; [reflexivity|exact IH].
    + destruct (split r) as [|h t].
      * constructor; [simpl; rewrite E; reflexivity|constructor].
      * inversion IH; subst. constructor; [simpl; rewrite E; simpl; assumption|assumption].
Qed.

Lemma split_cons_slash r : split (String slash r) = EmptyString :: split r.
Proof. reflexivity. Qed.

Lemma split_app_slash x y :
  no_slash x = true -> split (x ++ String slash y) = x :: split y.
Proof.
  induction x as [|c r IH]; simpl; intros H.
  - reflexivity.
  - apply andb_prop in H as [Hc Hr].
    apply negb_true_iff in Hc. rewrite Hc, (IH Hr). reflexivity.
Qed.

Lemma split_single x : no_slash x = true -> split x = [x].
Proof.
  induction x as [|c r IH]; simpl; intros H; [reflexivity|].
  apply andb_prop in H as [Hc Hr].
  apply negb_true_iff in Hc. rewrite Hc, (IH Hr). reflexivity.
Qed.

Lemma split_join_sep l :
  l <> [] -> Forall (fun x => no_slash x = true) l -> split (join_sep l) = l.
Proof.
  induction l as [|x r IH]; intros Hne Hall; [congruence|].
  inversion Hall as [|? ? Hx Hr]; subst.
  destruct r as [|y r'].
  - simpl. apply split_single; assumption.
  - change (join_sep (x :: y :: r')) with (x ++ String slash (join_sep (y :: r'))).
    rewrite split_app_slash by assumption.
    rewrite IH; [reflexivity|discriminate|assumption].
Qed.

Lemma split_app x y : split (x ++ String slash y) = (split x ++ split y)%list.
Proof.
  induction x as [|c r IH]; simpl.
  - reflexivity.
  - destruct (Ascii.eqb c slash).
    + rewrite IH. reflexivity.
    + rewrite IH. destruct (split r) as [|h t] eqn:E.
      * exfalso. exact (split_not_nil r E).
      * reflexivity.
Qed.

Lemma plain_no_slash s : plain s = true -> no_slash s = true.
Proof.
  unfold plain. intros H.
  repeat (apply andb_prop in H as [H ?]). assumption.
Qed.

Lemma plain_not_empty s : plain s = true -> s <> EmptyString.
Proof.
  unfold plain. intros H Hs. subst s. discriminate.
Qed.

Lemma norm_step_plain b st s : plain s = true -> norm_step b st s = s :: st.
Proof.
  unfold plain, norm_step. intros H.
  repeat (apply andb_prop in H as [H ?]).
  repeat match goal with
         | X : negb _ = true |- _ => apply negb_true_iff in X; rewrite X
         end.
  reflexivity.
Qed.

Lemma norm_step_empty b st : norm_step b st EmptyString = st.
Proof. reflexivity. Qed.

Lemma norm_step_dotdot b st :
  norm_step b st ".."
  = match st with
    | top :: rest =>
        if top =? ".." then (if b then ".." :: st else st) else rest
    | [] => if b then [".."] else []
    end.
Proof. reflexivity. Qed.

Lemma fold_norm_plain b l :
  Forall (fun x => plain x = true) l ->
  forall st, fold_left (norm_step b) l st = (rev l ++ st)%list.
Proof.
  induction 1 as [|x r Hx Hr IH]; intros st; simpl; [reflexivity|].
  rewrite norm_step_plain by assumption.
  rewrite IH, <- app_assoc. reflexivity.
Qed.

Lemma norm_segs_snoc b l f :
  plain f = true -> norm_segs b (l ++ [f]) = (norm_segs b l ++ [f])%list.
Proof.
  intros Hf. unfold norm_segs.
  rewrite fold_left_app. simpl.
  rewrite norm_step_plain by assumption. reflexivity.
Qed.

Lemma norm_segs_snoc_empty b l : norm_segs b (l ++ [EmptyString]) = norm_segs b l.
Proof.
  unfold norm_segs. rewrite fold_left_app. reflexivity.
Qed.

Lemma norm_segs_cons_empty b l : norm_segs b (EmptyString :: l) = norm_segs b l.
Proof. reflexivity. Qed.

Lemma clean_false_plain s : clean false s = true -> plain s = true.
Proof.
  unfold clean. rewrite orb_false_r. trivial.
Qed.

Lemma norm_step_clean b st s :
  no_slash s = true ->
  Forall (fun x => clean b x = true) st ->
  Forall (fun x => clean b x = true) (norm_step b st s).
Proof.
  intros Hs Hst. unfold norm_step.
  destruct (s =? EmptyString) eqn:E1; simpl; [assumption|].
  destruct (s =? ".") eqn:E2; simpl; [assumption|].
  destruct (s =? "..") eqn:E3.
  - apply String.eqb_eq in E3. subst s.
    destruct st as [|top rest].
    + destruct b; constructor; [reflexivity|constructor].
    + inversion Hst; subst.
      destruct (top =? ".."); [destruct b|]; try assumption.
      constructor; [reflexivity|assumption].
  - constructor; [|assumption].
    unfold clean, plain. rewrite Hs, E1, E2, E3. reflexivity.
Qed.

Lemma fold_norm_clean b l :
  Forall (fun x => no_slash x = true) l ->
  forall st,
    Forall (fun x => clean b x = true) st ->
    Forall (fun x => clean b x = true) (fold_left (norm_step b) l st).
Proof.
  induction 1 as [|x r Hx Hr IH]; intros st Hst; simpl; [assumption|].
  apply IH. apply norm_step_clean; assumption.
Qed.

Lemma norm_segs_clean b l :
  Forall (fun x => no_slash x = true) l ->
  Forall (fun x => clean b x = true) (norm_segs b l).
Proof.
  intros H. unfold norm_segs. apply Forall_rev.
  apply fold_norm_clean; [assumption|constructor].
Qed.

Lemma resolve_segs_plain cwd p :
  Forall (fun x => plain x = true) (resolve_segs cwd p).
Proof.
  assert (H : Forall (fun x => clean false x = true) (resolve_segs cwd p)).
  { unfold resolve_segs. destruct (isAbsolute p); apply norm_segs_clean.
    - apply split_no_slash.
    - apply Forall_app; split; apply split_no_slash. }
  eapply Forall_impl; [|exact H]. apply clean_false_plain.
Qed.

(** Normalizing what is already normalized changes nothing. *)
Lemma norm_segs_plain b l :
  Forall (fun x => plain x = true) l -> norm_segs b l = l.
Proof.
  intros H. unfold norm_segs.
  rewrite fold_norm_plain by assumption.
  rewrite app_nil_r. apply rev_involutive.
Qed.

Lemma split_slash_join_sep l :
  Forall (fun x => plain x = true) l ->
  norm_segs false (split (String slash (join_sep l))) = l.
Proof.
  intros H. rewrite split_cons_slash.
  destruct l as [|x r].
  - reflexivity.
  - rewrite split_join_sep.
    + rewrite norm_segs_cons_empty.
      apply (norm_segs_plain false). assumption.
    + discriminate.
    + eapply Forall_impl; [|exact H]. apply plain_no_slash.
Qed.

(** The native layer finds at [path.resolve(p)] what it finds at [p]. *)
Lemma resolve_segs_resolve cwd p :
  resolve_segs cwd (resolve cwd p) = resolve_segs cwd p.
Proof.
  unfold resolve at 1.
  change ("/" ++ join_sep (resolve_segs cwd p))
    with (String slash (join_sep (resolve_segs cwd p))).
  unfold resolve_segs at 1. simpl isAbsolute. cbv iota.
  apply split_slash_join_sep. apply resolve_segs_plain.
Qed.

Lemma clean_no_slash b s : clean b s = true -> no_slash s = true.
Proof.
  unfold clean. intros H. apply orb_prop in H as [H|H].
  - apply plain_no_slash; assumption.
  - apply andb_prop in H as [_ H]. apply String.eqb_eq in H. subst. reflexivity.
Qed.

Lemma clean_not_dotdot b s : clean b s = true -> (s =? "..") = false -> plain s = true.
Proof.
  unfold clean. intros H E. rewrite E, andb_false_r, orb_false_r in H. exact H.
Qed.

(** Segments normalized with [allowAboveRoot] and then again from a
    directory give what normalizing them from that directory gives. *)
Lemma fold_norm_absorb l :
  Forall (fun x => no_slash x = true) l ->
  forall st,
    fold_left (norm_step false) (rev (fold_left (norm_step true) l [])) st
    = fold_left (norm_step false) l st.
Proof.
  induction l as [|x l IH] using rev_ind; intros Hl st; [reflexivity|].
  apply Forall_app in Hl as [Hl Hx]. inversion Hx as [|? ? Hx' _]; subst.
  rewrite !fold_left_app. simpl.
  rewrite <- (IH Hl st).
  assert (Hc : Forall (fun y => clean true y = true) (fold_left (norm_step true) l []))
    by (apply fold_norm_clean; [assumption|constructor]).
  set (T := fold_left (norm_step true) l []) in *.
  destruct (x =? EmptyString) eqn:E1; [apply String.eqb_eq in E1; subst x; reflexivity|].
  destruct (x =? ".") eqn:E2; [apply String.eqb_eq in E2; subst x; reflexivity|].
  destruct (x =? "..") eqn:E3.
  - apply String.eqb_eq in E3. subst x. rewrite !norm_step_dotdot.
    destruct T as [|top rest]; [reflexivity|].
    destruct (top =? "..") eqn:E4.
    + simpl rev. rewrite !fold_left_app. simpl.
      rewrite !norm_step_dotdot. reflexivity.
    + inversion Hc; subst.
      simpl rev. rewrite fold_left_app. simpl.
      rewrite (norm_step_plain false _ top) by (eapply clean_not_dotdot; eassumption).
      rewrite E4. reflexivity.
  - assert (Hp : plain x = true) by (unfold plain; rewrite Hx', E1, E2, E3; reflexivity).
    rewrite !norm_step_plain by assumption.
    simpl rev. rewrite fold_left_app. simpl.
    rewrite norm_step_plain by assumption. reflexivity.
Qed.

Lemma norm_segs_absorb a l :
  Forall (fun x => no_slash x = true) l ->
  norm_segs false (a ++ norm_segs true l) = norm_segs false (a ++ l).
Proof.
  intros H. unfold norm_segs. rewrite !fold_left_app.
  rewrite fold_norm_absorb by assumption. reflexivity.
Qed.

Lemma isAbsolute_no_slash s : no_slash s = true -> isAbsolute s = false.
Proof.
  destruct s as [|c r]; simpl; [reflexivity|].
  intros H. apply andb_prop in H as [H _]. apply negb_true_iff in H. exact H.
Qed.

Lemma isAbsolute_app x y : x <> EmptyString -> isAbsolute (x ++ y) = isAbsolute x.
Proof. destruct x; [congruence|reflexivity]. Qed.

Lemma ends_with_slash_no_slash s : no_slash s = true -> ends_with_slash s = false.
Proof.
  induction s as [|c r IH]; simpl; [reflexivity|].
  intros H. apply andb_prop in H as [Hc Hr]. apply negb_true_iff in Hc.
  destruct r; [assumption|apply IH; assumption].
Qed.

Lemma ends_with_slash_app x y : y <> EmptyString -> ends_with_slash (x ++ y) = ends_with_slash y.
Proof.
  intros Hy. induction x as [|c r IH]; simpl; [reflexivity|].
  destruct (r ++ y) eqn:E.
  - destruct r; simpl in E; [congruence|discriminate].
  - exact IH.
Qed.

Lemma append_not_empty x y : y <> EmptyString -> (x ++ y =? EmptyString) = false.
Proof.
  intros Hy. apply String.eqb_neq. destruct x; simpl; [assumption|discriminate].
Qed.

Lemma join_sep_snoc_not_empty l f : f <> EmptyString -> (join_sep (l ++ [f]) =? EmptyString) = false.
Proof.
  intros Hf. induction l as [|x r IH]; simpl.
  - apply String.eqb_neq. assumption.
  - destruct (r ++ [f])%list eqn:E.
    + destruct r; discriminate.
    + apply append_not_empty. discriminate.
Qed.

Lemma isAbsolute_join_sep b l f :
  Forall (fun x => clean b x = true) l -> plain f = true ->
  isAbsolute (join_sep (l ++ [f])) = false.
Proof.
  intros Hl Hf. destruct l as [|x r]; simpl.
  - apply isAbsolute_no_slash, plain_no_slash; assumption.
  - inversion Hl as [|? ? Hx _]; subst.
    assert (Hn : isAbsolute x = false)
      by (eapply isAbsolute_no_slash, clean_no_slash; eassumption).
    destruct (r ++ [f])%list; [assumption|].
    destruct x as [|c x']; [|exact Hn].
    destruct b; discriminate.
Qed.

(** [path.normalize] of a directory followed by an entry name. *)
Lemma normalize_entry dir f :
  dir <> EmptyString -> plain f = true ->
  normalize (dir ++ String slash f)
  = let l := (norm_segs (negb (isAbsolute dir)) (split dir) ++ [f])%list in
    if isAbsolute dir then String slash (join_sep l) else join_sep l.
Proof.
  intros Hd Hf. unfold normalize.
  rewrite append_not_empty by discriminate.
  rewrite isAbsolute_app by assumption.
  rewrite ends_with_slash_app by discriminate.
  assert (Hs : ends_with_slash (String slash f) = false).
  { change (String slash f) with ("/" ++ f).
    rewrite ends_with_slash_app by (apply plain_not_empty; assumption).
    apply ends_with_slash_no_slash, plain_no_slash; assumption. }
  rewrite Hs. unfold normalizeString.
  rewrite split_app, (split_single f) by (apply plain_no_slash; assumption).
  rewrite norm_segs_snoc by assumption.
  cbv zeta.
  rewrite join_sep_snoc_not_empty by (apply plain_not_empty; assumption).
  destruct (isAbsolute dir); reflexivity.
Qed.

(** The entry [f] of the directory [dir], as [deleteAll] names it, lies
    one segment below [dir]. *)
Lemma resolve_segs_join cwd dir f :
  plain f = true ->
  resolve_segs cwd (join [dir; f]) = (resolve_segs cwd dir ++ [f])%list.
Proof.
  intros Hf.
  assert (Hfn : (f =? EmptyString) = false) by (apply String.eqb_neq, plain_not_empty; assumption).
  assert (Hfa : isAbsolute f = false) by (apply isAbsolute_no_slash, plain_no_slash; assumption).
  unfold join. simpl filter. rewrite Hfn. simpl negb.
  destruct (dir =? EmptyString) eqn:Ed; simpl negb; cbv iota.
  - apply String.eqb_eq in Ed. subst dir.
    simpl join_sep. unfold normalize. rewrite Hfn, Hfa.
    rewrite ends_with_slash_no_slash by (apply plain_no_slash; assumption).
    unfold normalizeString.
    rewrite (split_single f) by (apply plain_no_slash; assumption).
    rewrite (norm_segs_plain _ [f]) by (constructor; [assumption|constructor]).
    simpl join_sep. rewrite Hfn. simpl.
    unfold resolve_segs. rewrite Hfa. simpl isAbsolute. cbv iota.
    rewrite (split_single f) by (apply plain_no_slash; assumption).
    rewrite norm_segs_snoc by assumption.
    change (split EmptyString) with [EmptyString]. rewrite norm_segs_snoc_empty. reflexivity.
  - apply String.eqb_neq in Ed.
    change (join_sep [dir; f]) with (dir ++ String slash f).
    rewrite normalize_entry by assumption. cbv zeta.
    unfold resolve_segs at 2.
    destruct (isAbsolute dir) eqn:Ea; simpl negb.
    + unfold resolve_segs. simpl isAbsolute. cbv iota.
      apply split_slash_join_sep.
      apply Forall_app; split; [|constructor; [assumption|constructor]].
      eapply Forall_impl; [apply clean_false_plain|].
      apply norm_segs_clean, split_no_slash.
    + assert (Hc : Forall (fun x => clean true x = true) (norm_segs true (split dir)))
        by apply norm_segs_clean, split_no_slash.
      unfold resolve_segs. rewrite (isAbsolute_join_sep true) by assumption.
      rewrite split_join_sep.
      * rewrite app_assoc, norm_segs_snoc by assumption.
        rewrite norm_segs_absorb by apply split_no_slash. reflexivity.
      * destruct (norm_segs true (split dir)); discriminate.
      * apply Forall_app; split.
        -- eapply Forall_impl; [apply clean_no_slash|exact Hc].
        -- constructor; [apply plain_no_slash; assumption|constructor].
Qed.

End PathFacts.

(** ** Facts about the file tree *)
Module FsFacts.
Import Fs.

Lemma walk_app r a b :
  walk r (a ++ b) = match walk r a with Some n => walk n b | None => None end.
Proof.
  revert r. induction a as [|s a IH]; intros r; simpl; [reflexivity|].
  destruct r as [| m es | |]; try reflexivity.
  destruct (assoc s es); [apply IH|reflexivity].
Qed.

Lemma assoc_alter_entry s g es :
  assoc s (alter_entry s g es) = option_map g (assoc s es).
Proof.
  induction es as [|[k n] es IH]; simpl; [reflexivity|].
  destruct (k =? s) eqn:E; simpl; rewrite E; [reflexivity|exact IH].
Qed.

Lemma assoc_remove_entry s es : assoc s (remove_entry s es) = None.
Proof.
  induction es as [|[k n] es IH]; simpl; [reflexivity|].
  destruct (k =? s) eqn:E; simpl; [exact IH|rewrite E; exact IH].
Qed.

Lemma assoc_remove_entry_other s s' es :
  s' <> s -> assoc s' (remove_entry s es) = assoc s' es.
Proof.
  intros Hne. induction es as [|[k n] es IH]; simpl; [reflexivity|].
  destruct (k =? s) eqn:E; simpl.
  - apply String.eqb_eq in E. subst k.
    destruct (s =? s') eqn:E'; [apply String.eqb_eq in E'; congruence|exact IH].
  - destruct (k =? s'); [reflexivity|exact IH].
Qed.

Lemma walk_upd_dir a f r :
  walk (upd_dir a f r) a
  = match walk r a with
    | Some (Dir m es) => Some (Dir m (f es))
    | other => other
    end.
Proof.
  revert r. induction a as [|s a IH]; intros r.
  - destruct r; reflexivity.
  - destruct r as [| m es | |]; try reflexivity.
    simpl. rewrite assoc_alter_entry.
    destruct (assoc s es) as [c|]; simpl; [apply IH|reflexivity].
Qed.

Lemma tree_remove_snoc a l r :
  tree_remove (a ++ [l]) r = upd_dir a (remove_entry l) r.
Proof.
  unfold tree_remove. rewrite removelast_last, last_last.
  destruct (a ++ [l])%list eqn:E; [destruct a; discriminate|reflexivity].
Qed.

Lemma tree_replace_snoc a l n r :
  tree_replace (a ++ [l]) n r = upd_dir a (alter_entry l (fun _ => n)) r.
Proof.
  unfold tree_replace. rewrite removelast_last, last_last.
  destruct (a ++ [l])%list eqn:E; [destruct a; discriminate|reflexivity].
Qed.

(** An entry is found in a directory. *)
Lemma walk_snoc r a l n :
  walk r (a ++ [l]) = Some n ->
  exists m es, walk r a = Some (Dir m es) /\ assoc l es = Some n.
Proof.
  rewrite walk_app. destruct (walk r a) as [p|]; [|discriminate].
  simpl. destruct p as [| m es | |]; try discriminate.
  destruct (assoc l es) as [c|] eqn:E; [|discriminate].
  intros H. injection H as ->. exists m, es. split; reflexivity || assumption.
Qed.

(** A removed entry is gone. *)
Lemma walk_tree_remove a l r : walk (tree_remove (a ++ [l]) r) (a ++ [l]) = None.
Proof.
  rewrite tree_remove_snoc, walk_app, walk_upd_dir.
  destruct (walk r a) as [p|]; [|reflexivity].
  destruct p; simpl; try reflexivity.
  rewrite assoc_remove_entry. reflexivity.
Qed.

(** Its directory has lost it and nothing else. *)
Lemma walk_tree_remove_parent a l r m es :
  walk r a = Some (Dir m es) ->
  walk (tree_remove (a ++ [l]) r) a = Some (Dir m (remove_entry l es)).
Proof.
  intros H. rewrite tree_remove_snoc, walk_upd_dir, H. reflexivity.
Qed.

(** Nothing is found below a missing entry. *)
Lemma walk_below_missing r a b : walk r a = None -> walk r (a ++ b) = None.
Proof. intros H. rewrite walk_app, H. reflexivity. Qed.

(** A replaced entry holds its new content. *)
Lemma walk_tree_replace at_ n r old :
  walk r at_ = Some old -> walk (tree_replace at_ n r) at_ = Some n.
Proof.
  destruct at_ as [|s t] using rev_ind; [reflexivity|]. clear IHt.
  intros H. destruct (walk_snoc _ _ _ _ H) as (m & es & Hp & He).
  rewrite tree_replace_snoc, walk_app, walk_upd_dir, Hp. simpl.
  rewrite assoc_alter_entry, He. reflexivity.
Qed.

(** A lookup that meets no link stops where it started. *)
Lemma follow_no_link fuel r at_ n :
  walk r at_ = Some n -> (forall t, n <> Link t) -> follow fuel r at_ = Found at_ n.
Proof.
  intros H Hn. destruct fuel; simpl; rewrite H; destruct n; try reflexivity;
    exfalso; eapply Hn; reflexivity.
Qed.

(** What a lookup finds is an entry of the tree, and not a link. *)
Lemma follow_found fuel r at_ at' n :
  follow fuel r at_ = Found at' n -> walk r at' = Some n /\ forall t, n <> Link t.
Proof.
  revert at_. induction fuel as [|k IH]; intros at_; simpl;
    destruct (walk r at_) as [x|] eqn:E; try discriminate;
    destruct x; try discriminate;
    try (intros H; injection H as <- <-; split; [assumption|discriminate]).
  apply IH.
Qed.

(** A lookup that succeeds starts at an entry of the tree. *)
Lemma follow_found_start fuel r at_ at' n :
  follow fuel r at_ = Found at' n -> exists n0, walk r at_ = Some n0.
Proof.
  destruct fuel; simpl; destruct (walk r at_) as [x|]; try discriminate;
    intros _; eexists; reflexivity.
Qed.

(** Two calls in flight are served in one of the two orders. *)
Lemma arrange_two {A} choices (a b : A) :
  arrange choices [a; b] = [a; b] \/ arrange choices [a; b] = [b; a].
Proof.
  unfold arrange. cbn [length arrange_from].
  pose proof (Nat.mod_upper_bound (hd O choices) 2 ltac:(lia)) as Hb.
  destruct (hd O choices mod 2)%nat as [|[|k]]; [left|right|lia]; reflexivity.
Qed.

(** A pool that is left no choice serves the calls in the order made. *)
Lemma arrange_nil_choices {A} (xs : list A) : arrange [] xs = xs.
Proof.
  unfold arrange.
  assert (H : forall n (l : list A), length l = n -> arrange_from n [] l = l).
  { induction n as [|n IH]; intros l Hl; destruct l as [|x l];
      try discriminate; try reflexivity.
    cbn [arrange_from hd tl]. rewrite Nat.Div0.mod_0_l. simpl. f_equal. apply IH.
    simpl in Hl. lia. }
  apply H. reflexivity.
Qed.

End FsFacts.

(** ** How the driver's operations run *)
Module LocalFacts.
Import Fs Js Local Obs.

Lemma same_fs_refl w : same_fs w w.
Proof. repeat split; reflexivity. Qed.

Lemma same_fs_trans w1 w2 w3 : same_fs w1 w2 -> same_fs w2 w3 -> same_fs w1 w3.
Proof. intros (A & B & U) (C & D & V). repeat split; congruence. Qed.

Lemma same_fs_log c w : same_fs w (log c w).
Proof. repeat split; reflexivity. Qed.

Lemma entry_same w w' p : same_fs w w' -> entry w' p = entry w p.
Proof. intros (A & B & _). unfold entry, segs. rewrite A, B. reflexivity. Qed.

Lemma accessible_same w w' p : same_fs w w' -> accessible w' p = accessible w p.
Proof. intros (A & B & _). unfold accessible, lookup, segs. rewrite A, B. reflexivity. Qed.

Lemma segs_resolve w p : segs w (Path.resolve (cwd w) p) = segs w p.
Proof. apply PathFacts.resolve_segs_resolve. Qed.

Lemma lookup_resolve w p : lookup w (Path.resolve (cwd w) p) = lookup w p.
Proof. unfold lookup. rewrite segs_resolve. reflexivity. Qed.

Lemma bind_fulfilled {A B} (m : Async A) (k : A -> Async B) w a w' :
  m w = (Fulfilled a, w') -> bind m k w = k a w'.
Proof. unfold bind. intros ->. reflexivity. Qed.

Lemma bind_rejected {A B} (m : Async A) (k : A -> Async B) w e w' :
  m w = (Rejected e, w') -> bind m k w = (Rejected e, w').
Proof. unfold bind. intros ->. reflexivity. Qed.

(** [exists] runs one [fs.access] and always fulfils. *)
Lemma exists_run p w :
  exists_ p w
  = (Fulfilled (accessible w p), log (Call "access" [Path.resolve (cwd w) p]) w).
Proof.
  unfold exists_, bind, _resolve, access_R_OK, accessible.
  rewrite lookup_resolve.
  destruct (lookup w p) as [at_ n| |]; [destruct (readable n)| |]; reflexivity.
Qed.

Lemma exists_spec p w :
  exists w', exists_ p w = (Fulfilled (accessible w p), w') /\ same_fs w w'.
Proof. eexists. split; [apply exists_run|apply same_fs_log]. Qed.

(** An accessible path names an entry of the tree. *)
Lemma accessible_entry w p :
  accessible w p = true -> exists n, entry w p = Some n.
Proof.
  unfold accessible, lookup, entry.
  destruct (follow MAXSYMLINKS (root w) (segs w p)) eqn:E; try discriminate.
  intros _. eapply FsFacts.follow_found_start. exact E.
Qed.

Lemma lstat_check_run question p w n :
  entry w p = Some n ->
  exists w',
    lstat_check question p w = (Fulfilled (question (mkStats n)), w') /\ same_fs w w'.
Proof.
  unfold entry. intros H.
  unfold lstat_check, bind, _resolve, lstat.
  rewrite segs_resolve, H.
  eexists. split; [|apply same_fs_log].
  destruct (question (mkStats n)); reflexivity.
Qed.

Lemma kind_check_missing question p w :
  accessible w p = false ->
  exists w',
    kind_check question p w = (Rejected (Raised FileDoesntExist p), w') /\ same_fs w w'.
Proof.
  intros H. unfold kind_check.
  erewrite bind_fulfilled by apply exists_run. rewrite H. simpl.
  eexists. split; [reflexivity|apply same_fs_log].
Qed.

Lemma kind_check_run question p w n :
  accessible w p = true -> entry w p = Some n ->
  exists w',
    kind_check question p w = (Fulfilled (question (mkStats n)), w') /\ same_fs w w'.
Proof.
  intros Ha He. unfold kind_check.
  erewrite bind_fulfilled by apply exists_run. rewrite Ha. simpl.
  destruct (lstat_check_run question p (log (Call "access" [Path.resolve (cwd w) p]) w) n)
    as (w' & E & S).
  - rewrite (entry_same w) by apply same_fs_log. exact He.
  - exists w'. split; [exact E|].
    eapply same_fs_trans; [apply same_fs_log|exact S].
Qed.

Lemma segs_same w w' p : same_fs w w' -> segs w' p = segs w p.
Proof. intros (_ & B & _). unfold segs. rewrite B. reflexivity. Qed.

Lemma lookup_same w w' p : same_fs w w' -> lookup w' p = lookup w p.
Proof. intros (A & B & _). unfold lookup, segs. rewrite A, B. reflexivity. Qed.

Lemma lookup_entry w p n :
  entry w p = Some n -> (forall t, n <> Link t) -> lookup w p = Found (segs w p) n.
Proof. intros H Hn. apply FsFacts.follow_no_link; assumption. Qed.

Lemma accessible_no_link w p n :
  entry w p = Some n -> (forall t, n <> Link t) -> accessible w p = readable n.
Proof. intros H Hn. unfold accessible. rewrite (lookup_entry w p n) by assumption. reflexivity. Qed.

(** The same steps, from a process [w] that has the tree of [w0]. *)
Lemma exists_at w0 w p :
  same_fs w0 w ->
  exists w', exists_ p w = (Fulfilled (accessible w0 p), w') /\ same_fs w0 w'.
Proof.
  intros S. destruct (exists_spec p w) as (w' & E & S').
  exists w'. rewrite <- (accessible_same w0 w) by assumption.
  split; [exact E|eapply same_fs_trans; eassumption].
Qed.

Lemma kind_check_at w0 w question p n :
  same_fs w0 w -> accessible w0 p = true -> entry w0 p = Some n ->
  exists w',
    kind_check question p w = (Fulfilled (question (mkStats n)), w') /\ same_fs w0 w'.
Proof.
  intros S Ha He.
  destruct (kind_check_run question p w n) as (w' & E & S').
  - rewrite (accessible_same w0 w) by assumption. exact Ha.
  - rewrite (entry_same w0 w) by assumption. exact He.
  - exists w'. split; [exact E|eapply same_fs_trans; eassumption].
Qed.

Lemma readFile_tail w0 w p m d :
  same_fs w0 w -> entry w0 p = Some (File m d) -> mode_readable m = true ->
  exists w',
    native_tail readFile p w = (Fulfilled (Text.utf8_decode d), w') /\ same_fs w0 w'.
Proof.
  intros S He Hm. unfold native_tail, bind, _resolve, promisify, readFile.
  rewrite lookup_resolve, (lookup_same w0 w) by assumption.
  rewrite (lookup_entry w0 p _ He) by discriminate. rewrite Hm.
  eexists. split; [reflexivity|].
  eapply same_fs_trans; [exact S|apply same_fs_log].
Qed.

Lemma writeFile_tail w0 w p m old d :
  same_fs w0 w -> entry w0 p = Some (File m old) -> mode_writable m = true ->
  exists w',
    native_tail (fun q => writeFile q d) p w = (Fulfilled tt, w')
    /\ root w' = tree_replace (segs w0 p) (File m (Text.utf8_encode d)) (root w0)
    /\ cwd w' = cwd w0.
Proof.
  intros S He Hw. unfold native_tail, bind, _resolve, promisify, writeFile, store.
  rewrite lookup_resolve, (lookup_same w0 w) by assumption.
  rewrite (lookup_entry w0 p _ He) by discriminate. rewrite Hw.
  destruct S as (Sr & Sc & _).
  eexists. split; [reflexivity|]. simpl. rewrite Sr, Sc. split; reflexivity.
Qed.

(** A file the process may not write is left as it is. *)
Lemma store_tail_denied name g w0 w p m old :
  same_fs w0 w -> entry w0 p = Some (File m old) -> mode_writable m = false ->
  exists w',
    native_tail (store name g) p w = (Rejected (Native EACCES), w') /\ same_fs w0 w'.
Proof.
  intros S He Hw. unfold native_tail, bind, _resolve, promisify, store.
  rewrite lookup_resolve, (lookup_same w0 w) by assumption.
  rewrite (lookup_entry w0 p _ He) by discriminate. rewrite Hw.
  eexists. split; [reflexivity|].
  eapply same_fs_trans; [exact S|apply same_fs_log].
Qed.

Lemma readdir_tail w0 w p m es :
  same_fs w0 w -> entry w0 p = Some (Dir m es) -> mode_readable m = true ->
  exists w', native_tail readdir p w = (Fulfilled (map fst es), w') /\ same_fs w0 w'.
Proof.
  intros S He Hm. unfold native_tail, bind, _resolve, promisify, readdir.
  rewrite lookup_resolve, (lookup_same w0 w) by assumption.
  rewrite (lookup_entry w0 p _ He) by discriminate. rewrite Hm.
  eexists. split; [reflexivity|].
  eapply same_fs_trans; [exact S|apply same_fs_log].
Qed.

Lemma unlink_tail w0 w p n :
  same_fs w0 w -> entry w0 p = Some n -> (forall m es, n <> Dir m es) ->
  exists w',
    native_tail unlink p w = (Fulfilled tt, w')
    /\ root w' = tree_remove (segs w0 p) (root w0)
    /\ cwd w' = cwd w0.
Proof.
  intros S He Hn. unfold native_tail, bind, _resolve, promisify, unlink.
  rewrite segs_resolve, (segs_same w0 w) by assumption.
  destruct S as (Sr & Sc & Su). rewrite Sr. unfold entry in He. rewrite He.
  destruct n; try (eexists; split; [reflexivity|simpl; rewrite Sc; split; reflexivity]).
  exfalso. eapply Hn. reflexivity.
Qed.

Lemma rmdir_tail w0 w p m :
  same_fs w0 w -> entry w0 p = Some (Dir m []) -> segs w0 p <> [] ->
  exists w',
    native_tail rmdir p w = (Fulfilled tt, w')
    /\ root w' = tree_remove (segs w0 p) (root w0)
    /\ cwd w' = cwd w0.
Proof.
  intros S He Hn. unfold native_tail, bind, _resolve, promisify, rmdir.
  rewrite segs_resolve, (segs_same w0 w) by assumption.
  destruct S as (Sr & Sc & Su). rewrite Sr. unfold entry in He. rewrite He.
  destruct (segs w0 p) eqn:E; [congruence|].
  eexists. split; [reflexivity|simpl; rewrite Sc; split; reflexivity].
Qed.

(** [write] on a readable regular file the process may write stores the
    encoded data in it. *)
Lemma write_file_run w p m old d :
  entry w p = Some (File m old) -> mode_readable m = true -> mode_writable m = true ->
  exists w',
    write p d w = (Fulfilled tt, w')
    /\ root w' = tree_replace (segs w p) (File m (Text.utf8_encode d)) (root w)
    /\ cwd w' = cwd w.
Proof.
  intros He Hm Hw. unfold write.
  assert (Ha : accessible w p = true)
    by (rewrite (accessible_no_link w p _ He) by discriminate; exact Hm).
  destruct (kind_check_at w w stats_isFile p _ (same_fs_refl w) Ha He) as (w1 & E1 & S1).
  erewrite bind_fulfilled by exact E1. simpl.
  apply (writeFile_tail w w1 p m old d S1 He Hw).
Qed.


(** [read] on a readable regular file gives its content. *)
Lemma read_file_run w p m d :
  entry w p = Some (File m d) -> mode_readable m = true ->
  exists w', read p w = (Fulfilled (Text.utf8_decode d), w') /\ same_fs w w'.
Proof.
  intros He Hm. unfold read.
  assert (Ha : accessible w p = true)
    by (rewrite (accessible_no_link w p _ He) by discriminate; exact Hm).
  destruct (exists_at w w p (same_fs_refl w)) as (w1 & E1 & S1).
  erewrite bind_fulfilled by exact E1. rewrite Ha. simpl.
  destruct (kind_check_at w w1 stats_isFile p _ S1 Ha He) as (w2 & E2 & S2).
  unfold neither. erewrite bind_fulfilled; [|erewrite bind_fulfilled by exact E2; reflexivity].
  simpl. apply (readFile_tail w w2 p m d S2 He Hm).
Qed.

(** [readDir] on a readable directory lists its names. *)
Lemma readDir_run w0 w p m es :
  same_fs w0 w -> entry w0 p = Some (Dir m es) -> mode_readable m = true ->
  exists w', readDir p w = (Fulfilled (map fst es), w') /\ same_fs w0 w'.
Proof.
  intros S He Hm. unfold readDir.
  assert (Ha : accessible w0 p = true)
    by (rewrite (accessible_no_link w0 p _ He) by discriminate; exact Hm).
  destruct (exists_at w0 w p S) as (w1 & E1 & S1).
  erewrite bind_fulfilled by exact E1. rewrite Ha. simpl.
  apply (readdir_tail w0 w1 p m es S1 He Hm).
Qed.

(** [delete] on a readable regular file unlinks it. *)
Lemma delete_file_run w0 w p m d :
  same_fs w0 w -> entry w0 p = Some (File m d) -> mode_readable m = true ->
  exists w',
    delete p w = (Fulfilled tt, w')
    /\ root w' = tree_remove (segs w0 p) (root w0)
    /\ cwd w' = cwd w0.
Proof.
  intros S He Hm. unfold delete.
  assert (Ha : accessible w0 p = true)
    by (rewrite (accessible_no_link w0 p _ He) by discriminate; exact Hm).
  destruct (exists_at w0 w p S) as (w1 & E1 & S1).
  erewrite bind_fulfilled by exact E1. rewrite Ha. simpl.
  destruct (kind_check_at w0 w1 stats_isFile p _ S1 Ha He) as (w2 & E2 & S2).
  unfold either. erewrite bind_fulfilled; [|erewrite bind_fulfilled by exact E2; reflexivity].
  simpl. apply (unlink_tail w0 w2 p _ S2 He). discriminate.
Qed.

(** [delete] on a readable empty directory removes it. *)
Lemma delete_empty_dir_run w0 w p m :
  same_fs w0 w -> entry w0 p = Some (Dir m []) -> mode_readable m = true ->
  segs w0 p <> [] ->
  exists w',
    delete p w = (Fulfilled tt, w')
    /\ root w' = tree_remove (segs w0 p) (root w0)
    /\ cwd w' = cwd w0.
Proof.
  intros S He Hm Hn. unfold delete.
  assert (Ha : accessible w0 p = true)
    by (rewrite (accessible_no_link w0 p _ He) by discriminate; exact Hm).
  destruct (exists_at w0 w p S) as (w1 & E1 & S1).
  erewrite bind_fulfilled by exact E1. rewrite Ha. simpl.
  destruct (kind_check_at w0 w1 stats_isFile p _ S1 Ha He) as (w2 & E2 & S2).
  destruct (kind_check_at w0 w2 stats_isSymbolicLink p _ S2 Ha He) as (w3 & E3 & S3).
  destruct (kind_check_at w0 w3 stats_isDirectory p _ S3 Ha He) as (w4 & E4 & S4).
  unfold either.
  erewrite bind_fulfilled;
    [|erewrite bind_fulfilled by exact E2; simpl; exact E3].
  simpl. erewrite bind_fulfilled by exact E4. simpl.
  apply (rmdir_tail w0 w4 p m S4 He Hn).
Qed.

Lemma deleteAll_S k path :
  deleteAll (S k) path
  = bind (readDir path) (fun files =>
      bind (for_of files (delete_entry k path)) (fun _ => delete path)).
Proof. reflexivity. Qed.

Lemma segs_join w dir x :
  Path.plain x = true -> segs w (Path.join [dir; x]) = (segs w dir ++ [x])%list.
Proof. apply PathFacts.resolve_segs_join. Qed.

Lemma entry_child w dir x m es :
  Path.plain x = true -> entry w dir = Some (Dir m es) ->
  entry w (Path.join [dir; x]) = assoc x es.
Proof.
  intros Hx He. unfold entry in *.
  rewrite segs_join, FsFacts.walk_app, He by assumption. simpl.
  destruct (assoc x es); reflexivity.
Qed.

Lemma entry_below_missing w dir x :
  Path.plain x = true -> entry w dir = None ->
  entry w (Path.join [dir; x]) = None.
Proof.
  intros Hx He. unfold entry in *.
  rewrite segs_join by assumption. apply FsFacts.walk_below_missing. exact He.
Qed.

Lemma accessible_missing w p : entry w p = None -> accessible w p = false.
Proof.
  unfold entry, accessible, lookup, MAXSYMLINKS. intros H. simpl. rewrite H. reflexivity.
Qed.

Lemma remove_entry_absent x es : ~ In x (map fst es) -> remove_entry x es = es.
Proof.
  induction es as [|[k n] es IH]; simpl; intros H; [reflexivity|].
  destruct (k =? x) eqn:E.
  - apply String.eqb_eq in E. subst. exfalso. apply H. left. reflexivity.
  - simpl. rewrite IH; [reflexivity|]. intros Hin. apply H. right. exact Hin.
Qed.

Lemma remove_entry_head x n es :
  ~ In x (map fst es) -> remove_entry x ((x, n) :: es) = es.
Proof.
  intros H. unfold remove_entry at 1. simpl. rewrite String.eqb_refl. simpl.
  apply remove_entry_absent. exact H.
Qed.

(** [deleteAll] on a readable empty directory removes it. *)
Lemma deleteAll_empty_dir_run w0 w p m k :
  same_fs w0 w -> entry w0 p = Some (Dir m []) -> mode_readable m = true ->
  segs w0 p <> [] ->
  exists w',
    deleteAll (S k) p w = (Fulfilled tt, w')
    /\ root w' = tree_remove (segs w0 p) (root w0)
    /\ cwd w' = cwd w0.
Proof.
  intros S He Hm Hn. rewrite deleteAll_S.
  destruct (readDir_run w0 w p m [] S He Hm) as (w1 & E1 & S1).
  erewrite bind_fulfilled by exact E1. simpl.
  unfold bind at 1. unfold ret.
  apply (delete_empty_dir_run w0 w1 p m S1 He Hm Hn).
Qed.

(** One name of the listing: the entry is removed, whichever it is. *)
Lemma delete_entry_run w dir x n k :
  Path.plain x = true ->
  entry w (Path.join [dir; x]) = Some n -> simple_entry n = true ->
  exists w',
    delete_entry (S k) dir x w = (Fulfilled tt, w')
    /\ root w' = tree_remove (segs w dir ++ [x]) (root w)
    /\ cwd w' = cwd w.
Proof.
  intros Hx He Hs. unfold delete_entry. cbv zeta.
  rewrite <- (segs_join w dir x Hx).
  assert (Hn : segs w (Path.join [dir; x]) <> [])
    by (rewrite segs_join by assumption; destruct (segs w dir); discriminate).
  destruct n as [m d | m [|e es] | |]; try discriminate; simpl in Hs.
  - assert (Ha : accessible w (Path.join [dir; x]) = true)
      by (rewrite (accessible_no_link _ _ _ He) by discriminate; exact Hs).
    destruct (kind_check_at w w stats_isFile _ _ (same_fs_refl w) Ha He) as (w1 & E1 & S1).
    change (isFile (Path.join [dir; x])) with (kind_check stats_isFile (Path.join [dir; x])).
    erewrite bind_fulfilled by exact E1. simpl.
    apply (delete_file_run w w1 _ m d S1 He Hs).
  - assert (Ha : accessible w (Path.join [dir; x]) = true)
      by (rewrite (accessible_no_link _ _ _ He) by discriminate; exact Hs).
    destruct (kind_check_at w w stats_isFile _ _ (same_fs_refl w) Ha He) as (w1 & E1 & S1).
    change (isFile (Path.join [dir; x])) with (kind_check stats_isFile (Path.join [dir; x])).
    erewrite bind_fulfilled by exact E1. simpl.
    apply (deleteAll_empty_dir_run w w1 _ m k S1 He Hs Hn).
Qed.

(** The loop of [deleteAll] over a directory of readable regular files
    and readable empty directories leaves the directory empty. *)
Lemma delete_entries_run es :
  forall w dir m k,
    entry w dir = Some (Dir m es) ->
    Forall (fun e => Path.plain (fst e) = true /\ simple_entry (snd e) = true) es ->
    NoDup (map fst es) ->
    exists w',
      for_of (map fst es) (delete_entry (S k) dir) w = (Fulfilled tt, w')
      /\ entry w' dir = Some (Dir m [])
      /\ cwd w' = cwd w.
Proof.
  induction es as [|[x n] es IH]; intros w dir m k He Hall Hnd.
  - exists w. repeat split; [exact He].
  - inversion Hall as [|? ? [Hx Hs] Hrest]; subst.
    inversion Hnd as [|? ? Hnotin Hnd']; subst.
    simpl in Hx, Hs.
    assert (Hc : entry w (Path.join [dir; x]) = Some n).
    { rewrite (entry_child w dir x m _ Hx He). simpl. rewrite String.eqb_refl. reflexivity. }
    destruct (delete_entry_run w dir x n k Hx Hc Hs) as (w1 & E1 & R1 & C1).
    assert (He1 : entry w1 dir = Some (Dir m es)).
    { unfold entry. rewrite R1.
      replace (segs w1 dir) with (segs w dir) by (unfold segs; rewrite C1; reflexivity).
      unfold entry in He.
      rewrite (FsFacts.walk_tree_remove_parent _ x _ m _ He).
      rewrite remove_entry_head by assumption. reflexivity. }
    destruct (IH w1 dir m k He1 Hrest Hnd') as (w2 & E2 & He2 & C2).
    exists w2. simpl map. simpl for_of.
    erewrite bind_fulfilled by exact E1.
    repeat split; [exact E2|exact He2|congruence].
Qed.

(** [deleteAll] on such a directory removes it with all it holds. *)
Lemma deleteAll_flat_dir_run w dir m es k :
  entry w dir = Some (Dir m es) -> mode_readable m = true ->
  segs w dir <> [] ->
  Forall (fun e => Path.plain (fst e) = true /\ simple_entry (snd e) = true) es ->
  NoDup (map fst es) ->
  exists w',
    deleteAll (S (S k)) dir w = (Fulfilled tt, w')
    /\ entry w' dir = None
    /\ cwd w' = cwd w.
Proof.
  intros He Hm Hn Hall Hnd. rewrite deleteAll_S.
  destruct (readDir_run w w dir m es (same_fs_refl w) He Hm) as (w1 & E1 & S1).
  erewrite bind_fulfilled by exact E1.
  assert (He1 : entry w1 dir = Some (Dir m es))
    by (rewrite (entry_same w w1) by assumption; exact He).
  destruct (delete_entries_run es w1 dir m k He1 Hall Hnd) as (w2 & E2 & He2 & C2).
  erewrite bind_fulfilled by exact E2.
  assert (Hn2 : segs w2 dir <> []).
  { unfold segs. rewrite C2. destruct S1 as (_ & C1 & _). rewrite C1. exact Hn. }
  destruct (delete_empty_dir_run w2 w2 dir m (same_fs_refl w2) He2 Hm Hn2)
    as (w3 & E3 & R3 & C3).
  exists w3. split; [exact E3|]. split; [|destruct S1 as (_ & C1 & _); congruence].
  unfold entry. rewrite R3.
  replace (segs w3 dir) with (segs w2 dir) by (unfold segs; rewrite C3; reflexivity).
  destruct (segs w2 dir) as [|l a _] using rev_ind; [congruence|].
  apply FsFacts.walk_tree_remove.
Qed.

Lemma isFile_kind_check p : isFile p = kind_check stats_isFile p.
Proof. reflexivity. Qed.
Lemma isDirectory_kind_check p : isDirectory p = kind_check stats_isDirectory p.
Proof. reflexivity. Qed.
Lemma isSymbolicLink_kind_check p : isSymbolicLink p = kind_check stats_isSymbolicLink p.
Proof. reflexivity. Qed.

(** With a mode Node accepts every call of the [reduce] is made. *)
Lemma mkdir_all_valid mode dirs :
  valid_mode mode = true ->
  forall w,
    mkdir_all mode dirs w
    = (NOk tt, fold_left (fun w' dir => log (Call "mkdir" [dir]) w') dirs w).
Proof.
  intros Hv. induction dirs as [|d dirs IH]; intros w; [reflexivity|].
  simpl. unfold mkdir_begin. rewrite Hv. apply IH.
Qed.



End LocalFacts.

(** ** The local driver *)
Module LocalTheorems.
Import Fs Js Local Obs LocalFacts.

Lemma accessible_presence w p :
  accessible w p = match presence_of w p with Readable => true | _ => false end.
Proof.
  unfold accessible, presence_of.
  destruct (lookup w p) as [at_ n| |]; [destruct (readable n)| |]; reflexivity.
Qed.

(** C6. [exists(p)] never fails: it fulfils with [false] when nothing is
    found at [p] and when what is found may not be read, and with [true]
    otherwise. *)
Theorem exists_never_fails (p : string) (w : world) :
  fst (exists_ p w)
  = Fulfilled (match presence_of w p with
               | Readable => true
               | Absent | Unreadable => false
               end).
Proof.
  rewrite exists_run. simpl. rewrite accessible_presence. reflexivity.
Qed.

Lemma exists_true_accessible p w :
  fst (exists_ p w) = Fulfilled true -> accessible w p = true.
Proof. rewrite exists_run. simpl. congruence. Qed.

Lemma exists_false_accessible p w :
  fst (exists_ p w) = Fulfilled false -> accessible w p = false.
Proof. rewrite exists_run. simpl. congruence. Qed.

(** C10. On an existing path that is a symbolic link, [isSymbolicLink]
    answers [true] and [isFile] and [isDirectory] answer [false],
    whatever the link leads to: the three ask [fs.lstat], which examines
    the link itself. *)
Theorem symlink_kind_checks (w : world) (p target : string) :
  entry w p = Some (Link target) ->
  fst (exists_ p w) = Fulfilled true ->
  fst (isSymbolicLink p w) = Fulfilled true
  /\ fst (isFile p w) = Fulfilled false
  /\ fst (isDirectory p w) = Fulfilled false.
Proof.
  intros He Hx. apply exists_true_accessible in Hx.
  rewrite isSymbolicLink_kind_check, isFile_kind_check, isDirectory_kind_check.
  repeat split.
  - destruct (kind_check_run stats_isSymbolicLink p w _ Hx He) as (w' & E & _).
    rewrite E. reflexivity.
  - destruct (kind_check_run stats_isFile p w _ Hx He) as (w' & E & _).
    rewrite E. reflexivity.
  - destruct (kind_check_run stats_isDirectory p w _ Hx He) as (w' & E & _).
    rewrite E. reflexivity.
Qed.

Lemma symlink_kind_checks_witness :
  (fst (isSymbolicLink "ld" home) = Fulfilled true
   /\ fst (isFile "ld" home) = Fulfilled false
   /\ fst (isDirectory "ld" home) = Fulfilled false)
  /\ (fst (isSymbolicLink "l" home) = Fulfilled true
      /\ fst (isFile "l" home) = Fulfilled false
      /\ fst (isDirectory "l" home) = Fulfilled false).
Proof.
  split.
  - apply (symlink_kind_checks home "ld" "d"); reflexivity.
  - apply (symlink_kind_checks home "l" "d/f.txt"); reflexivity.
Defined.

(** C1, as the driver has it. [write] on a path that is not an existing
    regular file fails and writes nothing: with FileDoesntExist when the
    path does not exist, with InvalidPath when it exists and is something
    else, a directory for one. *)
Theorem write_rejects_non_file (w : world) (p : string) (data : Text.jsstring) :
  regular_file w p = false ->
  fst (write p data w)
  = Rejected (Raised (if accessible w p then InvalidPath else FileDoesntExist) p)
  /\ same_fs w (snd (write p data w)).
Proof.
  unfold regular_file. intros H. unfold write.
  rewrite isFile_kind_check.
  destruct (accessible w p) eqn:Ha.
  - destruct (accessible_entry w p Ha) as (n & He).
    destruct (kind_check_run stats_isFile p w n Ha He) as (w' & E & S).
    erewrite bind_fulfilled by exact E.
    rewrite He in H. simpl in H.
    assert (Hq : stats_isFile (mkStats n) = false) by exact H.
    rewrite Hq. simpl. split; [reflexivity|exact S].
  - destruct (kind_check_missing stats_isFile p w Ha) as (w' & E & S).
    erewrite bind_rejected by exact E. simpl. split; [reflexivity|exact S].
Qed.

Lemma write_rejects_non_file_witness :
  fst (write "d" (Text.js "x") home) = Rejected (Raised InvalidPath "d")
  /\ same_fs home (snd (write "d" (Text.js "x") home)).
Proof.
  apply (write_rejects_non_file home "d" (Text.js "x")). reflexivity.
Defined.

(** C1, as stated, fails on a path that does not exist: the rejection
    is a FileDoesntExist, which is no InvalidPath. *)
Lemma write_missing_path_not_InvalidPath :
  fst (exists_ "nope" home) = Fulfilled false
  /\ fst (write "nope" (Text.js "x") home) = Rejected (Raised FileDoesntExist "nope")
  /\ instanceof (Raised FileDoesntExist "nope") InvalidPath = false.
Proof. repeat split; reflexivity. Qed.

(** [write] and then [read], on a readable regular file the process may
    write: the text comes back with every lone surrogate replaced by
    U+FFFD. *)
Lemma write_then_read_gives (w : world) (p : string) (data : Text.jsstring)
    (m : N) (old : string) :
  entry w p = Some (File m old) ->
  mode_readable m = true ->
  mode_writable m = true ->
  Text.is_jsstring data = true ->
  fst (write p data w) = Fulfilled tt
  /\ fst (read p (snd (write p data w))) = Fulfilled (Text.toWellFormed data).
Proof.
  intros He Hm Hw Hd.
  destruct (write_file_run w p m old data He Hm Hw) as (w1 & E1 & R1 & C1).
  rewrite E1. simpl. split; [reflexivity|].
  assert (He1 : entry w1 p = Some (File m (Text.utf8_encode data))).
  { unfold entry. rewrite R1.
    replace (segs w1 p) with (segs w p) by (unfold segs; rewrite C1; reflexivity).
    eapply FsFacts.walk_tree_replace. exact He. }
  destruct (read_file_run w1 p m _ He1 Hm) as (w2 & E2 & _).
  rewrite E2. simpl. rewrite TextFacts.decode_encode by exact Hd. reflexivity.
Qed.

(** C8, amended. Writing [data] to a path that is an existing regular
    file, readable and writable by the process, and reading the path back
    gives [data], when [data] is well-formed text: a string of 16-bit
    units in which every surrogate is one of a pair. *)
Theorem write_then_read (w : world) (p : string) (data : Text.jsstring)
    (m : N) (old : string) :
  entry w p = Some (File m old) ->
  mode_readable m = true ->
  mode_writable m = true ->
  Text.is_jsstring data = true ->
  Text.isWellFormed data = true ->
  fst (write p data w) = Fulfilled tt
  /\ fst (read p (snd (write p data w))) = Fulfilled data.
Proof.
  intros He Hm Hw Hd Hf.
  rewrite <- (TextFacts.toWellFormed_id data Hf) at 3.
  apply (write_then_read_gives w p data m old); assumption.
Qed.

Lemma write_then_read_witness :
  fst (write "d/f.txt" (Text.js "new") home) = Fulfilled tt
  /\ fst (read "d/f.txt" (snd (write "d/f.txt" (Text.js "new") home)))
     = Fulfilled (Text.js "new").
Proof.
  apply (write_then_read home "d/f.txt" (Text.js "new") 420 "hi"); reflexivity.
Defined.

(** C8, as stated, fails in two ways.  A string with a lone surrogate,
    ['a\uD800b'], is written to a regular file and read back as
    ['a\uFFFDb'].  And on a regular file the process may read but not
    write, mode [0o444], [write] is rejected by the native call and [read]
    gives the old content. *)
Lemma write_then_read_not_exact :
  regular_file home "d/f.txt" = true
  /\ fst (write "d/f.txt" [97; 55296; 98]%N home) = Fulfilled tt
  /\ fst (read "d/f.txt" (snd (write "d/f.txt" [97; 55296; 98]%N home)))
     = Fulfilled [97; 65533; 98]%N
  /\ (let locked := snd (Local.chmod "d/f.txt" 292 home) in
      regular_file locked "d/f.txt" = true
      /\ fst (write "d/f.txt" (Text.js "new") locked) = Rejected (Native EACCES)
      /\ fst (read "d/f.txt" (snd (write "d/f.txt" (Text.js "new") locked)))
         = Fulfilled (Text.js "hi")).
Proof. repeat split; reflexivity. Qed.

Lemma exists_missing w p : entry w p = None -> fst (exists_ p w) = Fulfilled false.
Proof. intros H. rewrite exists_run. simpl. rewrite accessible_missing by assumption. reflexivity. Qed.

(** C9. On a directory that holds one regular file and one empty
    subdirectory and nothing else, [deleteAll] succeeds, and afterwards
    the directory, the file and the subdirectory exist no more. *)
Theorem deleteAll_file_and_empty_subdir
    (w : world) (dir : string) (m : N) (es : entries)
    (f : string) (mf : N) (data : string) (s : string) (ms : N) (fuel : nat) :
  entry w dir = Some (Dir m es) ->
  es = [(f, File mf data); (s, Dir ms [])] \/ es = [(s, Dir ms []); (f, File mf data)] ->
  Path.plain f = true -> Path.plain s = true -> f <> s ->
  mode_readable m = true -> mode_readable mf = true -> mode_readable ms = true ->
  segs w dir <> [] ->
  (2 <= fuel)%nat ->
  exists w',
    deleteAll fuel dir w = (Fulfilled tt, w')
    /\ (entry w' dir = None /\ fst (exists_ dir w') = Fulfilled false)
    /\ (entry w' (Path.join [dir; f]) = None
        /\ fst (exists_ (Path.join [dir; f]) w') = Fulfilled false)
    /\ (entry w' (Path.join [dir; s]) = None
        /\ fst (exists_ (Path.join [dir; s]) w') = Fulfilled false).
Proof.
  intros He Hes Hf Hs Hfs Hm Hmf Hms Hn Hfuel.
  destruct fuel as [|[|k]]; try lia.
  assert (Hall : Forall (fun e => Path.plain (fst e) = true
                                  /\ simple_entry (snd e) = true) es).
  { destruct Hes; subst es; repeat constructor; assumption. }
  assert (Hnd : NoDup (map fst es)).
  { destruct Hes; subst es; simpl; repeat constructor; simpl; intuition congruence. }
  destruct (deleteAll_flat_dir_run w dir m es k He Hm Hn Hall Hnd) as (w' & E & Hgone & _).
  exists w'. split; [exact E|].
  assert (Hbelow : forall x, Path.plain x = true ->
                     entry w' (Path.join [dir; x]) = None)
    by (intros x Hx; apply entry_below_missing; assumption).
  repeat split; auto using exists_missing.
Qed.

Lemma deleteAll_file_and_empty_subdir_witness :
  exists w',
    deleteAll 2 "d" home = (Fulfilled tt, w')
    /\ (entry w' "d" = None /\ fst (exists_ "d" w') = Fulfilled false)
    /\ (entry w' (Path.join ["d"; "f.txt"]) = None
        /\ fst (exists_ (Path.join ["d"; "f.txt"]) w') = Fulfilled false)
    /\ (entry w' (Path.join ["d"; "sub"]) = None
        /\ fst (exists_ (Path.join ["d"; "sub"]) w') = Fulfilled false).
Proof.
  apply (deleteAll_file_and_empty_subdir home "d" 493
           [("f.txt", File 420 "hi"); ("sub", Dir 493 [])]
           "f.txt" 420 "hi" "sub" 493 2);
    try reflexivity; try discriminate; try lia.
  left. reflexivity.
Defined.






End LocalTheorems.

(** ** The facade *)
Module FacadeTheorems.
Import Filesystem.

Section OneShot.
Variable R : Type.
Implicit Types (A B : Driver R) (op : operation) (this : t R).

Lemma delegate_spec (method : Driver R -> R) this :
  delegate R method this
  = (call_method R (fst (_resolveDriver this)) method,
     {| _driver := _driver this; _tempDriver := Null |}).
Proof. reflexivity. Qed.

(** Every method is the one dispatch step. *)
Lemma perform_dispatch op this :
  perform op this
  = (call_method R (fst (_resolveDriver this)) (fun d => against d op),
     {| _driver := _driver this; _tempDriver := Null |}).
Proof. destruct op; reflexivity. Qed.

(** Without a pending override every operation runs on the default
    driver, and none becomes pending. *)
Lemma perform_all_default A ops :
  perform_all ops (constructor (Obj A))
  = (map (fun op => Return (against A op)) ops, constructor (Obj A)).
Proof.
  induction ops as [|op ops IH]; [reflexivity|].
  simpl. rewrite perform_dispatch. simpl.
  change {| _driver := Obj A; _tempDriver := Null |} with (constructor (Obj A)).
  rewrite IH. reflexivity.
Qed.

(** C2. A facade built on [A], whatever it has been used for since and
    whatever override it still holds: after [in(B)], the next operation
    runs on [B] and the override is gone when it returns, whatever the
    driver's promise becomes; every operation after it, with no new [in],
    runs on [A]. *)
Theorem override_is_one_shot A B (pending : ref R) op (ops : list operation) :
  let this := in_ (Obj B) {| _driver := Obj A; _tempDriver := pending |} in
  fst (perform op this) = Return (against B op)
  /\ snd (perform op this) = constructor (Obj A)
  /\ _tempDriver (snd (perform op this)) = Null
  /\ fst (perform_all ops (snd (perform op this)))
     = map (fun op' => Return (against A op')) ops.
Proof.
  intros this. subst this. rewrite perform_dispatch. simpl.
  repeat split.
  change {| _driver := Obj A; _tempDriver := Null |} with (constructor (Obj A)).
  rewrite perform_all_default. reflexivity.
Qed.

(** C5. Two [in] calls in a row: the second override replaces the
    first, the facade holds one override and no queue; the next operation
    runs on the second driver and the one after it on the default. *)
Theorem second_override_replaces_first A B1 B2 op1 op2 :
  let this := in_ (Obj B2) (in_ (Obj B1) (constructor (Obj A))) in
  this = in_ (Obj B2) (constructor (Obj A))
  /\ _tempDriver this = Obj B2
  /\ fst (perform_all [op1; op2] this)
     = [Return (against B2 op1); Return (against A op2)].
Proof.
  intros this. subst this. repeat split.
  simpl. rewrite !perform_dispatch. reflexivity.
Qed.

End OneShot.

(** The facade over the local driver: a read goes to [Local.read]. *)
Lemma facade_over_local_driver :
  match fst (perform (Read "d/f.txt") (constructor (Obj local_driver))) with
  | Return promise => fst (promise Obs.home) = Js.Fulfilled (Js.VString (Text.js "hi"))
  | ThrowTypeError => False
  end.
Proof. reflexivity. Qed.

End FacadeTheorems.

(** ** Which paths reach the native calls *)
Module ResolvedPaths.
Import Fs Js Local Obs.

Lemma passes_ret {A} (a : A) : passes_resolved (ret a).
Proof.
  intros w. exists []. simpl. rewrite app_nil_r. repeat split. constructor.
Qed.

Lemma passes_throw {A} e : passes_resolved (@throw A e).
Proof.
  intros w. exists []. simpl. rewrite app_nil_r. repeat split. constructor.
Qed.

Lemma passes_pending {A} : passes_resolved (fun w => (@Pending A, w)).
Proof.
  intros w. exists []. simpl. rewrite app_nil_r. repeat split. constructor.
Qed.

Lemma passes_bind {A B} (m : Async A) (k : A -> Async B) :
  passes_resolved m -> (forall a, passes_resolved (k a)) -> passes_resolved (bind m k).
Proof.
  intros Hm Hk w. destruct (Hm w) as (cs1 & E1 & C1 & F1).
  unfold bind. destruct (m w) as [o w1]. simpl in E1, C1.
  destruct o as [a| |]; try (exists cs1; repeat split; assumption).
  destruct (Hk a w1) as (cs2 & E2 & C2 & F2).
  exists (cs1 ++ cs2)%list. rewrite E2, E1, C2, C1, app_assoc.
  repeat split. apply Forall_app. split; [assumption|].
  rewrite C1 in F2. exact F2.
Qed.

Ltac crush_native :=
  intros; simpl;
  repeat match goal with
         | |- context [match ?x with _ => _ end] => destruct x; simpl
         end;
  split; reflexivity.

Lemma create_file_keeps at_ m d w :
  calls (snd (create_file at_ m d w)) = calls w
  /\ cwd (snd (create_file at_ m d w)) = cwd w.
Proof. unfold create_file. crush_native. Qed.

Lemma records_readFile : records_path readFile.
Proof. exists "readFile". unfold readFile. crush_native. Qed.

Lemma records_store name g : records_path (store name g).
Proof.
  exists name. intros q w. unfold store.
  destruct (lookup w q) as [at_ n|at_|];
    try (destruct n as [m d| | |]; try destruct (mode_writable m));
    try (split; reflexivity).
  destruct (create_file_keeps at_ (new_file_mode w) (g EmptyString)
              (log (Call name [q]) w)) as [E C].
  rewrite E, C. split; reflexivity.
Qed.

Lemma records_unlink : records_path unlink.
Proof. exists "unlink". unfold unlink. crush_native. Qed.

Lemma records_rmdir : records_path rmdir.
Proof. exists "rmdir". unfold rmdir. crush_native. Qed.

Lemma records_mkdir mode : records_path (fun q => mkdir q mode).
Proof.
  exists "mkdir". intros q w. unfold mkdir, mkdir_begin.
  destruct (valid_mode mode); [|split; reflexivity].
  unfold mkdir_serve. revert q w. crush_native.
Qed.

Lemma records_readdir : records_path readdir.
Proof. exists "readdir". unfold readdir. crush_native. Qed.

Lemma records_chmod mode : records_path (fun q => Fs.chmod q mode).
Proof. exists "chmod". unfold Fs.chmod. crush_native. Qed.

Lemma resolved_here w p : exists q, Path.resolve (cwd w) p = Path.resolve (cwd w) q.
Proof. exists p. reflexivity. Qed.

(** A native call made on [_resolve(path)]. *)
Lemma passes_native_tail {A} (native : string -> world -> nres A * world) p :
  records_path native -> passes_resolved (native_tail native p).
Proof.
  intros [name H] w. unfold native_tail, bind, _resolve, promisify.
  destruct (H (Path.resolve (cwd w) p) w) as [E C].
  destruct (native (Path.resolve (cwd w) p) w) as [r w1]. simpl in E, C.
  exists [Call name [Path.resolve (cwd w) p]].
  destruct r; simpl; repeat split; try assumption;
    repeat constructor; apply resolved_here.
Qed.

Lemma passes_exists p : passes_resolved (exists_ p).
Proof.
  intros w. rewrite LocalFacts.exists_run. simpl.
  eexists. repeat split. repeat constructor. apply resolved_here.
Qed.

Lemma passes_lstat_check question p : passes_resolved (lstat_check question p).
Proof.
  intros w. unfold lstat_check, bind, _resolve, lstat.
  exists [Call "lstat" [Path.resolve (cwd w) p]].
  destruct (walk (root w) (segs w (Path.resolve (cwd w) p))) as [n|]; simpl;
    repeat split; repeat constructor; apply resolved_here.
Qed.

Lemma passes_if {A} (b : bool) (x y : Async A) :
  passes_resolved x -> passes_resolved y -> passes_resolved (if b then x else y).
Proof. destruct b; trivial. Qed.

(** The two native calls of two paths. *)
Lemma passes_two_paths (native : string -> string -> world -> nres unit * world) name a b :
  (forall x y w,
     calls (snd (native x y w)) = (calls w ++ [Call name [x; y]])%list
     /\ cwd (snd (native x y w)) = cwd w) ->
  passes_resolved
    (bind (_resolve a) (fun x => bind (_resolve b) (fun y => promisify (native x y)))).
Proof.
  intros H w. unfold bind, _resolve, promisify.
  destruct (H (Path.resolve (cwd w) a) (Path.resolve (cwd w) b) w) as [E C].
  destruct (native (Path.resolve (cwd w) a) (Path.resolve (cwd w) b) w) as [r w1].
  simpl in E, C.
  exists [Call name [Path.resolve (cwd w) a; Path.resolve (cwd w) b]].
  destruct r; simpl; repeat split; try assumption;
    repeat constructor; apply resolved_here.
Qed.

Lemma records_copyFile x y w :
  calls (snd (copyFile x y w)) = (calls w ++ [Call "copyFile" [x; y]])%list
  /\ cwd (snd (copyFile x y w)) = cwd w.
Proof.
  unfold copyFile.
  destruct (lookup w x) as [at_ n|at_|];
    try (destruct n as [m d| | |]); try (split; reflexivity).
  destruct (mode_readable m); [|split; reflexivity].
  destruct (lookup w y) as [at' n'|at'|];
    try (destruct n' as [m' d'| | |]; try destruct (mode_writable m'));
    try (split; reflexivity).
  destruct (create_file_keeps at' m d (log (Call "copyFile" [x; y]) w)) as [E C].
  rewrite E, C. split; reflexivity.
Qed.

Lemma records_rename x y w :
  calls (snd (Fs.rename x y w)) = (calls w ++ [Call "rename" [x; y]])%list
  /\ cwd (snd (Fs.rename x y w)) = cwd w.
Proof. unfold Fs.rename. crush_native. Qed.

Ltac records :=
  first
    [ exact records_readFile
    | exact records_unlink
    | exact records_rmdir
    | exact records_readdir
    | exact (records_mkdir _)
    | exact (records_chmod _)
    | exact (records_store "writeFile" _)
    | exact (records_store "appendFile" _) ].

Ltac passes :=
  repeat first
    [ apply passes_ret
    | apply passes_throw
    | apply passes_exists
    | apply passes_lstat_check
    | apply passes_if
    | match goal with
      | |- passes_resolved (bind (_resolve ?p) (fun q => promisify (@?n q))) =>
          apply (passes_native_tail n p); records
      end
    | apply (passes_two_paths copyFile "copyFile"); apply records_copyFile
    | apply (passes_two_paths Fs.rename "rename"); apply records_rename
    | apply passes_bind; [|intros ?] ].

Lemma passes_kind question p : passes_resolved (kind_check question p).
Proof. unfold kind_check. passes. Qed.

Lemma passes_isFile p : passes_resolved (isFile p).
Proof. apply (passes_kind stats_isFile). Qed.

Lemma passes_isDirectory p : passes_resolved (isDirectory p).
Proof. apply (passes_kind stats_isDirectory). Qed.

Lemma passes_isSymbolicLink p : passes_resolved (isSymbolicLink p).
Proof. apply (passes_kind stats_isSymbolicLink). Qed.

Ltac passes_op :=
  repeat first
    [ apply passes_isFile
    | apply passes_isDirectory
    | apply passes_isSymbolicLink
    | progress passes ].

Lemma passes_read p : passes_resolved (read p).
Proof. unfold read, neither, fmap. passes_op. Qed.

Lemma passes_write p d : passes_resolved (write p d).
Proof. unfold write. passes_op. Qed.

Lemma passes_delete p : passes_resolved (delete p).
Proof. unfold delete, either. passes_op. Qed.

Lemma passes_readDir p : passes_resolved (readDir p).
Proof. unfold readDir. passes_op. Qed.

Lemma passes_for_of {A} (xs : list A) body :
  (forall x, passes_resolved (body x)) -> passes_resolved (for_of xs body).
Proof.
  intros H. induction xs as [|x xs IH]; simpl; passes; trivial.
Qed.

Lemma passes_deleteAll fuel : forall p, passes_resolved (deleteAll fuel p).
Proof.
  induction fuel as [|k IH]; intros p; [apply passes_pending|].
  rewrite LocalFacts.deleteAll_S.
  apply passes_bind; [apply passes_readDir|intros files].
  apply passes_bind; [|intros _; apply passes_delete].
  apply passes_for_of. intros x. unfold delete_entry.
  apply passes_bind; [apply passes_isFile|intros f].
  apply passes_if; [apply passes_delete|apply IH].
Qed.

Lemma passes_append p d : passes_resolved (append p d).
Proof. unfold append. passes_op. Qed.

Lemma passes_chmod p mode : passes_resolved (Local.chmod p mode).
Proof. unfold Local.chmod. passes_op. Qed.

Lemma passes_copy a b o : passes_resolved (copy a b o).
Proof. unfold copy. passes_op. Qed.

Lemma passes_rename a b : passes_resolved (Local.rename a b).
Proof. unfold Local.rename. passes_op. Qed.

(** Without [recursively], [createDir] resolves its path as the other
    operations do. *)
Lemma passes_createDir p mode r :
  default false r = false -> passes_resolved (createDir p mode r).
Proof. intros Hr. unfold createDir. rewrite Hr. unfold fmap. passes_op. Qed.

End ResolvedPaths.

(** ** The entry point and the recursive [createDir] *)
Module EntryPointTheorems.
Import Fs Js Obs.

(** C3. The entry point binds [FileExists] to the module
    [invalid-path.js]: the exported [FileExists] is the exported
    [InvalidPath], and it is not the class [copy], [createDir] and
    [rename] raise when the target exists, so their errors are no
    instances of it.  The other two exports are the driver's classes. *)
Theorem exported_FileExists_is_InvalidPath :
  let exported := Index.module_exports in
  Index.x_FileExists exported = Index.x_InvalidPath exported
  /\ class_eqb (Index.x_FileExists exported) Local.FileExists = false
  /\ Index.x_FileDoesntExist exported = Local.FileDoesntExist
  /\ Index.x_InvalidPath exported = Local.InvalidPath
  /\ fst (Local.copy "d/f.txt" "l" (Some false) home)
     = Rejected (Raised Local.FileExists "l")
  /\ fst (Local.createDir "d" None None home)
     = Rejected (Raised Local.FileExists "d")
  /\ fst (Local.rename "d/f.txt" "d/sub" home)
     = Rejected (Raised Local.FileExists "d/sub")
  /\ forallb (fun path => instanceof (Raised Local.FileExists path)
                           (Index.x_FileExists exported))
       ["l"; "d"; "d/sub"] = false
  /\ forallb (fun path => instanceof (Raised Local.FileExists path) Local.FileExists)
       ["l"; "d"; "d/sub"] = true.
Proof.
  repeat split; reflexivity.
Qed.

(** C4. The recursive branch of [createDir] hands [fs.mkdir] the joined
    segments as they are, not resolved: for ['/a/b'] in a process running
    in ['/home/u'] the calls get ['.'], ['a'] and ['a/b'], none of them
    absolute, and nothing appears at ['/a/b'].  The other branch resolves
    the path. *)
Theorem createDir_recursively_skips_resolve :
  let w' := snd (Local.createDir "/a/b" None (Some true) home) in
  calls w' = [Call "mkdir" ["."]; Call "mkdir" ["a"]; Call "mkdir" ["a/b"]]
  /\ forallb (fun c => forallb (fun p => negb (Path.isAbsolute p)) (paths c)) (calls w') = true
  /\ Path.resolve (cwd home) "/a/b" = "/a/b"
  /\ entry w' "/a/b" = None
  /\ calls (snd (Local.createDir "/a/b" None (Some false) home))
     = [Call "access" ["/a/b"]; Call "mkdir" ["/a/b"]].
Proof.
  repeat split; reflexivity.
Qed.

End EntryPointTheorems.

(** ** More about the file tree *)
Module TreeFacts.
Import Fs Shapes.

Lemma assoc_alter_entry_other s s' g es :
  s' <> s -> assoc s' (alter_entry s g es) = assoc s' es.
Proof.
  intros Hne. induction es as [|[k n] es IH]; simpl; [reflexivity|].
  destruct (k =? s) eqn:E; simpl.
  - apply String.eqb_eq in E. subst k.
    destruct (s =? s') eqn:E'; [apply String.eqb_eq in E'; congruence|exact IH].
  - destruct (k =? s'); [reflexivity|exact IH].
Qed.

Lemma assoc_add_entry_other s s' n es :
  s' <> s -> assoc s' (add_entry s n es) = assoc s' es.
Proof.
  intros Hne. unfold add_entry. induction es as [|[k x] es IH]; simpl.
  - destruct (s =? s') eqn:E; [apply String.eqb_eq in E; congruence|reflexivity].
  - destruct (k =? s'); [reflexivity|exact IH].
Qed.

Lemma assoc_add_entry s n es :
  assoc s es = None -> assoc s (add_entry s n es) = Some n.
Proof.
  unfold add_entry. induction es as [|[k x] es IH]; simpl; intros H.
  - rewrite String.eqb_refl. reflexivity.
  - destruct (k =? s); [discriminate|apply IH; exact H].
Qed.

(** A change to one entry of a directory is not seen from a path that
    parts ways with the entry's path. *)
Lemma walk_upd_dir_frame f l :
  (forall es l', l' <> l -> assoc l' (f es) = assoc l' es) ->
  forall a r p,
    diverge (a ++ [l]) p = true -> walk (upd_dir a f r) p = walk r p.
Proof.
  intros Hf. induction a as [|s a IH]; intros r p Hd.
  - destruct p as [|y p']; [discriminate|]. simpl in Hd.
    destruct (l =? y) eqn:E; [destruct p'; discriminate|].
    apply String.eqb_neq in E.
    destruct r as [| m es | |]; try reflexivity.
    simpl. rewrite Hf by congruence. reflexivity.
  - destruct p as [|y p']; [discriminate|]. simpl in Hd.
    destruct r as [| m es | |]; try reflexivity.
    simpl. destruct (s =? y) eqn:E.
    + apply String.eqb_eq in E. subst y.
      rewrite FsFacts.assoc_alter_entry.
      destruct (assoc s es) as [c|]; simpl; [apply IH; exact Hd|reflexivity].
    + apply String.eqb_neq in E.
      rewrite assoc_alter_entry_other by congruence. reflexivity.
Qed.

Lemma tree_add_snoc a l n r :
  tree_add (a ++ [l]) n r = upd_dir a (add_entry l n) r.
Proof.
  unfold tree_add. rewrite removelast_last, last_last.
  destruct (a ++ [l])%list eqn:E; [destruct a; discriminate|reflexivity].
Qed.

Lemma snoc_cases (p : list string) : p = [] \/ exists a l, p = (a ++ [l])%list.
Proof.
  destruct p as [|l a _] using rev_ind; [left; reflexivity|right; eauto].
Qed.

Lemma walk_tree_remove_frame q r p :
  diverge q p = true -> walk (tree_remove q r) p = walk r p.
Proof.
  destruct (snoc_cases q) as [->|(a & l & ->)]; [reflexivity|].
  intros Hd. rewrite FsFacts.tree_remove_snoc.
  apply (walk_upd_dir_frame _ l); [|exact Hd].
  intros es l' Hne. apply FsFacts.assoc_remove_entry_other. exact Hne.
Qed.


Lemma walk_tree_add_frame q n r p :
  diverge q p = true -> walk (tree_add q n r) p = walk r p.
Proof.
  destruct (snoc_cases q) as [->|(a & l & ->)]; [reflexivity|].
  intros Hd. rewrite tree_add_snoc.
  apply (walk_upd_dir_frame _ l); [|exact Hd].
  intros es l' Hne. apply assoc_add_entry_other. exact Hne.
Qed.

(** A new entry is found where it was added. *)
Lemma walk_tree_add a l n r m es :
  walk r a = Some (Dir m es) -> assoc l es = None ->
  walk (tree_add (a ++ [l]) n r) (a ++ [l]) = Some n.
Proof.
  intros Hp Hl. rewrite tree_add_snoc, FsFacts.walk_app, FsFacts.walk_upd_dir, Hp.
  simpl. rewrite assoc_add_entry by assumption. reflexivity.
Qed.

(** Nothing lies below an entry that is no directory. *)
Lemma walk_below_leaf r a b n :
  walk r a = Some n -> (forall m es, n <> Dir m es) -> b <> [] ->
  walk r (a ++ b) = None.
Proof.
  intros H Hn Hb. rewrite FsFacts.walk_app, H.
  destruct b as [|s b]; [congruence|].
  destruct n; try reflexivity. exfalso. eapply Hn. reflexivity.
Qed.

Lemma diverge_sym a : forall b, diverge a b = diverge b a.
Proof.
  induction a as [|x a IH]; intros [|y b]; simpl; try reflexivity.
  rewrite (String.eqb_sym y x). destruct (x =? y); [apply IH|reflexivity].
Qed.

(** Two different paths that both end in an entry that is no directory
    part ways. *)
Lemma leaves_diverge r :
  forall a b na nb,
    walk r a = Some na -> walk r b = Some nb ->
    (forall m es, na <> Dir m es) -> (forall m es, nb <> Dir m es) ->
    a <> b -> diverge a b = true.
Proof.
  intros a. revert r. induction a as [|x a IH]; intros r b na nb Ha Hb Hna Hnb Hne.
  - destruct b as [|y b]; [congruence|].
    simpl in Ha. injection Ha as <-.
    simpl in Hb. destruct r; try discriminate. exfalso. eapply Hna. reflexivity.
  - destruct b as [|y b].
    + simpl in Hb. injection Hb as <-.
      simpl in Ha. destruct r; try discriminate. exfalso. eapply Hnb. reflexivity.
    + simpl. destruct (x =? y) eqn:E; [|reflexivity].
      apply String.eqb_eq in E. subst y.
      simpl in Ha, Hb. destruct r as [| m es | |]; try discriminate.
      destruct (assoc x es) as [c|]; [|discriminate].
      apply (IH c b na nb); try assumption. congruence.
Qed.

End TreeFacts.

(** ** More about the local driver *)
Module LocalExtras.
Import Fs Js Local Obs Shapes LocalFacts.

Lemma exists_accessible p w b :
  fst (exists_ p w) = Fulfilled b -> accessible w p = b.
Proof. rewrite exists_run. simpl. congruence. Qed.

(** X1. An operation that checks its path first, on a path that does
    not exist: it is rejected with FileDoesntExist for that path, after
    the one [fs.access] of the check and nothing else. *)
Theorem missing_path_is_FileDoesntExist
    (w : world) (p other : string) (o : option bool) (mode : N) (k : nat) :
  fst (exists_ p w) = Fulfilled false ->
  let w' := log (Call "access" [Path.resolve (cwd w) p]) w in
  read p w = (Rejected (Raised FileDoesntExist p), w')
  /\ isDirectory p w = (Rejected (Raised FileDoesntExist p), w')
  /\ isFile p w = (Rejected (Raised FileDoesntExist p), w')
  /\ isSymbolicLink p w = (Rejected (Raised FileDoesntExist p), w')
  /\ delete p w = (Rejected (Raised FileDoesntExist p), w')
  /\ deleteAll (S k) p w = (Rejected (Raised FileDoesntExist p), w')
  /\ Local.chmod p mode w = (Rejected (Raised FileDoesntExist p), w')
  /\ copy p other o w = (Rejected (Raised FileDoesntExist p), w')
  /\ readDir p w = (Rejected (Raised FileDoesntExist p), w')
  /\ Local.rename p other w = (Rejected (Raised FileDoesntExist p), w').
Proof.
  intros H w'. apply exists_accessible in H.
  assert (G : forall A (k : bool -> Async A),
             k false = throw (Raised FileDoesntExist p) ->
             bind (exists_ p) k w = (Rejected (Raised FileDoesntExist p), w')).
  { intros A k0 Hk. erewrite bind_fulfilled by apply exists_run.
    rewrite H, Hk. reflexivity. }
  repeat split; try (apply G; reflexivity).
  rewrite deleteAll_S. erewrite bind_rejected; [reflexivity|].
  apply G. reflexivity.
Qed.

Lemma missing_path_is_FileDoesntExist_witness :
  read "nope" home
  = (Rejected (Raised FileDoesntExist "nope"),
     log (Call "access" [Path.resolve (cwd home) "nope"]) home)
  /\ delete "nope" home
     = (Rejected (Raised FileDoesntExist "nope"),
        log (Call "access" [Path.resolve (cwd home) "nope"]) home).
Proof.
  destruct (missing_path_is_FileDoesntExist home "nope" "x" None 0 0 eq_refl)
    as (Hr & _ & _ & _ & Hd & _).
  split; [exact Hr|exact Hd].
Defined.

Lemma keeps_ret {A} (a : A) : keeps_tree (ret a).
Proof. intros w. apply same_fs_refl. Qed.

Lemma keeps_throw {A} e : keeps_tree (@throw A e).
Proof. intros w. apply same_fs_refl. Qed.

Lemma keeps_bind {A B} (m : Async A) (k : A -> Async B) :
  keeps_tree m -> (forall a, keeps_tree (k a)) -> keeps_tree (bind m k).
Proof.
  intros Hm Hk w. specialize (Hm w). unfold bind.
  destruct (m w) as [o w1]. simpl in Hm.
  destruct o as [a| |]; try exact Hm.
  eapply same_fs_trans; [exact Hm|apply Hk].
Qed.

Lemma keeps_if {A} (b : bool) (x y : Async A) :
  keeps_tree x -> keeps_tree y -> keeps_tree (if b then x else y).
Proof. destruct b; trivial. Qed.

Lemma keeps_exists p : keeps_tree (exists_ p).
Proof. intros w. rewrite exists_run. apply same_fs_log. Qed.

Lemma keeps_lstat_check question p : keeps_tree (lstat_check question p).
Proof.
  intros w. unfold lstat_check, bind, _resolve, lstat.
  destruct (walk (root w) (segs w (Path.resolve (cwd w) p))); apply same_fs_log.
Qed.

Lemma keeps_readFile p : keeps_tree (native_tail readFile p).
Proof.
  intros w. unfold native_tail, bind, _resolve, promisify, readFile.
  destruct (lookup w (Path.resolve (cwd w) p)) as [at_ n| |];
    try destruct n as [m d| | |]; try destruct (mode_readable m); apply same_fs_log.
Qed.

Lemma keeps_readdir p : keeps_tree (native_tail readdir p).
Proof.
  intros w. unfold native_tail, bind, _resolve, promisify, readdir.
  destruct (lookup w (Path.resolve (cwd w) p)) as [at_ n| |];
    try destruct n as [|m es| |]; try destruct (mode_readable m); apply same_fs_log.
Qed.

Lemma keeps_kind question p : keeps_tree (kind_check question p).
Proof.
  apply keeps_bind; [apply keeps_exists|intros e].
  apply keeps_if; [apply keeps_throw|apply keeps_lstat_check].
Qed.

(** X2. The operations that only ask never change the file tree or
    the working directory, whatever they answer. *)
Theorem queries_keep_the_tree (p : string) :
  keeps_tree (exists_ p)
  /\ keeps_tree (isFile p)
  /\ keeps_tree (isDirectory p)
  /\ keeps_tree (isSymbolicLink p)
  /\ keeps_tree (read p)
  /\ keeps_tree (readDir p).
Proof.
  refine (conj (keeps_exists p)
           (conj (keeps_kind stats_isFile p)
              (conj (keeps_kind stats_isDirectory p)
                 (conj (keeps_kind stats_isSymbolicLink p) (conj _ _))))).
  - apply keeps_bind; [apply keeps_exists|intros e].
    apply keeps_if; [apply keeps_throw|].
    apply keeps_bind.
    + unfold neither, fmap. apply keeps_bind; [apply (keeps_kind stats_isFile)|intros f].
      apply keeps_if; [|apply keeps_ret].
      apply keeps_bind; [apply (keeps_kind stats_isSymbolicLink)|intros l; apply keeps_ret].
    + intros bad. apply keeps_if; [apply keeps_throw|apply keeps_readFile].
  - apply keeps_bind; [apply keeps_exists|intros e].
    apply keeps_if; [apply keeps_throw|apply keeps_readdir].
Qed.

(** X3. On an existing path the three kind checks answer by the entry
    the path names, the link itself for a link: a regular file is a file
    only, a directory a directory only, a link a link only, and anything
    else is none of the three. *)
Theorem kind_checks_classify (w : world) (p : string) :
  fst (exists_ p w) = Fulfilled true ->
  exists n,
    entry w p = Some n
    /\ fst (isFile p w)
       = Fulfilled (match n with File _ _ => true | _ => false end)
    /\ fst (isDirectory p w)
       = Fulfilled (match n with Dir _ _ => true | _ => false end)
    /\ fst (isSymbolicLink p w)
       = Fulfilled (match n with Link _ => true | _ => false end).
Proof.
  intros H. apply exists_accessible in H.
  destruct (accessible_entry w p H) as (n & He).
  exists n. split; [exact He|].
  destruct (kind_check_run stats_isFile p w n H He) as (w1 & E1 & _).
  destruct (kind_check_run stats_isDirectory p w n H He) as (w2 & E2 & _).
  destruct (kind_check_run stats_isSymbolicLink p w n H He) as (w3 & E3 & _).
  rewrite isFile_kind_check, isDirectory_kind_check, isSymbolicLink_kind_check.
  rewrite E1, E2, E3. repeat split.
Qed.

Lemma kind_checks_classify_witness :
  exists n,
    entry home "d/f.txt" = Some n
    /\ fst (isFile "d/f.txt" home)
       = Fulfilled (match n with File _ _ => true | _ => false end)
    /\ fst (isDirectory "d/f.txt" home)
       = Fulfilled (match n with Dir _ _ => true | _ => false end)
    /\ fst (isSymbolicLink "d/f.txt" home)
       = Fulfilled (match n with Link _ => true | _ => false end).
Proof.
  apply (kind_checks_classify home "d/f.txt"). reflexivity.
Defined.

Lemma accessible_lookup w p at_ n :
  lookup w p = Found at_ n -> accessible w p = readable n.
Proof. unfold accessible. intros ->. reflexivity. Qed.

Lemma neither_file_nor_link w0 w p n :
  same_fs w0 w -> accessible w0 p = true -> entry w0 p = Some n ->
  exists w',
    neither (isFile p) (isSymbolicLink p) w
    = (Fulfilled (match n with File _ _ | Link _ => false | _ => true end), w')
    /\ same_fs w0 w'.
Proof.
  intros S Ha He. unfold neither.
  destruct (kind_check_at w0 w stats_isFile p n S Ha He) as (w1 & E1 & S1).
  destruct (kind_check_at w0 w1 stats_isSymbolicLink p n S1 Ha He) as (w2 & E2 & S2).
  change (isFile p) with (kind_check stats_isFile p).
  change (isSymbolicLink p) with (kind_check stats_isSymbolicLink p).
  erewrite bind_fulfilled by exact E1.
  destruct n as [m d|m es|t|m]; cbn [stats_isFile stat_node negb].
  - exists w1. split; [reflexivity|exact S1].
  - unfold fmap. erewrite bind_fulfilled by exact E2. exists w2. split; [reflexivity|exact S2].
  - unfold fmap. erewrite bind_fulfilled by exact E2. exists w2. split; [reflexivity|exact S2].
  - unfold fmap. erewrite bind_fulfilled by exact E2. exists w2. split; [reflexivity|exact S2].
Qed.

Lemma either_file_or_link w0 w p n :
  same_fs w0 w -> accessible w0 p = true -> entry w0 p = Some n ->
  exists w',
    either (isFile p) (isSymbolicLink p) w
    = (Fulfilled (match n with File _ _ | Link _ => true | _ => false end), w')
    /\ same_fs w0 w'.
Proof.
  intros S Ha He. unfold either.
  destruct (kind_check_at w0 w stats_isFile p n S Ha He) as (w1 & E1 & S1).
  destruct (kind_check_at w0 w1 stats_isSymbolicLink p n S1 Ha He) as (w2 & E2 & S2).
  change (isFile p) with (kind_check stats_isFile p).
  change (isSymbolicLink p) with (kind_check stats_isSymbolicLink p).
  erewrite bind_fulfilled by exact E1.
  destruct n as [m d|m es|t|m]; cbn [stats_isFile stat_node].
  - exists w1. split; [reflexivity|exact S1].
  - exists w2. split; [exact E2|exact S2].
  - exists w2. split; [exact E2|exact S2].
  - exists w2. split; [exact E2|exact S2].
Qed.

(** X4. [read] on a path that is no existing regular file and no
    existing link fails and changes nothing: with FileDoesntExist when
    the path does not exist, with InvalidPath when it is a directory or a
    special entry. *)
Theorem read_rejects_other_entries (w : world) (p : string) :
  file_or_link w p = false ->
  fst (read p w)
  = Rejected (Raised (if accessible w p then InvalidPath else FileDoesntExist) p)
  /\ same_fs w (snd (read p w)).
Proof.
  unfold file_or_link. intros H. unfold read.
  destruct (exists_at w w p (same_fs_refl w)) as (w1 & E1 & S1).
  erewrite bind_fulfilled by exact E1.
  destruct (accessible w p) eqn:Ha; cbn [negb].
  - destruct (accessible_entry w p Ha) as (n & He).
    destruct (neither_file_nor_link w w1 p n S1 Ha He) as (w2 & E2 & S2).
    erewrite bind_fulfilled by exact E2.
    rewrite He in H. simpl in H.
    destruct n; try discriminate; simpl; split; try reflexivity; exact S2.
  - simpl. split; [reflexivity|exact S1].
Qed.

Lemma read_rejects_other_entries_witness :
  fst (read "d" home) = Rejected (Raised InvalidPath "d")
  /\ same_fs home (snd (read "d" home)).
Proof.
  apply (read_rejects_other_entries home "d"). reflexivity.
Defined.

Lemma readFile_tail_lookup w0 w p at_ m d :
  same_fs w0 w -> lookup w0 p = Found at_ (File m d) -> mode_readable m = true ->
  exists w',
    native_tail readFile p w = (Fulfilled (Text.utf8_decode d), w') /\ same_fs w0 w'.
Proof.
  intros S Hl Hm. unfold native_tail, bind, _resolve, promisify, readFile.
  rewrite lookup_resolve, (lookup_same w0 w) by assumption.
  rewrite Hl, Hm.
  eexists. split; [reflexivity|].
  eapply same_fs_trans; [exact S|apply same_fs_log].
Qed.

(** X5. A symbolic link to a readable regular file: [read] gives the
    file's content, decoded, through the link, and [write] refuses the
    same path with InvalidPath and changes nothing. *)
Theorem read_follows_link_write_does_not
    (w : world) (p target : string) (at_ : list string) (m : N) (d : string)
    (data : Text.jsstring) :
  entry w p = Some (Link target) ->
  lookup w p = Found at_ (File m d) ->
  mode_readable m = true ->
  fst (read p w) = Fulfilled (Text.utf8_decode d)
  /\ fst (write p data w) = Rejected (Raised InvalidPath p)
  /\ same_fs w (snd (write p data w)).
Proof.
  intros He Hl Hm.
  assert (Ha : accessible w p = true)
    by (rewrite (accessible_lookup w p _ _ Hl); exact Hm).
  split.
  - unfold read.
    destruct (exists_at w w p (same_fs_refl w)) as (w1 & E1 & S1).
    erewrite bind_fulfilled by exact E1. rewrite Ha. cbn [negb].
    destruct (neither_file_nor_link w w1 p _ S1 Ha He) as (w2 & E2 & S2).
    erewrite bind_fulfilled by exact E2.
    destruct (readFile_tail_lookup w w2 p at_ m d S2 Hl Hm) as (w3 & E3 & _).
    unfold native_tail in E3. rewrite E3. reflexivity.
  - unfold write.
    destruct (kind_check_at w w stats_isFile p _ (same_fs_refl w) Ha He) as (w1 & E1 & S1).
    change (isFile p) with (kind_check stats_isFile p).
    erewrite bind_fulfilled by exact E1. simpl. split; [reflexivity|exact S1].
Qed.

Lemma read_follows_link_write_does_not_witness :
  fst (read "l" home) = Fulfilled (Text.js "hi")
  /\ fst (write "l" (Text.js "new") home) = Rejected (Raised InvalidPath "l")
  /\ same_fs home (snd (write "l" (Text.js "new") home)).
Proof.
  apply (read_follows_link_write_does_not home "l" "d/f.txt"
           ["home"; "u"; "d"; "f.txt"] 420 "hi" (Text.js "new")); reflexivity.
Defined.

(** X6. [delete] does not descend: on a directory that is not empty it
    is rejected with the raw [ENOTEMPTY] of [fs.rmdir], and nothing is
    removed. *)
Theorem delete_refuses_full_directory
    (w : world) (p : string) (m : N) (e : string * node) (es : entries) :
  entry w p = Some (Dir m (e :: es)) ->
  mode_readable m = true ->
  fst (delete p w) = Rejected (Native ENOTEMPTY)
  /\ same_fs w (snd (delete p w)).
Proof.
  intros He Hm. unfold delete.
  assert (Ha : accessible w p = true)
    by (rewrite (accessible_no_link w p _ He) by discriminate; exact Hm).
  destruct (exists_at w w p (same_fs_refl w)) as (w1 & E1 & S1).
  erewrite bind_fulfilled by exact E1. rewrite Ha. cbn [negb].
  destruct (either_file_or_link w w1 p _ S1 Ha He) as (w2 & E2 & S2).
  erewrite bind_fulfilled by exact E2. cbv iota.
  destruct (kind_check_at w w2 stats_isDirectory p _ S2 Ha He) as (w3 & E3 & S3).
  change (isDirectory p) with (kind_check stats_isDirectory p).
  erewrite bind_fulfilled by exact E3. cbn [stats_isDirectory stat_node].
  unfold bind, _resolve, promisify, rmdir.
  rewrite segs_resolve, (segs_same w w3) by assumption.
  destruct S3 as (Sr & Sc & Su). rewrite Sr. unfold entry in He. rewrite He.
  simpl. split; [reflexivity|]. repeat split; simpl; assumption.
Qed.

Lemma delete_refuses_full_directory_witness :
  fst (delete "d" home) = Rejected (Native ENOTEMPTY)
  /\ same_fs home (snd (delete "d" home)).
Proof.
  apply (delete_refuses_full_directory home "d" 493
           ("f.txt", File 420 "hi") [("sub", Dir 493 [])]); reflexivity.
Defined.

(** X7. [delete] on an existing entry that is neither file, link nor
    directory is rejected with InvalidPath after the three kind checks,
    and nothing is removed. *)
Theorem delete_refuses_special_entry (w : world) (p : string) (m : N) :
  entry w p = Some (Special m) ->
  mode_readable m = true ->
  fst (delete p w) = Rejected (Raised InvalidPath p)
  /\ same_fs w (snd (delete p w)).
Proof.
  intros He Hm. unfold delete.
  assert (Ha : accessible w p = true)
    by (rewrite (accessible_no_link w p _ He) by discriminate; exact Hm).
  destruct (exists_at w w p (same_fs_refl w)) as (w1 & E1 & S1).
  erewrite bind_fulfilled by exact E1. rewrite Ha. cbn [negb].
  destruct (either_file_or_link w w1 p _ S1 Ha He) as (w2 & E2 & S2).
  erewrite bind_fulfilled by exact E2. cbv iota.
  destruct (kind_check_at w w2 stats_isDirectory p _ S2 Ha He) as (w3 & E3 & S3).
  change (isDirectory p) with (kind_check stats_isDirectory p).
  erewrite bind_fulfilled by exact E3. simpl. split; [reflexivity|exact S3].
Qed.

Lemma delete_refuses_special_entry_witness :
  let w := set_root (Dir 493 [("fifo", Special 420)]) (World (Dir 493 []) "/" 18 [] []) in
  fst (delete "fifo" w) = Rejected (Raised InvalidPath "fifo")
  /\ same_fs w (snd (delete "fifo" w)).
Proof.
  apply (delete_refuses_special_entry
           (set_root (Dir 493 [("fifo", Special 420)]) (World (Dir 493 []) "/" 18 [] []))
           "fifo" 420); reflexivity.
Defined.

(** X8. [delete] on a symbolic link to a regular file removes the link
    and leaves the file and its content where they are. *)
Theorem delete_link_keeps_target
    (w : world) (p target : string) (at_ : list string) (m : N) (d : string) :
  entry w p = Some (Link target) ->
  lookup w p = Found at_ (File m d) ->
  mode_readable m = true ->
  segs w p <> [] ->
  exists w',
    delete p w = (Fulfilled tt, w')
    /\ entry w' p = None
    /\ walk (root w') at_ = Some (File m d)
    /\ cwd w' = cwd w.
Proof.
  intros He Hl Hm Hn. unfold delete.
  assert (Ha : accessible w p = true)
    by (rewrite (accessible_lookup w p _ _ Hl); exact Hm).
  destruct (exists_at w w p (same_fs_refl w)) as (w1 & E1 & S1).
  erewrite bind_fulfilled by exact E1. rewrite Ha. cbn [negb].
  destruct (either_file_or_link w w1 p _ S1 Ha He) as (w2 & E2 & S2).
  erewrite bind_fulfilled by exact E2. cbv iota.
  destruct (unlink_tail w w2 p _ S2 He) as (w3 & E3 & R3 & C3); [discriminate|].
  unfold native_tail in E3. exists w3. split; [exact E3|].
  destruct (FsFacts.follow_found _ _ _ _ _ Hl) as [Hat _].
  repeat split; [| |exact C3].
  - unfold entry. rewrite R3.
    replace (segs w3 p) with (segs w p) by (unfold segs; rewrite C3; reflexivity).
    destruct (TreeFacts.snoc_cases (segs w p)) as [E|(a & l & E)]; [congruence|].
    rewrite E. apply FsFacts.walk_tree_remove.
  - rewrite R3, TreeFacts.walk_tree_remove_frame; [exact Hat|].
    unfold entry in He.
    apply (TreeFacts.leaves_diverge (root w) _ _ _ _ He Hat); try discriminate.
    intros Eq. rewrite Eq, Hat in He. discriminate.
Qed.

Lemma delete_link_keeps_target_witness :
  exists w',
    delete "l" home = (Fulfilled tt, w')
    /\ entry w' "l" = None
    /\ walk (root w') ["home"; "u"; "d"; "f.txt"] = Some (File 420 "hi")
    /\ cwd w' = cwd home.
Proof.
  apply (delete_link_keeps_target home "l" "d/f.txt"
           ["home"; "u"; "d"; "f.txt"] 420 "hi"); try reflexivity.
  discriminate.
Defined.

Lemma readdir_tail_lookup w0 w p at_ n :
  same_fs w0 w -> lookup w0 p = Found at_ n -> readable n = true ->
  exists w',
    native_tail readdir p w
    = (match n with
       | Dir _ es => Fulfilled (map fst es)
       | _ => Rejected (Native ENOTDIR)
       end, w')
    /\ same_fs w0 w'.
Proof.
  intros S Hl Hr. unfold native_tail, bind, _resolve, promisify, readdir.
  rewrite lookup_resolve, (lookup_same w0 w) by assumption. rewrite Hl.
  destruct n as [m d|m es|t|m]; simpl in Hr; try rewrite Hr;
    (eexists; split; [reflexivity|eapply same_fs_trans; [exact S|apply same_fs_log]]).
Qed.

Lemma readDir_at w0 w p at_ n :
  same_fs w0 w -> lookup w0 p = Found at_ n -> readable n = true ->
  exists w',
    readDir p w
    = (match n with
       | Dir _ es => Fulfilled (map fst es)
       | _ => Rejected (Native ENOTDIR)
       end, w')
    /\ same_fs w0 w'.
Proof.
  intros S Hl Hr. unfold readDir.
  assert (Ha : accessible w0 p = true)
    by (rewrite (accessible_lookup w0 p _ _ Hl); exact Hr).
  destruct (exists_at w0 w p S) as (w1 & E1 & S1).
  erewrite bind_fulfilled by exact E1. rewrite Ha. cbn [negb].
  apply (readdir_tail_lookup w0 w1 p at_ n S1 Hl Hr).
Qed.

(** X9. [readDir] on a readable path, a link followed to its end: a
    directory gives its names in the order the directory holds them;
    anything else is rejected with the raw [ENOTDIR] of [fs.readdir].
    Nothing is changed. *)
Theorem readDir_names_or_ENOTDIR
    (w : world) (p : string) (at_ : list string) (n : node) :
  lookup w p = Found at_ n ->
  readable n = true ->
  fst (readDir p w)
  = match n with
    | Dir _ es => Fulfilled (map fst es)
    | _ => Rejected (Native ENOTDIR)
    end
  /\ same_fs w (snd (readDir p w)).
Proof.
  intros Hl Hr.
  destruct (readDir_at w w p at_ n (same_fs_refl w) Hl Hr) as (w' & E & S).
  rewrite E. split; [reflexivity|exact S].
Qed.

Lemma readDir_names_or_ENOTDIR_witness :
  (fst (readDir "ld" home) = Fulfilled ["f.txt"; "sub"]
   /\ same_fs home (snd (readDir "ld" home)))
  /\ (fst (readDir "d/f.txt" home) = Rejected (Native ENOTDIR)
      /\ same_fs home (snd (readDir "d/f.txt" home))).
Proof.
  split.
  - apply (readDir_names_or_ENOTDIR home "ld" ["home"; "u"; "d"]
             (Dir 493 [("f.txt", File 420 "hi"); ("sub", Dir 493 [])])); reflexivity.
  - apply (readDir_names_or_ENOTDIR home "d/f.txt" ["home"; "u"; "d"; "f.txt"]
             (File 420 "hi")); reflexivity.
Defined.

(** X10. [deleteAll] on a regular file lists it first, is rejected with
    the raw [ENOTDIR] of that listing, and never reaches [delete]: the
    file stays. *)
Theorem deleteAll_on_file_is_ENOTDIR
    (w : world) (p : string) (m : N) (d : string) (k : nat) :
  entry w p = Some (File m d) ->
  mode_readable m = true ->
  fst (deleteAll (S k) p w) = Rejected (Native ENOTDIR)
  /\ same_fs w (snd (deleteAll (S k) p w)).
Proof.
  intros He Hm. rewrite deleteAll_S.
  assert (Hl : lookup w p = Found (segs w p) (File m d))
    by (apply lookup_entry; [exact He|discriminate]).
  destruct (readDir_at w w p _ _ (same_fs_refl w) Hl Hm) as (w1 & E1 & S1).
  erewrite bind_rejected by exact E1. split; [reflexivity|exact S1].
Qed.

Lemma deleteAll_on_file_is_ENOTDIR_witness :
  fst (deleteAll 1 "d/f.txt" home) = Rejected (Native ENOTDIR)
  /\ same_fs home (snd (deleteAll 1 "d/f.txt" home)).
Proof.
  apply (deleteAll_on_file_is_ENOTDIR home "d/f.txt" 420 "hi" 0); reflexivity.
Defined.

(** X11. A directory whose first entry is a symbolic link to a regular
    file: [deleteAll] takes the link for a directory, since [isFile]
    examines the link itself, lists it, and is rejected with the raw
    [ENOTDIR]; nothing has been removed. *)
Theorem deleteAll_stops_at_link_to_file
    (w : world) (dir : string) (m : N) (l target : string) (rest : entries)
    (at_ : list string) (mf : N) (d : string) (k : nat) :
  entry w dir = Some (Dir m ((l, Link target) :: rest)) ->
  mode_readable m = true ->
  Path.plain l = true ->
  lookup w (Path.join [dir; l]) = Found at_ (File mf d) ->
  mode_readable mf = true ->
  fst (deleteAll (S (S k)) dir w) = Rejected (Native ENOTDIR)
  /\ same_fs w (snd (deleteAll (S (S k)) dir w)).
Proof.
  intros He Hm Hp Hl Hmf. rewrite deleteAll_S.
  destruct (readDir_run w w dir m _ (same_fs_refl w) He Hm) as (w1 & E1 & S1).
  erewrite bind_fulfilled by exact E1.
  set (curr := Path.join [dir; l]) in *.
  assert (Hc : entry w curr = Some (Link target)).
  { unfold curr. rewrite (entry_child w dir l m _ Hp He). simpl.
    rewrite String.eqb_refl. reflexivity. }
  assert (Ha : accessible w curr = true)
    by (rewrite (accessible_lookup w curr _ _ Hl); exact Hmf).
  destruct (kind_check_at w w1 stats_isFile curr _ S1 Ha Hc) as (w2 & E2 & S2).
  destruct (readDir_at w w2 curr _ _ S2 Hl Hmf) as (w3 & E3 & S3).
  assert (E : for_of (map fst ((l, Link target) :: rest)) (delete_entry (S k) dir) w1
              = (Rejected (Native ENOTDIR), w3)).
  { simpl map. simpl for_of. apply bind_rejected.
    unfold delete_entry. cbv zeta. fold curr.
    change (isFile curr) with (kind_check stats_isFile curr).
    erewrite bind_fulfilled by exact E2. cbn [stats_isFile stat_node].
    rewrite deleteAll_S. apply bind_rejected. exact E3. }
  erewrite bind_rejected by exact E. split; [reflexivity|exact S3].
Qed.

Lemma deleteAll_stops_at_link_to_file_witness :
  let w :=
    World (Dir 493 [("t", File 420 "x"); ("d", Dir 493 [("l", Link "/t"); ("f", File 420 "y")])])
      "/" 18 [] [] in
  fst (deleteAll 2 "d" w) = Rejected (Native ENOTDIR)
  /\ same_fs w (snd (deleteAll 2 "d" w)).
Proof.
  apply (deleteAll_stops_at_link_to_file
           (World (Dir 493 [("t", File 420 "x");
                            ("d", Dir 493 [("l", Link "/t"); ("f", File 420 "y")])])
              "/" 18 [] [])
           "d" 493 "l" "/t" [("f", File 420 "y")] ["t"] 420 "x" 0); reflexivity.
Defined.

(** X12. A readable directory, not the root, that holds readable regular
    files and readable empty directories under distinct names, any number
    and in any order: [deleteAll] succeeds, and afterwards neither the
    directory nor any name below it exists. *)
Theorem deleteAll_flat_directory
    (w : world) (dir : string) (m : N) (es : entries) (k : nat) :
  entry w dir = Some (Dir m es) ->
  mode_readable m = true ->
  segs w dir <> [] ->
  Forall (fun e => Path.plain (fst e) = true /\ simple_entry (snd e) = true) es ->
  NoDup (map fst es) ->
  exists w',
    deleteAll (S (S k)) dir w = (Fulfilled tt, w')
    /\ fst (exists_ dir w') = Fulfilled false
    /\ forall x, Path.plain x = true ->
         fst (exists_ (Path.join [dir; x]) w') = Fulfilled false.
Proof.
  intros He Hm Hn Hall Hnd.
  destruct (deleteAll_flat_dir_run w dir m es k He Hm Hn Hall Hnd) as (w' & E & Hg & _).
  exists w'. split; [exact E|].
  assert (Hx : forall q, entry w' q = None -> fst (exists_ q w') = Fulfilled false).
  { intros q Hq. rewrite exists_run. simpl. rewrite accessible_missing by exact Hq.
    reflexivity. }
  split; [apply Hx; exact Hg|].
  intros x Hp. apply Hx. apply entry_below_missing; assumption.
Qed.

Lemma deleteAll_flat_directory_witness :
  let w :=
    World (Dir 493 [("d", Dir 493 [("a", File 420 "1"); ("b", Dir 493 []);
                                     ("c", File 420 "3"); ("e", Dir 493 [])])])
      "/" 18 [] [] in
  exists w',
    deleteAll 2 "d" w = (Fulfilled tt, w')
    /\ fst (exists_ "d" w') = Fulfilled false
    /\ forall x, Path.plain x = true ->
         fst (exists_ (Path.join ["d"; x]) w') = Fulfilled false.
Proof.
  apply (deleteAll_flat_directory
           (World (Dir 493 [("d", Dir 493 [("a", File 420 "1"); ("b", Dir 493 []);
                                            ("c", File 420 "3"); ("e", Dir 493 [])])])
              "/" 18 [] [])
           "d" 493
           [("a", File 420 "1"); ("b", Dir 493 []); ("c", File 420 "3"); ("e", Dir 493 [])]
           0); try reflexivity.
  - discriminate.
  - repeat constructor.
  - repeat constructor; simpl; intuition discriminate.
Defined.

Lemma lookup_missing_entry w p : entry w p = None -> lookup w p = Missing (segs w p).
Proof.
  unfold entry, lookup, MAXSYMLINKS. intros H. simpl. rewrite H. reflexivity.
Qed.

Lemma walk_after_add r q n pm es :
  q <> [] -> walk r (removelast q) = Some (Dir pm es) -> walk r q = None ->
  walk (tree_add q n r) q = Some n.
Proof.
  intros Hq Hp Hn.
  destruct (TreeFacts.snoc_cases q) as [->|(a & l & ->)]; [congruence|].
  rewrite removelast_last in Hp.
  eapply TreeFacts.walk_tree_add; [exact Hp|].
  rewrite FsFacts.walk_app, Hp in Hn. simpl in Hn.
  destruct (assoc l es); [discriminate|reflexivity].
Qed.

Lemma store_tail_existing name g w0 w p m old :
  same_fs w0 w -> entry w0 p = Some (File m old) -> mode_writable m = true ->
  exists w',
    native_tail (store name g) p w = (Fulfilled tt, w')
    /\ root w' = tree_replace (segs w0 p) (File m (g old)) (root w0)
    /\ cwd w' = cwd w0.
Proof.
  intros S He Hw. unfold native_tail, bind, _resolve, promisify, store.
  rewrite lookup_resolve, (lookup_same w0 w) by assumption.
  rewrite (lookup_entry w0 p _ He) by discriminate. rewrite Hw.
  destruct S as (Sr & Sc & Su).
  eexists. split; [reflexivity|]. simpl. rewrite Sr, Sc. split; reflexivity.
Qed.

Lemma store_tail_missing name g w0 w p pm es :
  same_fs w0 w -> entry w0 p = None -> segs w0 p <> [] ->
  walk (root w0) (removelast (segs w0 p)) = Some (Dir pm es) ->
  exists w',
    native_tail (store name g) p w = (Fulfilled tt, w')
    /\ root w' = tree_add (segs w0 p) (File (new_file_mode w0) (g EmptyString)) (root w0)
    /\ cwd w' = cwd w0.
Proof.
  intros S He Hn Hp. unfold native_tail, bind, _resolve, promisify, store.
  rewrite lookup_resolve, (lookup_same w0 w) by assumption.
  rewrite (lookup_missing_entry w0 p He).
  destruct S as (Sr & Sc & Su). unfold create_file.
  destruct (segs w0 p) as [|x q] eqn:E; [congruence|].
  replace (root (log {| fn := name; paths := [Path.resolve (cwd w) p] |} w))
    with (root w0) by (symmetry; exact Sr).
  rewrite Hp.
  eexists. split; [reflexivity|]. simpl. unfold new_file_mode, unmasked.
  rewrite Sc, Su. split; reflexivity.
Qed.

Lemma entry_after w w' p r' :
  root w' = r' -> cwd w' = cwd w -> entry w' p = walk r' (segs w p).
Proof. intros R C. unfold entry, segs. rewrite R, C. reflexivity. Qed.

(** [read] on a regular file the process may not read: [exists] takes it
    for absent. *)
Lemma read_file_unreadable w p m d :
  entry w p = Some (File m d) -> mode_readable m = false ->
  fst (read p w) = Rejected (Raised FileDoesntExist p).
Proof.
  intros He Hm. unfold read.
  assert (Ha : accessible w p = false)
    by (rewrite (accessible_no_link w p _ He) by discriminate; exact Hm).
  erewrite bind_fulfilled by apply exists_run. rewrite Ha. reflexivity.
Qed.

(** X13. [append] on a readable regular file the process may write adds
    the encoded data to the bytes the file holds: a [read] afterwards
    gives the old bytes followed by those of the data, decoded.  On a
    file it may not write [append] is rejected by the native call, and
    the [read] gives the old content. *)
Theorem append_then_read (w : world) (p : string) (data : Text.jsstring)
    (m : N) (old : string) :
  entry w p = Some (File m old) ->
  mode_readable m = true ->
  fst (append p data w)
  = (if mode_writable m then Fulfilled tt else Rejected (Native EACCES))
  /\ fst (read p (snd (append p data w)))
     = Fulfilled (Text.utf8_decode
                    (if mode_writable m then old ++ Text.utf8_encode data else old)).
Proof.
  intros He Hm. destruct (mode_writable m) eqn:Hw.
  - destruct (store_tail_existing "appendFile" (fun o => o ++ Text.utf8_encode data)
                w w p m old (same_fs_refl w) He Hw) as (w1 & E1 & R1 & C1).
    change (native_tail (store "appendFile" (fun o => o ++ Text.utf8_encode data)) p)
      with (append p data) in E1.
    rewrite E1. simpl. split; [reflexivity|].
    assert (He1 : entry w1 p = Some (File m (old ++ Text.utf8_encode data))).
    { rewrite (entry_after w w1 p _ R1 C1).
      eapply FsFacts.walk_tree_replace. exact He. }
    destruct (read_file_run w1 p m _ He1 Hm) as (w2 & E2 & _).
    rewrite E2. reflexivity.
  - destruct (store_tail_denied "appendFile" (fun o => o ++ Text.utf8_encode data)
                w w p m old (same_fs_refl w) He Hw) as (w1 & E1 & S1).
    change (native_tail (store "appendFile" (fun o => o ++ Text.utf8_encode data)) p)
      with (append p data) in E1.
    rewrite E1. simpl. split; [reflexivity|].
    assert (He1 : entry w1 p = Some (File m old))
      by (rewrite (entry_same w w1) by exact S1; exact He).
    destruct (read_file_run w1 p m _ He1 Hm) as (w2 & E2 & _).
    rewrite E2. reflexivity.
Qed.

Lemma append_then_read_witness :
  fst (append "d/f.txt" (Text.js " there") home) = Fulfilled tt
  /\ fst (read "d/f.txt" (snd (append "d/f.txt" (Text.js " there") home)))
     = Fulfilled (Text.js "hi there").
Proof.
  apply (append_then_read home "d/f.txt" (Text.js " there") 420 "hi"); reflexivity.
Defined.

(** X14. [append] checks nothing: on a path that does not exist, in a
    directory that does, it creates the file with the encoded data and
    with what the mask leaves of the mode [0o666], where [write] on the
    same path is rejected and creates nothing.  A [read] after the
    [append] gives the data as it decodes, unless the mask took the
    owner's read bit: then [read] takes the new file for absent. *)
Theorem append_creates_where_write_refuses
    (w : world) (p : string) (data : Text.jsstring) (pm : N) (es : entries) :
  entry w p = None ->
  segs w p <> [] ->
  walk (root w) (removelast (segs w p)) = Some (Dir pm es) ->
  fst (write p data w) = Rejected (Raised FileDoesntExist p)
  /\ entry (snd (write p data w)) p = None
  /\ fst (append p data w) = Fulfilled tt
  /\ entry (snd (append p data w)) p
     = Some (File (new_file_mode w) (Text.utf8_encode data))
  /\ fst (read p (snd (append p data w)))
     = (if mode_readable (new_file_mode w)
        then Fulfilled (Text.utf8_decode (Text.utf8_encode data))
        else Rejected (Raised FileDoesntExist p)).
Proof.
  intros He Hn Hp.
  assert (Ha : accessible w p = false) by (apply accessible_missing; exact He).
  split; [|split].
  - unfold write. change (isFile p) with (kind_check stats_isFile p).
    destruct (kind_check_missing stats_isFile p w Ha) as (w1 & E1 & _).
    erewrite bind_rejected by exact E1. reflexivity.
  - unfold write. change (isFile p) with (kind_check stats_isFile p).
    destruct (kind_check_missing stats_isFile p w Ha) as (w1 & E1 & S1).
    erewrite bind_rejected by exact E1. simpl.
    rewrite (entry_same w w1) by exact S1. exact He.
  - destruct (store_tail_missing "appendFile" (fun o => o ++ Text.utf8_encode data)
                w w p pm es (same_fs_refl w) He Hn Hp) as (w1 & E1 & R1 & C1).
    change (native_tail (store "appendFile" (fun o => o ++ Text.utf8_encode data)) p)
      with (append p data) in E1.
    rewrite E1. simpl. split; [reflexivity|].
    assert (He1 : entry w1 p = Some (File (new_file_mode w) (Text.utf8_encode data))).
    { rewrite (entry_after w w1 p _ R1 C1).
      eapply walk_after_add; eassumption. }
    split; [exact He1|].
    destruct (mode_readable (new_file_mode w)) eqn:Hm.
    + destruct (read_file_run w1 p _ _ He1 Hm) as (w2 & E2 & _).
      rewrite E2. reflexivity.
    + apply (read_file_unreadable w1 p _ _ He1 Hm).
Qed.

Lemma append_creates_where_write_refuses_witness :
  fst (write "d/new.txt" (Text.js "x") home) = Rejected (Raised FileDoesntExist "d/new.txt")
  /\ entry (snd (write "d/new.txt" (Text.js "x") home)) "d/new.txt" = None
  /\ fst (append "d/new.txt" (Text.js "x") home) = Fulfilled tt
  /\ entry (snd (append "d/new.txt" (Text.js "x") home)) "d/new.txt"
     = Some (File 420 "x")
  /\ fst (read "d/new.txt" (snd (append "d/new.txt" (Text.js "x") home)))
     = Fulfilled (Text.js "x").
Proof.
  apply (append_creates_where_write_refuses home "d/new.txt" (Text.js "x") 493
           [("f.txt", File 420 "hi"); ("sub", Dir 493 [])]); try reflexivity.
  discriminate.
Defined.




(** X15. [copy] with [overwrite] switched off, on a source and a
    destination that both exist, is rejected with FileExists for the
    destination, and nothing is copied. *)
Theorem copy_refuses_existing_destination (w : world) (source destination : string) :
  fst (exists_ source w) = Fulfilled true ->
  fst (exists_ destination w) = Fulfilled true ->
  fst (copy source destination (Some false) w)
  = Rejected (Raised FileExists destination)
  /\ same_fs w (snd (copy source destination (Some false) w)).
Proof.
  intros Hs Hd. apply exists_accessible in Hs. apply exists_accessible in Hd.
  unfold copy. cbn [default negb].
  destruct (exists_at w w source (same_fs_refl w)) as (w1 & E1 & S1).
  erewrite bind_fulfilled by exact E1. rewrite Hs. cbn [negb].
  destruct (exists_at w w1 destination S1) as (w2 & E2 & S2).
  erewrite bind_fulfilled by exact E2. rewrite Hd.
  split; [reflexivity|exact S2].
Qed.

Lemma copy_refuses_existing_destination_witness :
  fst (copy "d/f.txt" "l" (Some false) home) = Rejected (Raised FileExists "l")
  /\ same_fs home (snd (copy "d/f.txt" "l" (Some false) home)).
Proof.
  apply (copy_refuses_existing_destination home "d/f.txt" "l"); reflexivity.
Defined.






Lemma is_prefix_app a : forall b, is_prefix a b = true -> exists rest, b = (a ++ rest)%list.
Proof.
  induction a as [|x a IH]; intros b H; [exists b; reflexivity|].
  destruct b as [|y b]; [discriminate|]. simpl in H.
  apply andb_prop in H as [Hx Hr]. apply String.eqb_eq in Hx. subst y.
  destruct (IH b Hr) as (rest & ->). exists rest. reflexivity.
Qed.

Lemma not_prefix_diverge a :
  forall b, is_prefix a b = false -> is_prefix b a = false -> diverge a b = true.
Proof.
  induction a as [|x a IH]; intros b Hab Hba; [discriminate|].
  destruct b as [|y b]; [discriminate|]. simpl in *.
  rewrite (String.eqb_sym y x) in Hba.
  destruct (x =? y); [apply IH; assumption|reflexivity].
Qed.

Lemma walk_prefix r a rest n :
  walk r (a ++ rest) = Some n -> exists n0, walk r a = Some n0.
Proof.
  rewrite FsFacts.walk_app. destruct (walk r a) as [n0|]; [eauto|discriminate].
Qed.

(** A change to one entry leaves every directory that is not below the
    entry a directory. *)
Lemma walk_upd_dir_dir f l :
  (forall es l', l' <> l -> assoc l' (f es) = assoc l' es) ->
  forall a r q m es,
    walk r q = Some (Dir m es) -> is_prefix (a ++ [l]) q = false ->
    exists es', walk (upd_dir a f r) q = Some (Dir m es').
Proof.
  intros Hf. induction a as [|s a IH]; intros r q m es Hw Hp.
  - destruct q as [|y q'].
    + simpl in Hw. injection Hw as ->. simpl. eauto.
    + simpl in Hp. rewrite andb_true_r in Hp. apply String.eqb_neq in Hp.
      destruct r as [| m0 es0 | |]; try discriminate.
      simpl in *. rewrite Hf by congruence. eauto.
  - destruct q as [|y q'].
    + simpl in Hw. injection Hw as ->. simpl. eauto.
    + destruct r as [| m0 es0 | |]; try discriminate.
      simpl in Hp, Hw |- *. destruct (s =? y) eqn:E.
      * apply String.eqb_eq in E. subst y.
        rewrite FsFacts.assoc_alter_entry.
        destruct (assoc s es0) as [c|]; [|discriminate]. simpl.
        apply (IH c q' m es Hw Hp).
      * apply String.eqb_neq in E.
        rewrite TreeFacts.assoc_alter_entry_other by congruence. eauto.
Qed.

Lemma rename_tail_moves w0 w oldp newp m d pm es :
  same_fs w0 w ->
  entry w0 oldp = Some (File m d) ->
  entry w0 newp = None -> segs w0 newp <> [] ->
  walk (root w0) (removelast (segs w0 newp)) = Some (Dir pm es) ->
  exists w',
    rename_tail oldp newp w = (Fulfilled tt, w')
    /\ walk (root w') (segs w0 oldp) = None
    /\ walk (root w') (segs w0 newp) = Some (File m d)
    /\ cwd w' = cwd w0.
Proof.
  intros S Ho Hn Hne Hp. unfold entry in Ho, Hn.
  set (o := segs w0 oldp) in *. set (n := segs w0 newp) in *.
  assert (Hon : is_prefix o n = false).
  { destruct (is_prefix o n) eqn:E; [|reflexivity]. exfalso.
    destruct (is_prefix_app _ _ E) as (rest & Hr).
    destruct (TreeFacts.snoc_cases rest) as [->|(a & l & ->)].
    - rewrite app_nil_r in Hr. rewrite Hr, Ho in Hn. discriminate.
    - rewrite Hr, app_assoc, removelast_last in Hp.
      rewrite FsFacts.walk_app, Ho in Hp.
      destruct a; simpl in Hp; discriminate. }
  assert (Hno : is_prefix n o = false).
  { destruct (is_prefix n o) eqn:E; [|reflexivity]. exfalso.
    destruct (is_prefix_app _ _ E) as (rest & Hr).
    rewrite Hr in Ho. destruct (walk_prefix _ _ _ _ Ho) as (n0 & H0).
    rewrite H0 in Hn. discriminate. }
  unfold rename_tail, bind, _resolve, promisify, Fs.rename.
  rewrite !segs_resolve, !(segs_same w0 w) by assumption.
  destruct S as (Sr & Sc & Su). rewrite Sr. fold o n.
  rewrite Ho, Hon, Hn, Hp.
  eexists. split; [reflexivity|]. cbn [root cwd set_root log snd].
  split; [|split; [|exact Sc]].
  - rewrite TreeFacts.walk_tree_add_frame, TreeFacts.walk_tree_remove_frame
      by (apply not_prefix_diverge; assumption).
    destruct (TreeFacts.snoc_cases o) as [E|(a & l & E)].
    + rewrite E in Hon. discriminate.
    + rewrite E. apply FsFacts.walk_tree_remove.
  - destruct (TreeFacts.snoc_cases n) as [E|(a & l & E)]; [congruence|].
    rewrite E in *. rewrite removelast_last in Hp.
    assert (Hd : exists es1, walk (tree_remove o (root w0)) a = Some (Dir pm es1)).
    { destruct (TreeFacts.snoc_cases o) as [Eo|(b & k & Eo)].
      - rewrite Eo. simpl. eauto.
      - rewrite Eo, FsFacts.tree_remove_snoc.
        apply (walk_upd_dir_dir _ k) with (es := es); [|exact Hp|].
        + intros es0 l' Hl. apply FsFacts.assoc_remove_entry_other. exact Hl.
        + destruct (is_prefix (b ++ [k]) a) eqn:Ep; [|reflexivity]. exfalso.
          destruct (is_prefix_app _ _ Ep) as (rest & Hr).
          rewrite <- Eo in Hr. rewrite Hr, FsFacts.walk_app, Ho in Hp.
          destruct rest; simpl in Hp; discriminate. }
    destruct Hd as (es1 & Hd).
    rewrite TreeFacts.tree_add_snoc, FsFacts.tree_remove_snoc.
    rewrite FsFacts.walk_app, FsFacts.walk_upd_dir, FsFacts.walk_upd_dir, Hd.
    simpl. rewrite TreeFacts.assoc_add_entry by apply FsFacts.assoc_remove_entry.
    reflexivity.
Qed.

(** X18. [rename] onto a path that exists is rejected with FileExists for
    the new path, and nothing is moved; the old path is checked first. *)
Theorem rename_refuses_existing_target (w : world) (oldPath newPath : string) :
  fst (exists_ oldPath w) = Fulfilled true ->
  fst (exists_ newPath w) = Fulfilled true ->
  fst (Local.rename oldPath newPath w) = Rejected (Raised FileExists newPath)
  /\ same_fs w (snd (Local.rename oldPath newPath w)).
Proof.
  intros Ho Hn. apply exists_accessible in Ho. apply exists_accessible in Hn.
  unfold Local.rename.
  destruct (exists_at w w oldPath (same_fs_refl w)) as (w1 & E1 & S1).
  erewrite bind_fulfilled by exact E1. rewrite Ho. cbn [negb].
  destruct (exists_at w w1 newPath S1) as (w2 & E2 & S2).
  erewrite bind_fulfilled by exact E2. rewrite Hn.
  split; [reflexivity|exact S2].
Qed.

Lemma rename_refuses_existing_target_witness :
  fst (Local.rename "d/f.txt" "d/sub" home) = Rejected (Raised FileExists "d/sub")
  /\ same_fs home (snd (Local.rename "d/f.txt" "d/sub" home)).
Proof.
  apply (rename_refuses_existing_target home "d/f.txt" "d/sub"); reflexivity.
Defined.

(** X19. [rename] of a readable regular file to a path that does not
    exist, in a directory that does: afterwards the old path exists no
    more and a [read] of the new path gives the file's content,
    decoded. *)
Theorem rename_moves_file
    (w : world) (oldPath newPath : string) (m : N) (d : string)
    (pm : N) (es : entries) :
  entry w oldPath = Some (File m d) ->
  mode_readable m = true ->
  entry w newPath = None ->
  segs w newPath <> [] ->
  walk (root w) (removelast (segs w newPath)) = Some (Dir pm es) ->
  exists w',
    Local.rename oldPath newPath w = (Fulfilled tt, w')
    /\ fst (exists_ oldPath w') = Fulfilled false
    /\ fst (read newPath w') = Fulfilled (Text.utf8_decode d).
Proof.
  intros Ho Hm Hn Hne Hp. unfold Local.rename.
  assert (Ha : accessible w oldPath = true)
    by (rewrite (accessible_no_link w oldPath _ Ho) by discriminate; exact Hm).
  destruct (exists_at w w oldPath (same_fs_refl w)) as (w1 & E1 & S1).
  erewrite bind_fulfilled by exact E1. rewrite Ha. cbn [negb].
  destruct (exists_at w w1 newPath S1) as (w2 & E2 & S2).
  erewrite bind_fulfilled by exact E2.
  rewrite (accessible_missing w newPath Hn).
  destruct (rename_tail_moves w w2 oldPath newPath m d pm es S2 Ho Hn Hne Hp)
    as (w3 & E3 & Hold & Hnew & C3).
  unfold rename_tail in E3. exists w3. split; [exact E3|].
  split.
  - rewrite exists_run. simpl. rewrite accessible_missing; [reflexivity|].
    rewrite (entry_after w w3 _ _ eq_refl C3). exact Hold.
  - assert (He : entry w3 newPath = Some (File m d))
      by (rewrite (entry_after w w3 _ _ eq_refl C3); exact Hnew).
    destruct (read_file_run w3 newPath m d He Hm) as (w4 & E4 & _).
    rewrite E4. reflexivity.
Qed.

Lemma rename_moves_file_witness :
  exists w',
    Local.rename "d/f.txt" "d/sub/g.txt" home = (Fulfilled tt, w')
    /\ fst (exists_ "d/f.txt" w') = Fulfilled false
    /\ fst (read "d/sub/g.txt" w') = Fulfilled (Text.js "hi").
Proof.
  apply (rename_moves_file home "d/f.txt" "d/sub/g.txt" 420 "hi" 493 []);
    try reflexivity.
  discriminate.
Defined.

Lemma mkdir_tail_creates w0 w p mode pm es :
  same_fs w0 w -> entry w0 p = None ->
  walk (root w0) (removelast (segs w0 p)) = Some (Dir pm es) ->
  valid_mode mode = true ->
  exists w',
    native_tail (fun q => mkdir q mode) p w = (Fulfilled tt, w')
    /\ root w' = tree_add (segs w0 p) (Dir (new_dir_mode w0 pm mode) []) (root w0)
    /\ cwd w' = cwd w0.
Proof.
  intros S He Hp Hv.
  unfold native_tail, bind, _resolve, promisify, mkdir, mkdir_begin.
  rewrite Hv. unfold mkdir_serve.
  change (segs (log ?c w) ?q) with (segs w q).
  change (root (log ?c w)) with (root w).
  rewrite segs_resolve, (segs_same w0 w) by assumption.
  destruct S as (Sr & Sc & Su). rewrite Sr. unfold entry in He. rewrite He, Hp.
  eexists. split; [reflexivity|]. simpl. unfold new_dir_mode, unmasked. simpl.
  rewrite Sc, Su. split; reflexivity.
Qed.

Lemma mkdir_tail_EEXIST w0 w p mode n :
  same_fs w0 w -> entry w0 p = Some n ->
  valid_mode mode = true ->
  exists w',
    native_tail (fun q => mkdir q mode) p w = (Rejected (Native EEXIST), w')
    /\ same_fs w0 w'.
Proof.
  intros S He Hv.
  unfold native_tail, bind, _resolve, promisify, mkdir, mkdir_begin.
  rewrite Hv. unfold mkdir_serve.
  change (segs (log ?c w) ?q) with (segs w q).
  change (root (log ?c w)) with (root w).
  rewrite segs_resolve, (segs_same w0 w) by assumption.
  destruct S as (Sr & Sc & Su). rewrite Sr. unfold entry in He. rewrite He.
  eexists. split; [reflexivity|]. repeat split; simpl; assumption.
Qed.

(** A mode Node does not accept: [fs.mkdir] throws before anything is
    made. *)
Lemma mkdir_tail_out_of_range w0 w p mode :
  same_fs w0 w -> valid_mode mode = false ->
  exists w',
    native_tail (fun q => mkdir q mode) p w = (Rejected (Native ERR_OUT_OF_RANGE), w')
    /\ same_fs w0 w'.
Proof.
  intros S Hv.
  unfold native_tail, bind, _resolve, promisify, mkdir, mkdir_begin.
  rewrite Hv.
  eexists. split; [reflexivity|].
  eapply same_fs_trans; [exact S|apply same_fs_log].
Qed.

(** X20. [createDir] without [recursively], with a mode Node accepts, on
    a path that does not exist in a directory that does, creates an empty
    directory.  Its mode is what the mask of the process leaves of the
    permission bits given, with the sticky bit, and the set-group-ID bit
    of the directory it is made in: [0o755] for the default [0o777] under
    the mask [0o022].  Called again, it is rejected: with FileExists when
    that mode lets the owner read, and with the raw [EEXIST] of [fs.mkdir]
    when it does not, since [exists] then takes the new directory for
    absent. *)
Theorem createDir_creates_then_refuses
    (w : world) (p : string) (mode : option N) (r : option bool)
    (pm : N) (es : entries) :
  default false r = false ->
  entry w p = None ->
  segs w p <> [] ->
  walk (root w) (removelast (segs w p)) = Some (Dir pm es) ->
  valid_mode (default 511%N mode) = true ->
  exists w',
    createDir p mode r w = (Fulfilled VUndefined, w')
    /\ entry w' p = Some (Dir (new_dir_mode w pm (default 511%N mode)) [])
    /\ fst (createDir p mode r w')
       = Rejected (if mode_readable (new_dir_mode w pm (default 511%N mode))
                   then Raised FileExists p
                   else Native EEXIST).
Proof.
  intros Hr He Hn Hp Hv. unfold createDir. rewrite Hr.
  destruct (exists_at w w p (same_fs_refl w)) as (w1 & E1 & S1).
  erewrite bind_fulfilled by exact E1.
  rewrite (accessible_missing w p He).
  destruct (mkdir_tail_creates w w1 p (default 511%N mode) pm es S1 He Hp Hv)
    as (w2 & E2 & R2 & C2).
  unfold fmap. unfold native_tail in E2.
  erewrite bind_fulfilled by exact E2.
  exists w2. split; [reflexivity|].
  assert (He2 : entry w2 p = Some (Dir (new_dir_mode w pm (default 511%N mode)) [])).
  { rewrite (entry_after w w2 _ _ R2 C2). eapply walk_after_add; eassumption. }
  split; [exact He2|].
  destruct (exists_at w2 w2 p (same_fs_refl w2)) as (w3 & E3 & S3).
  erewrite bind_fulfilled by exact E3.
  rewrite (accessible_no_link w2 p _ He2) by discriminate. cbn [readable].
  destruct (mode_readable (new_dir_mode w pm (default 511%N mode))); [reflexivity|].
  destruct (mkdir_tail_EEXIST w2 w3 p (default 511%N mode) _ S3 He2 Hv) as (w4 & E4 & _).
  unfold native_tail in E4. erewrite bind_rejected by exact E4. reflexivity.
Qed.

Lemma createDir_creates_then_refuses_witness :
  (exists w',
     createDir "d/new" None None home = (Fulfilled VUndefined, w')
     /\ entry w' "d/new" = Some (Dir 493 [])
     /\ fst (createDir "d/new" None None w') = Rejected (Raised FileExists "d/new"))
  /\ (exists w',
        createDir "d/new" (Some 0%N) None home = (Fulfilled VUndefined, w')
        /\ entry w' "d/new" = Some (Dir 0 [])
        /\ fst (createDir "d/new" (Some 0%N) None w') = Rejected (Native EEXIST)).
Proof.
  split.
  - apply (createDir_creates_then_refuses home "d/new" None None 493
             [("f.txt", File 420 "hi"); ("sub", Dir 493 [])]); try reflexivity.
    discriminate.
  - apply (createDir_creates_then_refuses home "d/new" (Some 0%N) None 493
             [("f.txt", File 420 "hi"); ("sub", Dir 493 [])]); try reflexivity.
    discriminate.
Defined.

(** With a mode Node does not accept, [createDir] without [recursively]
    on a path that does not exist is rejected by [fs.mkdir], and nothing
    is made. *)
Lemma createDir_mode_out_of_range (w : world) (p : string) (mode : option N)
    (r : option bool) :
  default false r = false ->
  entry w p = None ->
  valid_mode (default 511%N mode) = false ->
  fst (createDir p mode r w) = Rejected (Native ERR_OUT_OF_RANGE)
  /\ same_fs w (snd (createDir p mode r w)).
Proof.
  intros Hr He Hv. unfold createDir. rewrite Hr.
  destruct (exists_at w w p (same_fs_refl w)) as (w1 & E1 & S1).
  erewrite bind_fulfilled by exact E1.
  rewrite (accessible_missing w p He).
  destruct (mkdir_tail_out_of_range w w1 p (default 511%N mode) S1 Hv) as (w2 & E2 & S2).
  unfold fmap. unfold native_tail in E2.
  erewrite bind_rejected by exact E2. split; [reflexivity|exact S2].
Qed.

Lemma chmod_file_run w p m d mode :
  entry w p = Some (File m d) -> mode_readable m = true ->
  valid_mode mode = true ->
  exists w',
    Local.chmod p mode w = (Fulfilled tt, w')
    /\ entry w' p = Some (File (N.land mode 4095) d).
Proof.
  intros He Hm Hv. unfold Local.chmod.
  assert (Ha : accessible w p = true)
    by (rewrite (accessible_no_link w p _ He) by discriminate; exact Hm).
  destruct (exists_at w w p (same_fs_refl w)) as (w1 & E1 & S1).
  erewrite bind_fulfilled by exact E1. rewrite Ha. cbn [negb].
  unfold bind, _resolve, promisify, Fs.chmod. rewrite Hv.
  rewrite lookup_resolve, (lookup_same w w1) by assumption.
  rewrite (lookup_entry w p _ He) by discriminate.
  eexists. split; [reflexivity|].
  destruct S1 as (Sr & Sc & Su).
  rewrite (entry_after w _ p _ eq_refl); [|simpl; exact Sc].
  simpl. rewrite Sr. eapply FsFacts.walk_tree_replace. exact He.
Qed.

(** A mode Node does not accept: [fs.chmod] throws, and the file is as
    it was. *)
Lemma chmod_mode_out_of_range w p m d mode :
  entry w p = Some (File m d) -> mode_readable m = true ->
  valid_mode mode = false ->
  fst (Local.chmod p mode w) = Rejected (Native ERR_OUT_OF_RANGE)
  /\ same_fs w (snd (Local.chmod p mode w)).
Proof.
  intros He Hm Hv. unfold Local.chmod.
  assert (Ha : accessible w p = true)
    by (rewrite (accessible_no_link w p _ He) by discriminate; exact Hm).
  destruct (exists_at w w p (same_fs_refl w)) as (w1 & E1 & S1).
  erewrite bind_fulfilled by exact E1. rewrite Ha. cbn [negb].
  unfold bind, _resolve, promisify, Fs.chmod. rewrite Hv. simpl.
  split; [reflexivity|].
  eapply same_fs_trans; [exact S1|apply same_fs_log].
Qed.

(** X21. [chmod] on a readable regular file, with a mode Node accepts,
    an unsigned 32-bit integer: the file gets the low twelve bits of the
    mode and keeps its content.  With a mode that takes the owner's read
    bit away, the file exists no more for the driver: [exists] answers
    [false] and a further [chmod], to give the bit back, is rejected with
    FileDoesntExist; with a mode that keeps the bit, a further [chmod]
    succeeds. *)
Theorem chmod_sets_mode_and_may_lock_out
    (w : world) (p : string) (m : N) (d : string) (mode again : N) :
  entry w p = Some (File m d) ->
  mode_readable m = true ->
  valid_mode mode = true ->
  valid_mode again = true ->
  exists w',
    Local.chmod p mode w = (Fulfilled tt, w')
    /\ entry w' p = Some (File (N.land mode 4095) d)
    /\ fst (exists_ p w') = Fulfilled (mode_readable mode)
    /\ fst (Local.chmod p again w')
       = if mode_readable mode then Fulfilled tt
         else Rejected (Raised FileDoesntExist p).
Proof.
  intros He Hm Hv Hv'.
  destruct (chmod_file_run w p m d mode He Hm Hv) as (w1 & E1 & He1).
  exists w1. split; [exact E1|]. split; [exact He1|].
  assert (Hbit : mode_readable (N.land mode 4095) = mode_readable mode).
  { unfold mode_readable. rewrite N.land_spec.
    change (N.testbit 4095 8) with true. apply andb_true_r. }
  assert (Ha : accessible w1 p = mode_readable mode)
    by (rewrite (accessible_no_link w1 p _ He1) by discriminate; exact Hbit).
  split; [rewrite exists_run; simpl; rewrite Ha; reflexivity|].
  destruct (mode_readable mode) eqn:Er.
  - destruct (chmod_file_run w1 p _ d again He1 Hbit Hv') as (w2 & E2 & _).
    rewrite E2. reflexivity.
  - unfold Local.chmod. erewrite bind_fulfilled by apply exists_run.
    rewrite Ha. reflexivity.
Qed.

Lemma chmod_sets_mode_and_may_lock_out_witness :
  (exists w',
     Local.chmod "d/f.txt" 4480 home = (Fulfilled tt, w')
     /\ entry w' "d/f.txt" = Some (File 384 "hi")
     /\ fst (exists_ "d/f.txt" w') = Fulfilled true
     /\ fst (Local.chmod "d/f.txt" 420 w') = Fulfilled tt)
  /\ (exists w',
        Local.chmod "d/f.txt" 0 home = (Fulfilled tt, w')
        /\ entry w' "d/f.txt" = Some (File 0 "hi")
        /\ fst (exists_ "d/f.txt" w') = Fulfilled false
        /\ fst (Local.chmod "d/f.txt" 420 w')
           = Rejected (Raised FileDoesntExist "d/f.txt")).
Proof.
  split.
  - apply (chmod_sets_mode_and_may_lock_out home "d/f.txt" 420 "hi" 4480 420);
      reflexivity.
  - apply (chmod_sets_mode_and_may_lock_out home "d/f.txt" 420 "hi" 0 420);
      reflexivity.
Defined.

(** X22. [_resolve] gives an absolute path and touches nothing;
    resolving what it gave changes nothing more, and the driver finds at
    the resolved path what it finds at the path. *)
Theorem resolve_is_absolute_and_idempotent (w : world) (p : string) :
  exists q,
    _resolve p w = (Fulfilled q, w)
    /\ Path.isAbsolute q = true
    /\ _resolve q w = (Fulfilled q, w)
    /\ fst (exists_ q w) = fst (exists_ p w)
    /\ entry w q = entry w p.
Proof.
  exists (Path.resolve (cwd w) p). unfold _resolve.
  assert (Hs : segs w (Path.resolve (cwd w) p) = segs w p) by apply segs_resolve.
  assert (Hi : Path.resolve (cwd w) (Path.resolve (cwd w) p) = Path.resolve (cwd w) p).
  { unfold Path.resolve at 1. unfold segs in Hs. rewrite Hs. reflexivity. }
  repeat split.
  - rewrite Hi. reflexivity.
  - rewrite !exists_run. simpl. unfold accessible. rewrite lookup_resolve. reflexivity.
  - unfold entry. rewrite Hs. reflexivity.
Qed.

Lemma list_ascii_app a b :
  list_ascii_of_string (a ++ b) = (list_ascii_of_string a ++ list_ascii_of_string b)%list.
Proof. induction a as [|c a IH]; simpl; [reflexivity|rewrite IH; reflexivity]. Qed.

Lemma no_slash_chars s :
  Path.no_slash s = true ->
  Forall (fun c => Ascii.eqb c Path.slash = false) (list_ascii_of_string s).
Proof.
  induction s as [|c s IH]; simpl; intros H; [constructor|].
  apply andb_prop in H as [Hc Hs]. apply negb_true_iff in Hc.
  constructor; [exact Hc|apply IH; exact Hs].
Qed.

Lemma take_name_stops l r :
  Forall (fun c => Ascii.eqb c Path.slash = false) l ->
  Path.take_name (l ++ Path.slash :: r) = l.
Proof.
  induction 1 as [|c l Hc Hl IH]; simpl.
  - reflexivity.
  - rewrite Hc, IH. reflexivity.
Qed.

Lemma drop_name_stops l r :
  Forall (fun c => Ascii.eqb c Path.slash = false) l ->
  Path.drop_name (l ++ Path.slash :: r) = Some r.
Proof.
  induction 1 as [|c l Hc Hl IH]; simpl.
  - reflexivity.
  - rewrite Hc. exact IH.
Qed.

Lemma drop_slashes_none l r :
  l <> [] -> Forall (fun c => Ascii.eqb c Path.slash = false) l ->
  Path.drop_slashes (l ++ r) = (l ++ r)%list.
Proof.
  intros Hn Hl. destruct l as [|c l]; [congruence|].
  inversion Hl; subst. simpl. rewrite H1. reflexivity.
Qed.

Lemma plain_chars s :
  Path.plain s = true ->
  list_ascii_of_string s <> []
  /\ Forall (fun c => Ascii.eqb c Path.slash = false) (list_ascii_of_string s).
Proof.
  intros H. split.
  - destruct s; [discriminate H|discriminate].
  - apply no_slash_chars, PathFacts.plain_no_slash, H.
Qed.

Lemma rev_chars l :
  l <> [] -> Forall (fun c => Ascii.eqb c Path.slash = false) l ->
  rev l <> [] /\ Forall (fun c => Ascii.eqb c Path.slash = false) (rev l).
Proof.
  intros Hn Hl. split; [|apply Forall_rev; exact Hl].
  intros E. apply Hn. rewrite <- (rev_involutive l), E. reflexivity.
Qed.

(** [basename] and [dirname] of two names joined by a separator. *)
Lemma basename_of_pair x y :
  Path.plain y = true -> Path.basename (x ++ String Path.slash y) = y.
Proof.
  intros Hy. destruct (plain_chars y Hy) as [Hn Hl].
  destruct (rev_chars _ Hn Hl) as [Hrn Hrl].
  unfold Path.basename. rewrite list_ascii_app. simpl list_ascii_of_string.
  rewrite rev_app_distr. simpl rev. rewrite <- app_assoc. simpl app.
  rewrite drop_slashes_none by assumption.
  rewrite take_name_stops by assumption.
  rewrite rev_involutive. apply string_of_list_ascii_of_string.
Qed.

Lemma dirname_of_pair x y :
  Path.plain x = true -> Path.plain y = true ->
  Path.dirname (x ++ String Path.slash y) = x.
Proof.
  intros Hx Hy. destruct (plain_chars y Hy) as [Hn Hl].
  destruct (rev_chars _ Hn Hl) as [Hrn Hrl].
  destruct x as [|c0 x']; [discriminate Hx|].
  assert (Hc0 : Ascii.eqb c0 Path.slash = false).
  { apply PathFacts.plain_no_slash in Hx. simpl in Hx.
    apply andb_prop in Hx as [Hx _]. apply negb_true_iff in Hx. exact Hx. }
  unfold Path.dirname. simpl list_ascii_of_string. rewrite list_ascii_app.
  simpl list_ascii_of_string.
  rewrite rev_app_distr. simpl rev. rewrite <- app_assoc. simpl app.
  rewrite drop_slashes_none by assumption.
  rewrite drop_name_stops by assumption.
  rewrite Hc0.
  destruct (rev (list_ascii_of_string x')) as [|c r] eqn:E.
  - assert (Hx' : list_ascii_of_string x' = [])
      by (rewrite <- (rev_involutive (list_ascii_of_string x')), E; reflexivity).
    destruct x'; [reflexivity|discriminate].
  - rewrite <- E, rev_involutive.
    change (string_of_list_ascii (c0 :: list_ascii_of_string x'))
      with (String c0 (string_of_list_ascii (list_ascii_of_string x'))).
    rewrite string_of_list_ascii_of_string. reflexivity.
Qed.

Lemma join_one f : Path.plain f = true -> Path.join [EmptyString; f] = f.
Proof.
  intros Hf.
  assert (Hfn : (f =? EmptyString) = false)
    by (apply String.eqb_neq, PathFacts.plain_not_empty; assumption).
  unfold Path.join. simpl filter. rewrite Hfn. simpl negb. cbv iota.
  simpl Path.join_sep. unfold Path.normalize. rewrite Hfn.
  rewrite PathFacts.isAbsolute_no_slash by (apply PathFacts.plain_no_slash; assumption).
  rewrite PathFacts.ends_with_slash_no_slash by (apply PathFacts.plain_no_slash; assumption).
  unfold Path.normalizeString.
  rewrite (PathFacts.split_single f) by (apply PathFacts.plain_no_slash; assumption).
  rewrite (PathFacts.norm_segs_plain _ [f]) by (constructor; [assumption|constructor]).
  simpl Path.join_sep. rewrite Hfn. reflexivity.
Qed.

Lemma join_pair x y :
  Path.plain x = true -> Path.plain y = true ->
  Path.join [x; y] = x ++ String Path.slash y.
Proof.
  intros Hx Hy.
  assert (Hxn : (x =? EmptyString) = false)
    by (apply String.eqb_neq, PathFacts.plain_not_empty; assumption).
  assert (Hyn : (y =? EmptyString) = false)
    by (apply String.eqb_neq, PathFacts.plain_not_empty; assumption).
  unfold Path.join. simpl filter. rewrite Hxn, Hyn. simpl negb. cbv iota.
  change (Path.join_sep [x; y]) with (x ++ String Path.slash y).
  rewrite PathFacts.normalize_entry
    by (try apply PathFacts.plain_not_empty; assumption).
  cbv zeta.
  rewrite PathFacts.isAbsolute_no_slash by (apply PathFacts.plain_no_slash; assumption).
  simpl negb.
  rewrite (PathFacts.split_single x) by (apply PathFacts.plain_no_slash; assumption).
  rewrite (PathFacts.norm_segs_plain _ [x]) by (constructor; [assumption|constructor]).
  reflexivity.
Qed.

Lemma not_own_prefix (x y : string) : x <> x ++ String Path.slash y.
Proof.
  induction x as [|c x IH]; simpl; [discriminate|].
  intros H. injection H as H. apply IH. exact H.
Qed.

(** X23. [createDir] with [recursively] and a mode Node accepts, on two
    names joined by a separator, in a working directory that exists and
    holds nothing under the first name.  It makes two [fs.mkdir] calls,
    for the first name and for the path, and fulfils with [true] before
    either is served.  What is there once both have been served depends
    on the order the pool took them in.  In the order made, both
    directories are there, the second in the first.  In the other order
    the call for the path finds no parent and fails, unheard since the
    promise is settled, and the first directory alone is there, empty.
    The directories have what the mask leaves of the mode. *)
Theorem createDir_recursively_creates_nested
    (w : world) (x y : string) (mode : option N) (cm : N) (ces : entries) :
  Path.plain x = true ->
  Path.plain y = true ->
  walk (root w) (segs w EmptyString) = Some (Dir cm ces) ->
  assoc x ces = None ->
  valid_mode (default 511%N mode) = true ->
  let p := x ++ String Path.slash y in
  let first := new_dir_mode w cm (default 511%N mode) in
  let second := new_dir_mode w first (default 511%N mode) in
  exists w',
    createDir p mode (Some true) w = (Fulfilled (VBool true), w')
    /\ (arrange (pool w) [x; p] = [x; p] \/ arrange (pool w) [x; p] = [p; x])
    /\ (arrange (pool w) [x; p] = [x; p] ->
        entry w' x = Some (Dir first [(y, Dir second [])])
        /\ entry w' p = Some (Dir second []))
    /\ (arrange (pool w) [x; p] = [p; x] ->
        entry w' x = Some (Dir first [])
        /\ entry w' p = None).
Proof.
  intros Hx Hy Hc Hfresh Hv p first second.
  set (m := default 511%N mode) in *.
  set (C := segs w EmptyString) in *.
  assert (Sx : forall w1, cwd w1 = cwd w -> segs w1 x = (C ++ [x])%list).
  { intros w1 E. unfold segs, C. rewrite E.
    rewrite <- (join_one x Hx) at 1. apply PathFacts.resolve_segs_join. exact Hx. }
  assert (Sxy : forall w1, cwd w1 = cwd w -> segs w1 p = ((C ++ [x]) ++ [y])%list).
  { intros w1 E. unfold p. rewrite <- (join_pair x y Hx Hy).
    unfold segs. rewrite PathFacts.resolve_segs_join by exact Hy.
    fold (segs w1 x). rewrite (Sx w1 E). reflexivity. }
  assert (Hne : [x; p] <> [p; x]).
  { intros H. injection H as H _. exact (not_own_prefix x y H). }
  unfold createDir. cbn [default].
  fold p.
  replace (Path.dirname p) with x by (symmetry; apply dirname_of_pair; assumption).
  replace (Path.basename p) with y by (symmetry; apply basename_of_pair; assumption).
  rewrite join_pair by assumption.
  rewrite PathFacts.split_app_slash by (apply PathFacts.plain_no_slash; assumption).
  rewrite (PathFacts.split_single y) by (apply PathFacts.plain_no_slash; assumption).
  change (mkdir_targets [x; y])
    with [Path.join [EmptyString; x]; Path.join [Path.join [EmptyString; x]; y]].
  rewrite join_one, join_pair by assumption.
  fold p. fold m.
  rewrite mkdir_all_valid by exact Hv.
  cbn [fold_left length].
  set (ws := drain 2 (log (Call "mkdir" [p]) (log (Call "mkdir" [x]) w))).
  change (pool (log (Call "mkdir" [p]) (log (Call "mkdir" [x]) w))) with (pool w).
  (* What the tree holds as the calls are served. *)
  assert (Hx0 : walk (root w) (C ++ [x]) = None).
  { rewrite FsFacts.walk_app, Hc. simpl. rewrite Hfresh. reflexivity. }
  assert (Hp0 : walk (root w) ((C ++ [x]) ++ [y]) = None).
  { rewrite FsFacts.walk_app, Hx0. reflexivity. }
  set (r1 := tree_add (C ++ [x]) (Dir first []) (root w)).
  assert (H1 : walk r1 (C ++ [x]) = Some (Dir first []))
    by (eapply TreeFacts.walk_tree_add; eassumption).
  assert (Hxy0 : walk r1 ((C ++ [x]) ++ [y]) = None)
    by (rewrite FsFacts.walk_app, H1; reflexivity).
  set (r2 := tree_add ((C ++ [x]) ++ [y]) (Dir second []) r1).
  assert (H2 : walk r2 ((C ++ [x]) ++ [y]) = Some (Dir second []))
    by (eapply TreeFacts.walk_tree_add; [exact H1|reflexivity]).
  assert (H3 : walk r2 (C ++ [x]) = Some (Dir first [(y, Dir second [])])).
  { unfold r2. rewrite TreeFacts.tree_add_snoc, FsFacts.walk_upd_dir, H1. reflexivity. }
  set (w1 := set_root r1 ws).
  assert (M1 : forall pr, mkdir_quietly m (pr, ws) x = (pr, w1)).
  { intros pr. unfold mkdir_quietly, mkdir_serve. cbn [snd fst].
    rewrite (Sx ws eq_refl).
    change (root ws) with (root w). rewrite Hx0, removelast_last, Hc. reflexivity. }
  destruct (FsFacts.arrange_two (pool w) x p) as [O|O]; rewrite O; cbn [fold_left].
  - set (w2 := set_root r2 w1).
    assert (M2 : mkdir_quietly m (resolve (VBool true) Pending, w1) p
                 = (Fulfilled (VBool true), w2)).
    { unfold mkdir_quietly, mkdir_serve. cbn [snd fst].
      rewrite (Sxy w1 eq_refl).
      change (root w1) with r1. rewrite Hxy0, removelast_last, H1. reflexivity. }
    rewrite M1, M2. exists w2. split; [reflexivity|]. split; [left; reflexivity|].
    split.
    + intros _. unfold entry. rewrite (Sxy w2 eq_refl), (Sx w2 eq_refl).
      change (root w2) with r2. split; assumption.
    + intros H. exfalso. exact (Hne H).
  - assert (M0 : mkdir_quietly m (resolve (VBool true) Pending, ws) p
                 = (Fulfilled (VBool true), ws)).
    { unfold mkdir_quietly, mkdir_serve. cbn [snd fst].
      rewrite (Sxy ws eq_refl).
      change (root ws) with (root w). rewrite Hp0, removelast_last, Hx0. reflexivity. }
    rewrite M0, M1. exists w1. split; [reflexivity|]. split; [right; reflexivity|].
    split.
    + intros H. exfalso. apply Hne. symmetry. exact H.
    + intros _. unfold entry. rewrite (Sxy w1 eq_refl), (Sx w1 eq_refl).
      change (root w1) with r1. split; assumption.
Qed.

Lemma createDir_recursively_creates_nested_witness :
  (exists w',
     createDir ("x" ++ String Path.slash "y") None (Some true) home
     = (Fulfilled (VBool true), w')
     /\ entry w' "x" = Some (Dir 493 [("y", Dir 493 [])])
     /\ entry w' ("x" ++ String Path.slash "y") = Some (Dir 493 []))
  /\ (let rushed := World (root home) (cwd home) (umask home) [1%nat] [] in
      exists w',
        createDir ("x" ++ String Path.slash "y") None (Some true) rushed
        = (Fulfilled (VBool true), w')
        /\ entry w' "x" = Some (Dir 493 [])
        /\ entry w' ("x" ++ String Path.slash "y") = None).
Proof.
  split.
  - destruct (createDir_recursively_creates_nested home "x" "y" None 493
                [("d", Dir 493 [("f.txt", File 420 "hi"); ("sub", Dir 493 [])]);
                 ("l", Link "d/f.txt"); ("ld", Link "d"); ("secret", File 0 "x")]
                eq_refl eq_refl eq_refl eq_refl eq_refl)
      as (w' & E & _ & Hin & _).
    exists w'. split; [exact E|]. apply Hin. reflexivity.
  - destruct (createDir_recursively_creates_nested
                (World (root home) (cwd home) (umask home) [1%nat] []) "x" "y" None 493
                [("d", Dir 493 [("f.txt", File 420 "hi"); ("sub", Dir 493 [])]);
                 ("l", Link "d/f.txt"); ("ld", Link "d"); ("secret", File 0 "x")]
                eq_refl eq_refl eq_refl eq_refl eq_refl)
      as (w' & E & _ & _ & Hout).
    exists w'. split; [exact E|]. apply Hout. reflexivity.
Defined.

(** X26. [delete] on a readable regular file removes that entry and
    no other: the path exists no more, and every path that parts ways
    with it names what it named before. *)
Theorem delete_removes_that_file_only (w : world) (p : string) (m : N) (d : string) :
  entry w p = Some (File m d) ->
  mode_readable m = true ->
  segs w p <> [] ->
  exists w',
    delete p w = (Fulfilled tt, w')
    /\ fst (exists_ p w') = Fulfilled false
    /\ forall q, diverge (segs w p) (segs w q) = true -> entry w' q = entry w q.
Proof.
  intros He Hm Hn.
  destruct (delete_file_run w w p m d (same_fs_refl w) He Hm) as (w1 & E1 & R1 & C1).
  exists w1. split; [exact E1|]. split.
  - rewrite exists_run. simpl. rewrite accessible_missing; [reflexivity|].
    rewrite (entry_after w w1 _ _ R1 C1).
    destruct (TreeFacts.snoc_cases (segs w p)) as [E|(a & l & E)]; [congruence|].
    rewrite E. apply FsFacts.walk_tree_remove.
  - intros q Hq. rewrite (entry_after w w1 _ _ R1 C1).
    apply TreeFacts.walk_tree_remove_frame. exact Hq.
Qed.

Lemma delete_removes_that_file_only_witness :
  exists w',
    delete "d/f.txt" home = (Fulfilled tt, w')
    /\ fst (exists_ "d/f.txt" w') = Fulfilled false
    /\ forall q, diverge (segs home "d/f.txt") (segs home q) = true ->
         entry w' q = entry home q.
Proof.
  apply (delete_removes_that_file_only home "d/f.txt" 420 "hi"); try reflexivity.
  discriminate.
Defined.



End LocalExtras.

(** ** More about the facade *)
Module FacadeExtras.
Import Filesystem Shapes.

Section Dispatch.
Variable R : Type.
Implicit Types (A B : Driver R) (op : operation) (this : t R).

(** X24. The facade follows the two-state machine through any sequence
    of [in] calls and operations, and the default driver it was built on
    is the one it holds at the end. *)
Theorem facade_follows_state_machine (acts : list (action R)) this :
  fst (run acts this) = served (_driver this) (_tempDriver this) acts
  /\ _driver (snd (run acts this)) = _driver this.
Proof.
  revert this. induction acts as [|[driver|op] acts IH]; intros this.
  - split; reflexivity.
  - simpl. destruct (IH (in_ driver this)) as [H1 H2]. split; assumption.
  - simpl. rewrite (FacadeTheorems.perform_dispatch R op this).
    destruct (IH {| _driver := _driver this; _tempDriver := Null |}) as [H1 H2].
    destruct (run acts {| _driver := _driver this; _tempDriver := Null |}) as [cs t'].
    simpl in *. split; [|exact H2].
    rewrite H1. destruct (_tempDriver this); reflexivity.
Qed.

(** X25. Drivers that are [null]: [in(null)] overrides nothing, so the
    next operation runs on the default; a facade built on [null] throws
    a [TypeError] on every operation that no override serves, and an
    override serves one operation only. *)
Theorem null_drivers A B (pending : ref R) op op' :
  perform op (in_ Null {| _driver := Obj A; _tempDriver := pending |})
  = (Return (against A op), constructor (Obj A))
  /\ perform op (constructor (@Null R)) = (ThrowTypeError, constructor Null)
  /\ fst (perform_all [op; op'] (in_ (Obj B) (constructor Null)))
     = [Return (against B op); ThrowTypeError].
Proof.
  rewrite !FacadeTheorems.perform_dispatch. repeat split.
  simpl. rewrite !FacadeTheorems.perform_dispatch. reflexivity.
Qed.

End Dispatch.

End FacadeExtras.

(** ** The paths the native calls receive, all operations together *)
Module ResolvedExtras.
Import Fs Js Local Obs ResolvedPaths.

(** X28. Every operation of the driver but the recursive [createDir]
    hands its native calls only paths that [_resolve] produced, and
    leaves the working directory alone, whatever the process and
    whatever the outcome. *)
Theorem only_resolved_paths_reach_native_calls
    (p other : string) (data : Text.jsstring) (mode : N) (omode : option N)
    (o r : option bool) (fuel : nat) :
  default false r = false ->
  passes_resolved (read p)
  /\ passes_resolved (write p data)
  /\ passes_resolved (exists_ p)
  /\ passes_resolved (isDirectory p)
  /\ passes_resolved (isFile p)
  /\ passes_resolved (isSymbolicLink p)
  /\ passes_resolved (delete p)
  /\ passes_resolved (deleteAll fuel p)
  /\ passes_resolved (append p data)
  /\ passes_resolved (Local.chmod p mode)
  /\ passes_resolved (copy p other o)
  /\ passes_resolved (createDir p omode r)
  /\ passes_resolved (readDir p)
  /\ passes_resolved (Local.rename p other).
Proof.
  intros Hr.
  refine (conj (passes_read p) (conj (passes_write p data) (conj (passes_exists p)
    (conj (passes_isDirectory p) (conj (passes_isFile p) (conj (passes_isSymbolicLink p)
    (conj (passes_delete p) (conj (passes_deleteAll fuel p) (conj (passes_append p data)
    (conj (passes_chmod p mode) (conj (passes_copy p other o)
    (conj (passes_createDir p omode r Hr) (conj (passes_readDir p)
    (passes_rename p other)))))))))))))).
Qed.

Lemma only_resolved_paths_reach_native_calls_witness :
  passes_resolved (deleteAll 3 "d") /\ passes_resolved (createDir "d" None None).
Proof.
  destruct (only_resolved_paths_reach_native_calls "d" "e" (Text.js "x") 0 None None None
              3 eq_refl)
    as (_ & _ & _ & _ & _ & _ & _ & Hd & _ & _ & _ & Hc & _).
  split; [exact Hd|exact Hc].
Defined.

End ResolvedExtras.
